(** * Custom autograd functions of the torch-recipies notebooks

    A shallow embedding of the five [torch.autograd.Function] subclasses
    of [Custom_autograd.ipynb] and of the gradient-checkpointing notebook
    ([MyReLU], [MatrixSum], [MySub], [NonDiffCrossEntropy], [CustomLoss])
    together with the slice of the tensor runtime they call, and of the
    rest of the gradient-checkpointing notebook: the shapes through
    [CIFAR10_Model] and the loop of [train] and [evaluate].

    - Tensors are a shape and row-major data; binary operations broadcast
      the way the runtime does (shapes aligned on the right, a dimension
      of size one stretched).
    - Tensors live in a store and are passed by reference, because one of
      the backward passes writes into a tensor in place.
    - Python exceptions are the left summand of the result.
    - The element type is a parameter.  The functions are run on binary64
      floats, and reasoned about over the reals (calculus) and over the
      reals extended with the IEEE special values (infinities, NaN). *)

From Stdlib Require Import Reals Lra Lia ZArith Floats.
From Stdlib Require String DecimalString.
From stdpp Require Import base option list.
Import String.StringSyntax.

(** ** Element types *)

(** What the notebooks ask of a tensor element: the arithmetic of the
    dtype, the comparison behind [clamp] and [<], and the conversion of
    the Python numbers that occur ([0], [1], [1e-7], [shape[0]]). *)
Class Scalar (A : Type) : Type := {
  s_zero : A;
  s_one : A;
  s_eps : A;   (* the literal 1e-7 *)
  s_add : A → A → A;
  s_sub : A → A → A;
  s_mul : A → A → A;
  s_div : A → A → A;
  s_neg : A → A;
  s_lt : A → A → bool;
  s_of_nat : nat → A
}.

(** The natural logarithm ([torch.log], [np.log]) is kept apart: binary64
    has none in the kernel. *)
Class Log (A : Type) : Type := s_log : A → A.

(** [max] and [min] as [clamp] uses them: a NaN in the data propagates,
    since every comparison with it is false. *)
Definition s_max `{Scalar A} (x lo : A) : A := if s_lt x lo then lo else x.
Definition s_min `{Scalar A} (x hi : A) : A := if s_lt hi x then hi else x.

(** [clamp(x, lo, hi)] and [np.clip(x, lo, hi)], elementwise. *)
Definition s_clip `{Scalar A} (lo hi x : A) : A := s_min (s_max x lo) hi.

(** The two bounds of the cross-entropy clipping, [1e-7] and [1 - 1e-7]. *)
Definition clip_lo `{Scalar A} : A := s_eps.
Definition clip_hi `{Scalar A} : A := s_sub s_one s_eps.

(** *** Reals *)

Definition Rltb (x y : R) : bool := if Rlt_dec x y then true else false.

#[export] Instance R_scalar : Scalar R := {|
  s_zero := 0%R;
  s_one := 1%R;
  s_eps := (/ 10 ^ 7)%R;
  s_add := Rplus;
  s_sub := Rminus;
  s_mul := Rmult;
  s_div := Rdiv;
  s_neg := Ropp;
  s_lt := Rltb;
  s_of_nat := INR
|}.

#[export] Instance R_log : Log R := ln.

(** *** binary64 *)

Definition float_of_nat (n : nat) : float :=
  PrimFloat.of_uint63 (Uint63.of_Z (Z.of_nat n)).

#[export] Instance float_scalar : Scalar float := {|
  s_zero := 0%float;
  s_one := 1%float;
  s_eps := 0x1.ad7f29abcaf48p-24%float;
  s_add := PrimFloat.add;
  s_sub := PrimFloat.sub;
  s_mul := PrimFloat.mul;
  s_div := PrimFloat.div;
  s_neg := PrimFloat.opp;
  s_lt := PrimFloat.ltb;
  s_of_nat := float_of_nat
|}.

(** An infinity or a NaN, on the specification side of binary64. *)
Definition sf_nonfinite (x : spec_float) : Prop :=
  match x with
  | S754_nan | S754_infinity _ => True
  | _ => False
  end.

(** *** Reals with the IEEE special values

    Exact arithmetic on the finite values, and the IEEE 754 rules for
    zero divisors, infinities and NaN.  Rounding, overflow and the sign
    of zero are outside this model. *)
Inductive xreal : Type :=
  | Fin (r : R)
  | PInf
  | NInf
  | NaN.

Definition is_fin (x : xreal) : Prop :=
  match x with Fin _ => True | _ => False end.

(** The sign of a finite value decides which infinity a product or a
    quotient with an infinity is. *)
Definition x_signed_inf (positive : bool) : xreal :=
  if positive then PInf else NInf.

Definition x_inf_times (positive : bool) (r : R) : xreal :=
  if Rlt_dec 0 r then x_signed_inf positive
  else if Rlt_dec r 0 then x_signed_inf (negb positive)
  else NaN.

Definition x_add (x y : xreal) : xreal :=
  match x, y with
  | NaN, _ | _, NaN => NaN
  | Fin a, Fin b => Fin (a + b)
  | PInf, NInf | NInf, PInf => NaN
  | PInf, _ | _, PInf => PInf
  | NInf, _ | _, NInf => NInf
  end.

Definition x_neg (x : xreal) : xreal :=
  match x with
  | Fin a => Fin (- a)
  | PInf => NInf
  | NInf => PInf
  | NaN => NaN
  end.

Definition x_sub (x y : xreal) : xreal := x_add x (x_neg y).

Definition x_mul (x y : xreal) : xreal :=
  match x, y with
  | NaN, _ | _, NaN => NaN
  | Fin a, Fin b => Fin (a * b)
  | PInf, Fin b | Fin b, PInf => x_inf_times true b
  | NInf, Fin b | Fin b, NInf => x_inf_times false b
  | PInf, PInf | NInf, NInf => PInf
  | PInf, NInf | NInf, PInf => NInf
  end.

Definition x_div (x y : xreal) : xreal :=
  match x, y with
  | NaN, _ | _, NaN => NaN
  | Fin a, Fin b =>
      if Req_dec_T b 0 then
        (if Rlt_dec 0 a then PInf else if Rlt_dec a 0 then NInf else NaN)
      else Fin (a / b)
  | Fin _, (PInf | NInf) => Fin 0
  | PInf, Fin b => if Rlt_dec b 0 then NInf else PInf
  | NInf, Fin b => if Rlt_dec b 0 then PInf else NInf
  | (PInf | NInf), (PInf | NInf) => NaN
  end.

Definition x_lt (x y : xreal) : bool :=
  match x, y with
  | NaN, _ | _, NaN => false
  | Fin a, Fin b => Rltb a b
  | NInf, (Fin _ | PInf) => true
  | Fin _, PInf => true
  | _, _ => false
  end.

Definition x_log (x : xreal) : xreal :=
  match x with
  | Fin a => if Rlt_dec 0 a then Fin (ln a) else if Rlt_dec a 0 then NaN else NInf
  | PInf => PInf
  | NInf | NaN => NaN
  end.

(** A finite value between 0 and 1, and one between the two bounds of
    the clipping. *)
Definition in_unit_interval (x : xreal) : Prop :=
  ∃ p, x = Fin p ∧ (0 <= p <= 1)%R.

Definition in_clip_interval (x : xreal) : Prop :=
  ∃ q, x = Fin q ∧ (/ 10 ^ 7 <= q <= 1 - / 10 ^ 7)%R.

#[export] Instance xreal_scalar : Scalar xreal := {|
  s_zero := Fin 0;
  s_one := Fin 1;
  s_eps := Fin (/ 10 ^ 7);
  s_add := x_add;
  s_sub := x_sub;
  s_mul := x_mul;
  s_div := x_div;
  s_neg := x_neg;
  s_lt := x_lt;
  s_of_nat := λ n, Fin (INR n)
|}.

#[export] Instance xreal_log : Log xreal := x_log.

(** ** Tensors *)

(** A tensor (or NumPy array) is its [shape] and its elements in
    row-major order.  A 0-dimensional tensor has shape [[]] and one
    element. *)
Record tensor (A : Type) : Type := Tensor {
  shape : list nat;
  data : list A
}.
Arguments Tensor {A} _ _.
Arguments shape {A} _.
Arguments data {A} _.

(** Number of elements of a shape. *)
Definition numel (s : list nat) : nat := foldr Nat.mul 1 s.

(** The data of a tensor fills its shape. *)
Definition wf {A} (t : tensor A) : Prop := length (data t) = numel (shape t).

(** *** Broadcasting

    Shapes are aligned on their last dimension; two dimensions agree
    when they are equal or one of them is 1.  Both functions below work
    on reversed shapes (innermost dimension first). *)
Definition bdim (d1 d2 : nat) : option nat :=
  if d1 =? d2 then Some d1
  else if d1 =? 1 then Some d2
  else if d2 =? 1 then Some d1
  else None.

Fixpoint bshape_rev (r1 r2 : list nat) : option (list nat) :=
  match r1, r2 with
  | [], r | r, [] => Some r
  | d1 :: r1', d2 :: r2' =>
      d ← bdim d1 d2; r ← bshape_rev r1' r2'; Some (d :: r)
  end.

Definition broadcast_shapes (s1 s2 : list nat) : option (list nat) :=
  reverse <$> bshape_rev (reverse s1) (reverse s2).

(** The row-major position in a tensor of reversed shape [rsrc] that is
    read for position [i] of its expansion to reversed shape [rtgt]: a
    stretched dimension, and every dimension the source lacks, always
    reads index 0. *)
Fixpoint bidx (rsrc rtgt : list nat) (i : nat) : nat :=
  match rsrc, rtgt with
  | ds :: rs, dt :: rt =>
      (if ds =? 1 then 0 else i mod dt) + ds * bidx rs rt (i / dt)
  | _, _ => 0
  end.

Section tensors.
Context {A : Type} `{Scalar A}.

(** The elements of [t] expanded to shape [tgt]. *)
Definition expand (t : tensor A) (tgt : list nat) : list A :=
  (λ i, nth (bidx (reverse (shape t)) (reverse tgt) i) (data t) s_zero)
    <$> seq 0 (numel tgt).

(** Elementwise unary and (broadcasting) binary operations. *)
Definition tmap (f : A → A) (t : tensor A) : tensor A :=
  Tensor (shape t) (f <$> data t).

Definition tzip (f : A → A → A) (x y : tensor A) : option (tensor A) :=
  s ← broadcast_shapes (shape x) (shape y);
  Some (Tensor s (zip_with f (expand x s) (expand y s))).

(** The sum of all elements, accumulated from zero in storage order. *)
Definition tsum (t : tensor A) : A := foldl s_add s_zero (data t).

(** A 0-dimensional tensor holding [a]. *)
Definition scalar_tensor (a : A) : tensor A := Tensor [] [a].

Definition ones (s : list nat) : tensor A :=
  Tensor s (replicate (numel s) s_one).
End tensors.

(** A boolean tensor, the result of a comparison. *)
Record mask : Type := Mask {
  mshape : list nat;
  mbits : list bool
}.

(** ** The store and the exceptions *)

Definition loc : Type := nat.

Inductive exn : Type :=
  | RuntimeError     (* tensors whose shapes do not broadcast *)
  | IndexError       (* [shape[0]] of a 0-dimensional tensor, a mask that does not fit *)
  | ValueError       (* a tuple unpacked into the wrong number of names,
                        arrays whose shapes do not broadcast *)
  | AttributeError   (* an attribute of the context read before it is set *)
  | Dangling.        (* a reference outside the store: never a Python value *)

Abbreviation heap A := (list (tensor A)).

(** A computation reads and extends the store and may raise. *)
Definition M (A X : Type) : Type := heap A → exn + X * heap A.

#[export] Instance M_ret {A} : MRet (M A) := λ X x h, inr (x, h).
#[export] Instance M_bind {A} : MBind (M A) := λ X Y f m h,
  match m h with
  | inl e => inl e
  | inr (x, h') => f x h'
  end.

Definition raise {A X} (e : exn) : M A X := λ _, inl e.

(** A new tensor object. *)
Definition alloc {A} (t : tensor A) : M A loc := λ h, inr (length h, h ++ [t]).

Definition load {A} (l : loc) : M A (tensor A) := λ h,
  match h !! l with
  | Some t => inr (t, h)
  | None => inl Dangling
  end.

(** Overwriting a tensor object in place. *)
Definition store {A} (l : loc) (t : tensor A) : M A unit := λ h,
  if decide (l < length h) then inr ((), <[l := t]> h) else inl Dangling.

(** *** The context of one call

    What [forward] leaves for [backward]: the references given to
    [save_for_backward] and the attribute [constant]. *)
Record context (A : Type) : Type := Ctx {
  saved_tensors : list loc;
  constant : option A
}.
Arguments Ctx {A} _ _.
Arguments saved_tensors {A} _.
Arguments constant {A} _.

Definition empty_context {A} : context A := Ctx [] None.

Definition save_for_backward {A} (ctx : context A) (ts : list loc) : context A :=
  Ctx ts (constant ctx).

Definition set_constant {A} (ctx : context A) (c : A) : context A :=
  Ctx (saved_tensors ctx) (Some c).

Definition get_constant {A} (ctx : context A) : M A A :=
  match constant ctx with
  | Some c => mret c
  | None => raise AttributeError
  end.

(** ** The runtime's operations

    Each returns a new tensor, except [setitem_mask], which writes into
    its first argument. *)
Module torch.
Section ops.
Context {A : Type} `{Scalar A}.

Definition unary (f : A → A) (x : loc) : M A loc :=
  t ← load x; alloc (tmap f t).

Definition binary (f : A → A → A) (x y : loc) : M A loc :=
  tx ← load x; ty ← load y;
  match tzip f tx ty with
  | Some t => alloc t
  | None => raise RuntimeError
  end.

(** [x.clamp(min=lo)] *)
Definition clamp_min (x : loc) (lo : A) : M A loc := unary (λ a, s_max a lo) x.
(** [torch.clamp(x, lo, hi)] *)
Definition clamp (x : loc) (lo hi : A) : M A loc := unary (s_clip lo hi) x.
(** [torch.log(x)] *)
Definition log {LA : Log A} (x : loc) : M A loc := unary s_log x.
(** [-x] *)
Definition neg (x : loc) : M A loc := unary s_neg x.
(** [x.clone()] *)
Definition clone (x : loc) : M A loc := unary (λ a, a) x.
(** [x * y], [x / y], [x - y] on two tensors *)
Definition mul (x y : loc) : M A loc := binary s_mul x y.
Definition div (x y : loc) : M A loc := binary s_div x y.
Definition sub (x y : loc) : M A loc := binary s_sub x y.
(** [x * c], [c * x], [x / c] with a Python number [c] *)
Definition mul_num (x : loc) (c : A) : M A loc := unary (λ a, s_mul a c) x.
Definition rmul_num (c : A) (x : loc) : M A loc := unary (λ a, s_mul c a) x.
Definition div_num (x : loc) (c : A) : M A loc := unary (λ a, s_div a c) x.
(** [torch.ones_like(x)] *)
Definition ones_like (x : loc) : M A loc := t ← load x; alloc (ones (shape t)).
(** [x.sum()], [torch.sum(x)]: a 0-dimensional tensor *)
Definition sum (x : loc) : M A loc := t ← load x; alloc (scalar_tensor (tsum t)).
(** [x.detach().numpy()]: the same storage seen as an array *)
Definition detach_numpy (x : loc) : M A loc := _ ← load x; mret x.

(** [x.shape[0]] *)
Definition shape0 (x : loc) : M A nat :=
  t ← load x;
  match shape t with
  | d :: _ => mret d
  | [] => raise IndexError
  end.

(** [x < c] *)
Definition lt_num (x : loc) (c : A) : M A mask :=
  t ← load x; mret (Mask (shape t) ((λ a, s_lt a c) <$> data t)).

(** [x[m] = c]: the shape of the mask has to be a prefix of the shape
    of [x]; each [True] of the mask selects the whole block of [x]
    below it, which is overwritten in place. *)
Definition masked_fill (m : mask) (c : A) (t : tensor A) : tensor A :=
  let block := numel (drop (length (mshape m)) (shape t)) in
  Tensor (shape t)
    (imap (λ i a, if nth (i / block) (mbits m) false then c else a) (data t)).

Definition setitem_mask (x : loc) (m : mask) (c : A) : M A unit :=
  t ← load x;
  if bool_decide (take (length (mshape m)) (shape t) = mshape m)
  then store x (masked_fill m c t)
  else raise IndexError.

(** [torch.tensor(c)] for a number [c] *)
Definition tensor (c : A) : M A loc := alloc (scalar_tensor c).
End ops.
End torch.

(** NumPy arrays are tensors of the same store. *)
Module np.
Section ops.
Context {A : Type} `{Scalar A}.

(** [np.clip(x, lo, hi)] *)
Definition clip (x : loc) (lo hi : A) : M A loc := torch.unary (s_clip lo hi) x.
(** [np.log(x)] *)
Definition log {LA : Log A} (x : loc) : M A loc := torch.unary s_log x.
(** A broadcasting operation on arrays: shapes that do not broadcast are
    a [ValueError] here. *)
Definition binary (f : A → A → A) (x y : loc) : M A loc :=
  tx ← load x; ty ← load y;
  match tzip f tx ty with
  | Some t => alloc t
  | None => raise ValueError
  end.
(** [-x] and [x * y] on arrays *)
Definition neg (x : loc) : M A loc := torch.unary s_neg x.
Definition mul (x y : loc) : M A loc := binary s_mul x y.
(** [np.sum(x)]: a number *)
Definition sum (x : loc) : M A A := t ← load x; mret (tsum t).
End ops.
End np.

(** ** The custom functions

    [forward] takes the context and returns it with what it saved;
    [backward] returns the tuple of gradients, [None] for an input that
    gets none. *)

Module MyReLU.
Section op.
Context {A : Type} `{Scalar A}.

Definition forward (ctx : context A) (inputs : loc) : M A (context A * loc) :=
  let ctx := save_for_backward ctx [inputs] in
  out ← torch.clamp_min inputs s_zero;
  mret (ctx, out).

Definition backward (ctx : context A) (grad_output : loc) : M A (list (option loc)) :=
  match saved_tensors ctx with
  | [inputs] =>
      grad_input ← torch.clone grad_output;
      m ← torch.lt_num inputs s_zero;
      torch.setitem_mask grad_input m s_zero;;
      mret [Some grad_input]
  | _ => raise ValueError
  end.
End op.
End MyReLU.

Module MatrixSum.
Section op.
Context {A : Type} `{Scalar A}.

Definition forward (ctx : context A) (inputs : loc) : M A (context A * loc) :=
  let ctx := save_for_backward ctx [inputs] in
  out ← torch.sum inputs;
  mret (ctx, out).

Definition backward (ctx : context A) (grad_outputs : loc) : M A (list (option loc)) :=
  match saved_tensors ctx with
  | [inputs] =>
      dsumdx ← torch.ones_like inputs;
      dinputs ← torch.mul grad_outputs dsumdx;
      mret [Some dinputs]
  | _ => raise ValueError
  end.
End op.
End MatrixSum.

Module MySub.
Section op.
Context {A : Type} `{Scalar A}.

(** [forward(inp, other, alpha = 1)]: an absent [alpha] is 1. *)
Definition forward (inp other : loc) (alpha : option A) : M A loc :=
  let alpha := default s_one alpha in
  scaled ← torch.rmul_num alpha other;
  torch.sub inp scaled.

(** [setup_context(ctx, inp, output)], [inp] being the tuple of the
    three inputs. *)
Definition setup_context (ctx : context A) (inp : loc * loc * A) (output : loc)
  : context A :=
  let '(inp, other, alpha) := inp in
  let ctx := save_for_backward ctx [inp; other] in
  set_constant ctx alpha.

Definition backward (ctx : context A) (grad_out : loc) : M A (list (option loc)) :=
  match saved_tensors ctx with
  | [inputs; other] =>
      alpha ← get_constant ctx;
      ones_inputs ← torch.ones_like inputs;
      dinputs ← torch.mul grad_out ones_inputs;
      scaled ← torch.mul_num grad_out (s_neg alpha);
      ones_other ← torch.ones_like other;
      dother ← torch.mul scaled ones_other;
      mret [Some dinputs; Some dother; None]
  | _ => raise ValueError
  end.

(** [MySub.apply], which the runtime supplies: for a function written
    in this style (a [forward] without context and a [setup_context]) it
    fills in the defaults of [forward], calls it, and hands the bound
    inputs and the output to [setup_context]. *)
Definition apply (inp other : loc) (alpha : option A) : M A (context A * loc) :=
  let alpha := default s_one alpha in
  output ← forward inp other (Some alpha);
  mret (setup_context empty_context (inp, other, alpha) output, output).
End op.
End MySub.

(** [nondiff_crossentropyloss(y_true, y_pred)] *)
Definition nondiff_crossentropyloss {A} `{Scalar A} {LA : Log A}
    (y_true y_pred : loc) : M A loc :=
  y_true_numpy ← torch.detach_numpy y_true;
  y_pred_numpy ← torch.detach_numpy y_pred;
  y_pred_numpy_clipped ← np.clip y_pred_numpy clip_lo clip_hi;
  neg_y_true ← np.neg y_true_numpy;
  logs ← np.log y_pred_numpy_clipped;
  prod ← np.mul neg_y_true logs;
  np_loss ← np.sum prod;
  t ← torch.tensor np_loss;
  N ← torch.shape0 y_true;
  torch.div_num t (s_of_nat N).

Module NonDiffCrossEntropy.
Section op.
Context {A : Type} `{Scalar A} {LA : Log A}.

Definition forward (ctx : context A) (y_true y_pred : loc) : M A (context A * loc) :=
  let ctx := save_for_backward ctx [y_true; y_pred] in
  loss ← nondiff_crossentropyloss y_true y_pred;
  mret (ctx, loss).

Definition backward (ctx : context A) (grad_output : loc) : M A (list (option loc)) :=
  match saved_tensors ctx with
  | [y_true; y_pred] =>
      N ← torch.shape0 y_true;
      neg_y_true ← torch.neg y_true;
      quot ← torch.div neg_y_true y_pred;
      dy_pred ← torch.div_num quot (s_of_nat N);
      g ← torch.mul dy_pred grad_output;
      mret [None; Some g]
  | _ => raise ValueError
  end.
End op.
End NonDiffCrossEntropy.

Module CustomLoss.
Section op.
Context {A : Type} `{Scalar A} {LA : Log A}.

Definition forward (ctx : context A) (y_pred y_true : loc) : M A (context A * loc) :=
  let ctx := save_for_backward ctx [y_pred; y_true] in
  y_pred_clipped ← torch.clamp y_pred clip_lo clip_hi;
  neg_y_true ← torch.neg y_true;
  logs ← torch.log y_pred_clipped;
  prod ← torch.mul neg_y_true logs;
  total ← torch.sum prod;
  N ← torch.shape0 y_true;
  loss ← torch.div_num total (s_of_nat N);
  mret (ctx, loss).

Definition backward (ctx : context A) (grad_output : loc) : M A (list (option loc)) :=
  match saved_tensors ctx with
  | [y_pred; y_true] =>
      N ← torch.shape0 y_true;
      neg_y_true ← torch.neg y_true;
      quot ← torch.div neg_y_true y_pred;
      dy_pred ← torch.div_num quot (s_of_nat N);
      g ← torch.mul grad_output dy_pred;
      mret [Some g; None]
  | _ => raise ValueError
  end.
End op.
End CustomLoss.

(** ** Derived notions used in the statements *)

(** The mask [inputs < 0] of [MyReLU.backward]. *)
Definition relu_mask {A} `{Scalar A} (tx : tensor A) : mask :=
  Mask (shape tx) ((λ a, s_lt a s_zero) <$> data tx).

(** The summands [-y_true * log(clip(y_pred))] of both cross-entropy
    forwards, and the loss made of them for a first dimension [N]. *)
Definition ce_terms {A} `{Scalar A} {LA : Log A} (y_true y_pred : tensor A)
  : option (tensor A) :=
  tzip s_mul (tmap s_neg y_true) (tmap s_log (tmap (s_clip clip_lo clip_hi) y_pred)).

Definition ce_loss {A} `{Scalar A} (N : nat) (terms : tensor A) : tensor A :=
  tmap (λ a, s_div a (s_of_nat N)) (scalar_tensor (tsum terms)).

(** A reference that points into the store. *)
Definition valid {A} (h : heap A) (x : loc) : Prop := is_Some (h !! x).

(** Purity, as a caller sees it.  A run from [h] to [h'] leaves the
    caller's tensors alone when every tensor of [h] is the same in [h']. *)
Definition unchanged {A} (h h' : heap A) : Prop :=
  ∀ x t, h !! x = Some t → h' !! x = Some t.

(** A reference that did not exist before the run. *)
Definition fresh {A} (h : heap A) (x : loc) : Prop := h !! x = None.

(** The tensors a tuple of gradients refers to. *)
Definition values {A} (h : heap A) (gs : list (option loc))
  : list (option (tensor A)) :=
  (λ o : option loc, o ≫= λ x, h !! x) <$> gs.

(** A [forward] of one or two tensors is pure when a returning call
    leaves the store of the caller unchanged, returns a new tensor, and,
    called again on the same arguments, saves the same context and
    returns an equal tensor. *)
Definition pure_forward1 {A} (fw : context A → loc → M A (context A * loc)) : Prop :=
  ∀ h ctx x ctx1 out h',
    valid h x → fw ctx x h = inr ((ctx1, out), h') →
    unchanged h h' ∧ fresh h out
    ∧ ∃ out2 h'', fw ctx x h' = inr ((ctx1, out2), h'')
        ∧ h'' !! out2 = h' !! out.

Definition pure_forward2 {A}
    (fw : context A → loc → loc → M A (context A * loc)) : Prop :=
  ∀ h ctx x y ctx1 out h',
    valid h x → valid h y → fw ctx x y h = inr ((ctx1, out), h') →
    unchanged h h' ∧ fresh h out
    ∧ ∃ out2 h'', fw ctx x y h' = inr ((ctx1, out2), h'')
        ∧ h'' !! out2 = h' !! out.

(** A [backward] is pure when a returning call leaves the store of the
    caller unchanged (the upstream gradient and the saved tensors among
    it), returns new tensors only, and, called again on the same
    arguments, returns equal tensors. *)
Definition pure_backward {A}
    (bw : context A → loc → M A (list (option loc))) : Prop :=
  ∀ h ctx g gs h',
    valid h g → Forall (valid h) (saved_tensors ctx) →
    bw ctx g h = inr (gs, h') →
    unchanged h h'
    ∧ Forall (λ o, ∀ x, o = Some x → fresh h x) gs
    ∧ ∃ gs2 h'', bw ctx g h' = inr (gs2, h'') ∧ values h'' gs2 = values h' gs.

(** The value of a function on tensors: [forward] run on a store that
    holds its arguments, and [backward] run after it on the upstream
    gradient [g]. *)
Definition forward_value1 {A}
    (fw : context A → loc → M A (context A * loc)) (x : tensor A)
  : option (tensor A) :=
  match fw empty_context 0 [x] with
  | inr ((_, out), h1) => h1 !! out
  | inl _ => None
  end.

Definition forward_value2 {A}
    (fw : context A → loc → loc → M A (context A * loc)) (x y : tensor A)
  : option (tensor A) :=
  match fw empty_context 0 1 [x; y] with
  | inr ((_, out), h1) => h1 !! out
  | inl _ => None
  end.

Definition gradients1 {A}
    (fw : context A → loc → M A (context A * loc))
    (bw : context A → loc → M A (list (option loc))) (x g : tensor A)
  : option (list (option (tensor A))) :=
  match fw empty_context 0 [x; g] with
  | inr ((ctx, _), h1) =>
      match bw ctx 1 h1 with
      | inr (gs, h2) => Some (values h2 gs)
      | inl _ => None
      end
  | inl _ => None
  end.

Definition gradients2 {A}
    (fw : context A → loc → loc → M A (context A * loc))
    (bw : context A → loc → M A (list (option loc))) (x y g : tensor A)
  : option (list (option (tensor A))) :=
  match fw empty_context 0 1 [x; y; g] with
  | inr ((ctx, _), h1) =>
      match bw ctx 2 h1 with
      | inr (gs, h2) => Some (values h2 gs)
      | inl _ => None
      end
  | inl _ => None
  end.

(** The elements of a result, none if there is no result. *)
Definition out_data {A} (o : option (tensor A)) : list A :=
  from_option data [] o.

(** *** First-order behaviour, over the reals *)

Definition Rsum (l : list R) : R := foldl Rplus 0%R l.
Definition dot (u v : list R) : R := Rsum (zip_with Rmult u v).
Definition vadd (x d : list R) : list R := zip_with Rplus x d.
Definition norm1 (d : list R) : R := Rsum (Rabs <$> d).

(** [l] is the derivative of [f] at [x]. *)
Definition has_deriv (f : R → R) (x l : R) : Prop :=
  ∀ ε, (0 < ε)%R → ∃ η, (0 < η)%R ∧
    ∀ h, (Rabs h < η)%R → (Rabs (f (x + h) - f x - l * h) <= ε * Rabs h)%R.

(** [g] is the gradient of [F] at [x]: to first order,
    [F (x + d) - F x] is [g] applied to [d]. *)
Definition is_gradient (F : list R → R) (x g : list R) : Prop :=
  length g = length x ∧
  ∀ ε, (0 < ε)%R → ∃ η, (0 < η)%R ∧
    ∀ d, length d = length x → Forall (λ v, Rabs v < η)%R d →
      (Rabs (F (vadd x d) - F x - dot g d) <= ε * norm1 d)%R.

(** What a gradient returned for an input is the gradient of: the
    output, as a function of the elements of that input, paired with the
    upstream gradient. *)
Definition objective (g : tensor R) (fw : list R → option (tensor R))
  : list R → R :=
  λ d, dot (data g) (out_data (fw d)).

(** ** Sample tensors

    Small inputs at which the statements below are instantiated. *)
Definition x34 : tensor R := Tensor [2] [3%R; 4%R].
Definition one_R : tensor R := scalar_tensor 1%R.
Definition g2 : tensor R := Tensor [2] [1; 2]%R.
Definition relu_x0 : tensor R := Tensor [1] [0%R].
Definition relu_g1 : tensor R := Tensor [1] [1%R].
Definition yt2 : tensor R := Tensor [2] [1; 0]%R.
Definition yp2 : tensor R := Tensor [2] [/ 2; / 4]%R.
Definition yp_out : tensor R := Tensor [2] [2; / 4]%R.
Definition a23 : tensor R := Tensor [2; 3] [1; -2; 3; -4; 5; -6]%R.
Definition b3 : tensor R := Tensor [3] [10; 20; 30]%R.
Definition g23 : tensor R := Tensor [2; 3] [1; 1; 1; 2; 2; 2]%R.

Definition xt2 : tensor xreal := Tensor [2] [Fin 1; Fin 0].
Definition xp2 : tensor xreal := Tensor [2] [Fin 0; Fin 1].
Definition xempty : tensor xreal := Tensor [0] [].
Definition xlabel : tensor xreal := scalar_tensor (Fin 1).
Definition xpred : tensor xreal := scalar_tensor (Fin (/ 2)).
Definition xone : tensor xreal := scalar_tensor (Fin 1).
Definition fyt2 : tensor float := Tensor [2] [1; 1]%float.
Definition fyp0 : tensor float := Tensor [2] [0.5; 0]%float.
Definition fone : tensor float := scalar_tensor 1%float.
(** A stand-in where a run on binary64 needs some logarithm and the
    statement does not depend on its values. *)
Definition no_log : Log float := λ x, x.
Definition fa23 : tensor float := Tensor [2; 3] [1; -2; 3; -4; 5; -6]%float.
Definition fb3 : tensor float := Tensor [3] [10; 20; 30]%float.
Definition fg23 : tensor float := Tensor [2; 3] [1; 1; 1; 2; 2; 2]%float.

(** ** What a caller sees of a call *)


Definition backward_outcome {A} (r : exn + list (option loc) * heap A)
  : exn + list (option (tensor A)) :=
  match r with
  | inl e => inl e
  | inr (gs, h') => inr (values h' gs)
  end.


(** The gradient for [y_pred], with the upstream gradient as the right
    factor or as the left one, or the exception. *)
Definition ce_backward_outcome {A} `{Scalar A} (right : bool) (tt tp tg : tensor A)
  : exn + tensor A :=
  match shape tt with
  | [] => inl IndexError
  | N :: _ =>
      match tzip s_div (tmap s_neg tt) tp with
      | None => inl RuntimeError
      | Some q =>
          let dy_pred := tmap (λ a, s_div a (s_of_nat N)) q in
          match (if right then tzip s_mul dy_pred tg else tzip s_mul tg dy_pred) with
          | None => inl RuntimeError
          | Some r => inr r
          end
      end
  end.

(** The central finite difference of [F] at [x] in coordinate [i] with
    step [eps]: what [gradcheck] compares a gradient with. *)
Definition central_difference (F : list R → R) (x : list R) (i : nat) (eps : R) : R :=
  ((F (alter (λ v, v + eps) i x) - F (alter (λ v, v - eps) i x)) / (2 * eps))%R.

(** ** The model of the checkpointing notebook, by shapes

    [CIFAR10_Model] is a stack of the runtime's layers.  Their weights
    are drawn at random and dropout draws a mask at every call, so what
    the notebook determines of [forward] is the shape of its result and
    whether a layer rejects its input.  A layer is here what it does to
    a shape. *)

#[export] Instance exn_ret : MRet (sum exn) := λ X x, inr x.
#[export] Instance exn_bind : MBind (sum exn) := λ X Y f m,
  match m with
  | inl e => inl e
  | inr x => f x
  end.

Definition layer : Type := list nat → exn + list nat.

Module nn.

(** The size a convolution of stride 1 leaves of a dimension, and the
    size a pooling window leaves when the stride is the window. *)
Definition conv_out (size kernel_size padding : nat) : option nat :=
  if kernel_size <=? size + 2 * padding
  then Some (size + 2 * padding - kernel_size + 1)
  else None.

Definition pool_out (size kernel_size : nat) : option nat :=
  if kernel_size <=? size
  then Some ((size - kernel_size) / kernel_size + 1)
  else None.

(** [nn.Conv2d(in_channels, out_channels, kernel_size, padding=padding)]
    on a batch [(N, C, H, W)] or on one image [(C, H, W)]. *)
Definition Conv2d (in_channels out_channels kernel_size padding : nat) : layer :=
  λ s,
  let conv C H W :=
    if C =? in_channels then
      match conv_out H kernel_size padding, conv_out W kernel_size padding with
      | Some H', Some W' => Some [out_channels; H'; W']
      | _, _ => None
      end
    else None in
  match s with
  | [C; H; W] => from_option inr (inl RuntimeError) (conv C H W)
  | [N; C; H; W] =>
      from_option (λ s', inr (N :: s')) (inl RuntimeError) (conv C H W)
  | _ => inl RuntimeError
  end.

(** [nn.MaxPool2d(kernel_size=kernel_size)] *)
Definition MaxPool2d (kernel_size : nat) : layer := λ s,
  let pool H W :=
    match pool_out H kernel_size, pool_out W kernel_size with
    | Some H', Some W' => Some [H'; W']
    | _, _ => None
    end in
  match s with
  | [C; H; W] => from_option (λ s', inr (C :: s')) (inl RuntimeError) (pool H W)
  | [N; C; H; W] =>
      from_option (λ s', inr (N :: C :: s')) (inl RuntimeError) (pool H W)
  | _ => inl RuntimeError
  end.

(** [nn.ReLU()], [F.relu] and [nn.Dropout(p)] keep the shape. *)
Definition ReLU : layer := inr.
Definition Dropout (p : float) : layer := inr.

(** [nn.Linear(in_features, out_features)]: the last dimension has to be
    [in_features]. *)
Definition Linear (in_features out_features : nat) : layer := λ s,
  match reverse s with
  | d :: r =>
      if d =? in_features then inr (reverse (out_features :: r))
      else inl RuntimeError
  | [] => inl RuntimeError
  end.

(** [nn.Sequential] of the layers, applied in order. *)
Fixpoint Sequential (layers : list layer) : layer := λ s,
  match layers with
  | [] => inr s
  | f :: layers => s' ← f s; Sequential layers s'
  end.
End nn.

(** [torch.flatten(input, start_dim)] for [start_dim ≥ 1]: the
    dimensions from [start_dim] on become one. *)
Definition flatten (start_dim : nat) : layer := λ s,
  if start_dim <? length s
  then inr (take start_dim s ++ [numel (drop start_dim s)])
  else inl IndexError.

(** [checkpoint(function, x, use_reentrant=True)] returns what
    [function(x)] returns. *)
Definition checkpoint (function : layer) : layer := function.

Module CIFAR10_Model.
Definition cnn_block_1 : layer := nn.Sequential [
  nn.Conv2d 3 32 3 0;
  nn.ReLU;
  nn.Conv2d 32 64 3 1;
  nn.ReLU;
  nn.MaxPool2d 2].
Definition dropout_1 : layer := nn.Dropout 0.25.
Definition cnn_block_2 : layer := nn.Sequential [
  nn.Conv2d 64 64 3 1;
  nn.ReLU;
  nn.Conv2d 64 64 3 1;
  nn.ReLU;
  nn.MaxPool2d 2].
Definition dropout_2 : layer := nn.Dropout 0.25.
Definition flatten : layer := flatten 1.
Definition linearize : layer := nn.Sequential [
  nn.Linear (64 * 7 * 7) 512;
  nn.ReLU].
Definition dropout_3 : layer := nn.Dropout 0.5.
Definition linear1 : layer := nn.Linear 512 84.
Definition out : layer := nn.Linear 84 10.

Definition forward (img : list nat) : exn + list nat :=
  x ← cnn_block_1 img;
  x ← dropout_1 x;
  x ← checkpoint cnn_block_2 x;
  x ← dropout_2 x;
  x ← flatten x;
  x ← linearize x;
  x ← dropout_3 x;
  x ← linear1 x;
  x ← nn.ReLU x;
  x ← out x;
  mret x.
End CIFAR10_Model.

(** ** The training loop of the checkpointing notebook

    [train] and [evaluate] drive objects they are given (the model, the
    loss, the metric, the optimizer) and the tracking client.  Those are
    parameters here: each call acts on a world [W] and may raise an
    exception of type [E].  What the functions themselves decide is
    which calls are made, in which order, and what is logged; a run
    records it in a trace. *)
Module training.
#[local] Open Scope string_scope.
Abbreviation string := String.string.

(** The exception the notebook's own arithmetic can raise, and whatever
    a collaborator raises. *)
Inductive py_exn (E : Type) : Type :=
  | ZeroDivisionError
  | Raised (e : E).
Arguments ZeroDivisionError {E}.
Arguments Raised {E} _.

(** A call that returned, in a trace.  [L] is the type of loss tensors,
    [B] that of the elements of metric tensors. *)
Inductive event (L B : Type) : Type :=
  | ModelTrain                       (* [model.train()] *)
  | ModelEval                        (* [model.eval()] *)
  | ToDevice                         (* [X.to(device)], [y.to(device)] *)
  | ModelCall                        (* [model(X)] *)
  | LossFn (loss : L)                (* [loss_fn(pred, y)] and its result *)
  | MetricsFn (accuracy : B)         (* [metrics_fn(pred, y)] and its result *)
  | Backward                         (* [loss.backward()] *)
  | OptimizerStep                    (* [optimizer.step()] *)
  | ZeroGrad                         (* [optimizer.zero_grad()] *)
  | NoGradEnter                      (* entering [with torch.no_grad()] *)
  | NoGradExit                       (* leaving it *)
  | LogMetric (key value : string) (step : nat)
  | PrintLine (line : string).
Arguments ModelTrain {L B}.
Arguments ModelEval {L B}.
Arguments ToDevice {L B}.
Arguments ModelCall {L B}.
Arguments LossFn {L B} _.
Arguments MetricsFn {L B} _.
Arguments Backward {L B}.
Arguments OptimizerStep {L B}.
Arguments ZeroGrad {L B}.
Arguments NoGradEnter {L B}.
Arguments NoGradExit {L B}.
Arguments LogMetric {L B} _ _ _.
Arguments PrintLine {L B} _.

(** [str(n)] and the newline of the f-strings. *)
Definition str (n : nat) : string :=
  DecimalString.NilZero.string_of_uint (Nat.to_uint n).
Definition newline : string :=
  String.String (Ascii.ascii_of_nat 10) String.EmptyString.

Section loop.
Context {W E Img Lbl P L A B : Type} {SA : Scalar A} {SB : Scalar B}.

(** A statement acts on the world and the trace, and may raise. *)
Definition T (X : Type) : Type :=
  W * list (event L B) → py_exn E + X * (W * list (event L B)).

#[export] Instance T_ret : MRet T := λ X x s, inr (x, s).
#[export] Instance T_bind : MBind T := λ X Y f m s,
  match m s with
  | inl e => inl e
  | inr (x, s') => f x s'
  end.

Definition throw {X} (e : py_exn E) : T X := λ _, inl e.

Definition emit (e : event L B) : T unit := λ s, inr ((), (s.1, s.2 ++ [e])).

(** A call of a collaborator: its exception is passed on, its return
    is recorded. *)
Definition call {X} (op : W → E + X * W) (e : X → event L B) : T X := λ s,
  match op s.1 with
  | inl err => inl (Raised err)
  | inr (x, w) => inr (x, (w, s.2 ++ [e x]))
  end.

(** The objects [train] and [evaluate] are given. *)
Record nn_module : Type := {
  module_call : Img → W → E + P * W;
  module_train : W → E + unit * W;
  module_eval : W → E + unit * W
}.

Record optimizer_obj : Type := {
  optimizer_step : W → E + unit * W;
  optimizer_zero_grad : W → E + unit * W
}.

(** What the notebook uses of the runtime and of the tracking client:
    [t.to(device)], [loss.backward()], [torch.no_grad()], [loss.item()],
    the number in a 0-dimensional metric tensor, [format(x, spec)] (the
    f-strings) and [mlflow.log_metric]. *)
Class Runtime : Type := {
  img_to_device : Img → W → E + Img * W;
  lbl_to_device : Lbl → W → E + Lbl * W;
  tensor_backward : L → W → E + unit * W;
  no_grad_enter : W → E + unit * W;
  no_grad_exit : W → E + unit * W;
  loss_item : L → A;
  tensor_item : B → A;
  format : A → string → string;
  mlflow_log_metric : string → string → nat → W → E + unit * W
}.
Context {RT : Runtime}.

(** A [for] statement over a list; [s] holds the variables the body
    assigns. *)
Fixpoint for_each {I S} (l : list I) (s : S) (body : I → S → T S) : T S :=
  match l with
  | [] => mret s
  | i :: l => s' ← body i s; for_each l s' body
  end.

(** [enumerate(l)] *)
Fixpoint enumerate_from {I} (start : nat) (l : list I) : list (nat * I) :=
  match l with
  | [] => []
  | x :: l => (start, x) :: enumerate_from (S start) l
  end.
Definition enumerate {I} (l : list I) : list (nat * I) := enumerate_from 0 l.

(** [mlflow.log_metric(key, value, step = step)] and [print(line)] *)
Definition log_metric (key value : string) (step : nat) : T unit :=
  call (mlflow_log_metric key value step) (λ _, LogMetric key value step).
Definition print (line : string) : T unit := emit (PrintLine line).

(** [train(dataloader, model, loss_fn, metrics_fn, optimizer, epoch)] *)
Definition train (dataloader : list (Img * Lbl)) (model : nn_module)
    (loss_fn : P → Lbl → W → E + L * W) (metrics_fn : P → Lbl → W → E + B * W)
    (optimizer : optimizer_obj) (epoch : nat) : T unit :=
  call (module_train model) (λ _, ModelTrain);;
  for_each (enumerate dataloader) () (λ '(batch, (X, y)) _,
    X ← call (img_to_device X) (λ _, ToDevice);
    y ← call (lbl_to_device y) (λ _, ToDevice);
    pred ← call (module_call model X) (λ _, ModelCall);
    loss ← call (loss_fn pred y) LossFn;
    accuracy ← call (metrics_fn pred y) MetricsFn;
    call (tensor_backward loss) (λ _, Backward);;
    call (optimizer_step optimizer) (λ _, OptimizerStep);;
    call (optimizer_zero_grad optimizer) (λ _, ZeroGrad);;
    if batch mod 100 =? 0 then
      let loss := loss_item loss in
      let current := batch in
      let step := batch / 100 * (epoch + 1) in
      log_metric "Loss" (format loss "2f") step;;
      log_metric "Accuracy" (format (tensor_item accuracy) " 2f") step;;
      print (String.concat ""
               ["loss: "; format loss "2f"; " accuracy: ";
                format (tensor_item accuracy) "2f";
                " ["; str current; " / "; str (length dataloader); "]"])
    else mret ()).

(** [eval_accuracy += accuracy]: the first addition is to the integer
    0 the variable starts as, the later ones to the tensor it has
    become. *)
Definition add_accuracy (eval_accuracy : option B) (accuracy : B) : option B :=
  match eval_accuracy with
  | None => Some (s_add accuracy s_zero)
  | Some acc => Some (s_add acc accuracy)
  end.

(** [evaluate(dataloader, model, loss_fn, metrics_fn, epoch)] *)
Definition evaluate (dataloader : list (Img * Lbl)) (model : nn_module)
    (loss_fn : P → Lbl → W → E + L * W) (metrics_fn : P → Lbl → W → E + B * W)
    (epoch : nat) : T unit :=
  call (module_eval model) (λ _, ModelEval);;
  let num_batches := length dataloader in
  call no_grad_enter (λ _, NoGradEnter);;
  '(eval_loss, eval_accuracy) ←
    for_each dataloader (s_zero, None) (λ '(X, y) '(eval_loss, eval_accuracy),
      X ← call (img_to_device X) (λ _, ToDevice);
      y ← call (lbl_to_device y) (λ _, ToDevice);
      pred ← call (module_call model X) (λ _, ModelCall);
      loss ← call (loss_fn pred y) LossFn;
      let eval_loss := s_add eval_loss (loss_item loss) in
      accuracy ← call (metrics_fn pred y) MetricsFn;
      let eval_accuracy := add_accuracy eval_accuracy accuracy in
      mret (eval_loss, eval_accuracy));
  call no_grad_exit (λ _, NoGradExit);;
  if num_batches =? 0 then throw ZeroDivisionError else
  let eval_loss := s_div eval_loss (s_of_nat num_batches) in
  let eval_accuracy :=
    match eval_accuracy with
    | Some acc => tensor_item (s_div acc (s_of_nat num_batches))
    | None => s_div s_zero (s_of_nat num_batches)
    end in
  log_metric "eval_loss" (format eval_loss "2f") epoch;;
  log_metric "eval_accuracy" (format eval_accuracy " 2f") epoch;;
  print (String.concat ""
           ["Eval metrics: "; newline; "Accuracy: "; format eval_accuracy ".2f";
            ", Avg loss: "; format eval_loss "2f"; " "; newline]).

(** The loop of the last cell, [for t in range(epochs)]. *)
Definition epochs_loop (epochs : nat)
    (train_dataloader test_dataloader : list (Img * Lbl))
    (model : nn_module) (loss_fn : P → Lbl → W → E + L * W)
    (metric_fn : P → Lbl → W → E + B * W) (optim : optimizer_obj) : T unit :=
  for_each (seq 0 epochs) () (λ t _,
    print (String.concat ""
             ["Epoch "; str (t + 1); newline; "----------------------------"]);;
    train train_dataloader model loss_fn metric_fn optim t;;
    evaluate test_dataloader model loss_fn metric_fn 0).

(** *** Traces

    The events of one batch of [train], given what [loss_fn] and
    [metrics_fn] returned, and those of its whole loop. *)
Definition batch_events (n epoch batch : nat) (l : L) (a : B) : list (event L B) :=
  [ToDevice; ToDevice; ModelCall; LossFn l; MetricsFn a;
   Backward; OptimizerStep; ZeroGrad]
  ++ if batch mod 100 =? 0 then
       [LogMetric "Loss" (format (loss_item l) "2f") (batch / 100 * (epoch + 1));
        LogMetric "Accuracy" (format (tensor_item a) " 2f")
          (batch / 100 * (epoch + 1));
        PrintLine (String.concat ""
                 ["loss: "; format (loss_item l) "2f"; " accuracy: ";
                  format (tensor_item a) "2f";
                  " ["; str batch; " / "; str n; "]"])]
     else [].

Fixpoint train_events (n epoch batch : nat) (results : list (L * B))
  : list (event L B) :=
  match results with
  | [] => []
  | (l, a) :: results =>
      batch_events n epoch batch l a ++ train_events n epoch (S batch) results
  end.

(** The events of the loop of [evaluate], and the two means it logs. *)
Definition eval_events (results : list (L * B)) : list (event L B) :=
  results ≫= λ '(l, a), [ToDevice; ToDevice; ModelCall; LossFn l; MetricsFn a].

Definition mean_loss (ls : list L) (n : nat) : A :=
  s_div (foldl s_add s_zero (loss_item <$> ls)) (s_of_nat n).

Definition mean_accuracy (accs : list B) (n : nat) : A :=
  match foldl add_accuracy None accs with
  | Some acc => tensor_item (s_div acc (s_of_nat n))
  | None => s_div s_zero (s_of_nat n)
  end.

(** A statement that never raises [ZeroDivisionError]. *)
Definition no_zero_division {X} (m : T X) : Prop :=
  ∀ s, m s ≠ inl ZeroDivisionError.
End loop.
Arguments nn_module : clear implicits.
Arguments optimizer_obj : clear implicits.
Arguments Runtime : clear implicits.
Arguments T : clear implicits.

(** What a trace logged under a key: the steps, and the values. *)
Definition metric_steps {L B} (key : string) (tr : list (event L B)) : list nat :=
  omap (λ e, match e with
             | LogMetric k _ step => if String.eqb k key then Some step else None
             | _ => None
             end) tr.

Definition metric_values {L B} (key : string) (tr : list (event L B)) : list string :=
  omap (λ e, match e with
             | LogMetric k v _ => if String.eqb k key then Some v else None
             | _ => None
             end) tr.

(** The losses [loss_fn] returned, and the calls of a trace that act on
    the parameters or their gradients. *)
Definition losses {L B} (tr : list (event L B)) : list L :=
  omap (λ e, match e with LossFn l => Some l | _ => None end) tr.

Definition is_update {L B} (e : event L B) : bool :=
  match e with
  | Backward | OptimizerStep | ZeroGrad => true
  | _ => false
  end.

Definition updates {L B} (tr : list (event L B)) : list (event L B) :=
  filter (λ e, is_update e) tr.

(** *** A small world

    Collaborators that return at once, on which the loop can be run:
    inputs, labels, predictions and losses are numbers, the loss of a
    batch is the sum of its prediction and its label. *)
Definition sample_model : nn_module unit unit nat nat := {|
  module_call := λ X w, inr (X, w);
  module_train := λ w, inr ((), w);
  module_eval := λ w, inr ((), w)
|}.

Definition sample_optimizer : optimizer_obj unit unit := {|
  optimizer_step := λ w, inr ((), w);
  optimizer_zero_grad := λ w, inr ((), w)
|}.

Definition sample_runtime : Runtime unit unit nat nat nat float float := {|
  img_to_device := λ X w, inr (X, w);
  lbl_to_device := λ y w, inr (y, w);
  tensor_backward := λ _ w, inr ((), w);
  no_grad_enter := λ w, inr ((), w);
  no_grad_exit := λ w, inr ((), w);
  loss_item := float_of_nat;
  tensor_item := λ b, b;
  format := λ _ spec, spec;
  mlflow_log_metric := λ _ _ _ w, inr ((), w)
|}.

Definition sample_loss_fn (pred y : nat) (w : unit) : unit + nat * unit :=
  inr (pred + y, w).
Definition sample_metrics_fn (pred y : nat) (w : unit) : unit + float * unit :=
  inr (if pred =? y then 1%float else 0%float, w).
Definition sample_dataloader : list (nat * nat) := [(1, 1); (2, 3)].
End training.

(* ================================================================== *)
(** * Properties *)

#[local] Arguments numel : simpl never.

(** ** Shapes and broadcasting *)

Lemma numel_cons d s : numel (d :: s) = d * numel s.
Proof. reflexivity. Qed.

Lemma numel_app s1 s2 : numel (s1 ++ s2) = numel s1 * numel s2.
Proof.
  induction s1 as [|d s1 IH]; [unfold numel; simpl; lia|].
  change ((d :: s1) ++ s2) with (d :: (s1 ++ s2)). rewrite !numel_cons, IH. lia.
Qed.

Lemma numel_reverse s : numel (reverse s) = numel s.
Proof.
  induction s as [|d s IH]; [done|].
  rewrite reverse_cons, numel_app, IH, !numel_cons. unfold numel; simpl. lia.
Qed.

Lemma bidx_same r i : i < numel r → bidx r r i = i.
Proof.
  revert i. induction r as [|d r IH]; intros i Hi; simpl in *.
  - change (numel []) with 1 in Hi. lia.
  - rewrite numel_cons in Hi.
    assert (d ≠ 0) by lia.
    assert (i / d < numel r) by (apply Nat.Div0.div_lt_upper_bound; lia).
    rewrite IH by done.
    destruct (Nat.eqb_spec d 1) as [->|Hd].
    + rewrite Nat.div_1_r. lia.
    + pose proof (Nat.div_mod_eq i d). lia.
Qed.

Lemma bdim_same d : bdim d d = Some d.
Proof. unfold bdim. by rewrite Nat.eqb_refl. Qed.

Lemma bshape_rev_same r : bshape_rev r r = Some r.
Proof. induction r as [|d r IH]; [done|]. simpl. by rewrite bdim_same, IH. Qed.

Lemma broadcast_shapes_same s : broadcast_shapes s s = Some s.
Proof. unfold broadcast_shapes. rewrite bshape_rev_same. simpl. by rewrite reverse_involutive. Qed.

Lemma bshape_rev_nil_r r : bshape_rev r [] = Some r.
Proof. by destruct r. Qed.

Lemma broadcast_shapes_nil_r s : broadcast_shapes s [] = Some s.
Proof. unfold broadcast_shapes. rewrite reverse_nil, bshape_rev_nil_r. simpl. by rewrite reverse_involutive. Qed.

Lemma broadcast_shapes_nil_l s : broadcast_shapes [] s = Some s.
Proof. unfold broadcast_shapes. rewrite reverse_nil. simpl. by rewrite reverse_involutive. Qed.

Lemma bdim_Some d1 d2 d : bdim d1 d2 = Some d → (d1 = d ∨ d1 = 1) ∧ (d2 = d ∨ d2 = 1).
Proof.
  unfold bdim. repeat case_match; intros [= <-];
    repeat match goal with H : (_ =? _) = true |- _ => apply Nat.eqb_eq in H end; subst; auto.
Qed.

Lemma bdim_expands d1 d : d1 = d ∨ d1 = 1 → bdim d1 d = Some d.
Proof.
  unfold bdim. intros [->| ->]; [by rewrite Nat.eqb_refl|].
  destruct (Nat.eqb_spec 1 d) as [<-|?]; done.
Qed.

Lemma bshape_rev_expands r1 r2 r :
  bshape_rev r1 r2 = Some r → bshape_rev r1 r = Some r ∧ bshape_rev r2 r = Some r.
Proof.
  revert r2 r. induction r1 as [|d1 r1 IH]; intros [|d2 r2] r Hb; simpl in Hb.
  - by simplify_eq.
  - simplify_eq. split; [done|]. apply bshape_rev_same.
  - simplify_eq. split; [|done]. apply bshape_rev_same.
  - destruct (bdim d1 d2) as [d|] eqn:Hd; simpl in Hb; [|done].
    destruct (bshape_rev r1 r2) as [r'|] eqn:Hr; simpl in Hb; [|done].
    simplify_eq. apply IH in Hr as [Hr1 Hr2]. simpl.
    apply bdim_Some in Hd as [H1 H2].
    by rewrite !bdim_expands, Hr1, Hr2.
Qed.

Lemma bdim_sym d1 d2 : bdim d1 d2 = bdim d2 d1.
Proof.
  unfold bdim.
  destruct (Nat.eqb_spec d1 d2), (Nat.eqb_spec d2 d1),
    (Nat.eqb_spec d1 1), (Nat.eqb_spec d2 1); congruence.
Qed.

Lemma bshape_rev_sym r1 r2 : bshape_rev r1 r2 = bshape_rev r2 r1.
Proof.
  revert r2. induction r1 as [|d1 r1 IH]; intros [|d2 r2]; simpl; try done.
  by rewrite bdim_sym, IH.
Qed.

Lemma bidx_lt rs rt i :
  bshape_rev rs rt = Some rt → i < numel rt → bidx rs rt i < numel rs.
Proof.
  revert rt i. induction rs as [|ds rs IH]; intros [|dt rt] i; simpl.
  - change (numel []) with 1. lia.
  - change (numel []) with 1. lia.
  - done.
  - destruct (bdim ds dt) as [d|] eqn:Hd; simpl; [|done].
    destruct (bshape_rev rs rt) as [r'|] eqn:Hr; simpl; [|done].
    intros [= -> ->]. rewrite !numel_cons. intros Hi.
    assert (dt ≠ 0) by lia.
    assert (i / dt < numel rt) by (apply Nat.Div0.div_lt_upper_bound; lia).
    specialize (IH rt (i / dt) Hr ltac:(done)).
    apply bdim_Some in Hd as [[->| ->] _].
    + pose proof (Nat.mod_upper_bound i dt ltac:(done)).
      destruct (dt =? 1); nia.
    + simpl. lia.
Qed.

Lemma broadcast_shapes_expands s1 s2 s :
  broadcast_shapes s1 s2 = Some s →
  broadcast_shapes s1 s = Some s ∧ broadcast_shapes s2 s = Some s
  ∧ broadcast_shapes s s1 = Some s ∧ broadcast_shapes s s2 = Some s.
Proof.
  unfold broadcast_shapes. intros Hb.
  destruct (bshape_rev (reverse s1) (reverse s2)) as [r|] eqn:Hr; [|done].
  simpl in Hb. simplify_eq. rewrite reverse_involutive.
  pose proof (bshape_rev_expands _ _ _ Hr) as [H1 H2].
  pose proof (bshape_rev_sym (reverse s1) r) as S1.
  pose proof (bshape_rev_sym (reverse s2) r) as S2.
  by rewrite <- S1, <- S2, H1, H2.
Qed.

(** ** Elementwise operations *)

Section tensor_facts.
Context {A : Type} `{Scalar A}.

Lemma length_expand (t : tensor A) s : length (expand t s) = numel s.
Proof. unfold expand. by rewrite length_fmap, length_seq. Qed.

Lemma nth_seq_id (l : list A) d : (λ i, nth i l d) <$> seq 0 (length l) = l.
Proof.
  apply list_eq. intros i. rewrite list_lookup_fmap.
  destruct (decide (i < length l)) as [Hi|Hi].
  - rewrite lookup_seq_lt by done. simpl.
    destruct (lookup_lt_is_Some_2 l i Hi) as [x Hx].
    by rewrite (nth_lookup_Some _ _ _ _ Hx), Hx.
  - rewrite lookup_seq_ge by lia. simpl. symmetry. apply lookup_ge_None. lia.
Qed.

(** Expanding a tensor to its own shape is the identity. *)
Lemma expand_same (t : tensor A) : wf t → expand t (shape t) = data t.
Proof.
  unfold wf, expand. intros Hwf.
  etrans; [|apply (nth_seq_id (data t) s_zero)]. rewrite Hwf.
  apply list_fmap_ext. intros k i Hk.
  apply lookup_seq in Hk as [-> Hi]. simpl.
  rewrite bidx_same; [done|]. by rewrite numel_reverse.
Qed.

(** Expanding a 0-dimensional tensor repeats its element. *)
Lemma expand_scalar (a : A) s : expand (scalar_tensor a) s = replicate (numel s) a.
Proof.
  unfold expand. simpl. generalize (numel s) as n. generalize 0 as k.
  intros k n. revert k. induction n as [|n IH]; intros k; [done|].
  simpl. f_equal. apply IH.
Qed.

(** Expanding an all-ones tensor gives an all-ones tensor. *)
Lemma expand_ones s1 s :
  broadcast_shapes s1 s = Some s → expand (ones s1) s = replicate (numel s) s_one.
Proof.
  unfold broadcast_shapes. intros Hb.
  destruct (bshape_rev (reverse s1) (reverse s)) as [r|] eqn:Hr; [|done].
  simpl in Hb. simplify_eq. rewrite reverse_involutive in Hr.
  unfold expand. simpl.
  rewrite reverse_involutive.
  replace (replicate (numel (reverse r)) s_one)
    with ((λ _ : nat, s_one) <$> seq 0 (numel (reverse r))).
  2:{ generalize (numel (reverse r)) as n. generalize 0 as k.
      intros k n. revert k. induction n as [|n IH]; intros k; [done|].
      simpl. f_equal. apply IH. }
  apply list_fmap_ext. intros k i Hk.
  apply lookup_seq in Hk as [-> Hi]. simpl.
  apply nth_lookup_Some with (d := s_zero).
  apply lookup_replicate. split; [done|].
  rewrite <- (numel_reverse s1). apply bidx_lt; [done|].
  by rewrite numel_reverse in Hi.
Qed.

Lemma zip_with_replicate_r (f : A → A → A) (l : list A) n c :
  length l = n → zip_with f l (replicate n c) = (λ a, f a c) <$> l.
Proof. intros <-. induction l as [|a l IH]; [done|]. simpl. by rewrite IH. Qed.

Lemma zip_with_replicate_l (f : A → A → A) (l : list A) n c :
  length l = n → zip_with f (replicate n c) l = f c <$> l.
Proof. intros <-. induction l as [|a l IH]; [done|]. simpl. by rewrite IH. Qed.

(** Two tensors of one shape are combined position by position. *)
Lemma tzip_same (f : A → A → A) (x y : tensor A) :
  wf x → wf y → shape x = shape y →
  tzip f x y = Some (Tensor (shape x) (zip_with f (data x) (data y))).
Proof.
  intros Hx Hy Hs. unfold tzip. rewrite <- Hs, broadcast_shapes_same. simpl.
  rewrite (expand_same x Hx). rewrite Hs, (expand_same y Hy). done.
Qed.

(** A 0-dimensional tensor acts as a number. *)
Lemma tzip_scalar_r (f : A → A → A) (x : tensor A) c :
  wf x → tzip f x (scalar_tensor c) = Some (tmap (λ a, f a c) x).
Proof.
  intros Hx. unfold tzip. cbn [shape scalar_tensor].
  rewrite broadcast_shapes_nil_r. cbn [mbind option_bind].
  rewrite (expand_same x Hx), expand_scalar.
  by rewrite zip_with_replicate_r.
Qed.

Lemma tzip_scalar_l (f : A → A → A) (x : tensor A) c :
  wf x → tzip f (scalar_tensor c) x = Some (tmap (f c) x).
Proof.
  intros Hx. unfold tzip. cbn [shape scalar_tensor].
  rewrite broadcast_shapes_nil_l. cbn [mbind option_bind].
  rewrite (expand_same x Hx), expand_scalar.
  by rewrite zip_with_replicate_l.
Qed.

(** Multiplying by [ones_like] of a tensor that expands to the shape
    of [g] touches neither the shape nor the positions of [g]. *)
Lemma tzip_ones_r (f : A → A → A) (g : tensor A) s1 :
  wf g → broadcast_shapes (shape g) s1 = Some (shape g) →
  tzip f g (ones s1) = Some (tmap (λ a, f a s_one) g).
Proof.
  intros Hg Hb. unfold tzip. simpl. rewrite Hb. simpl.
  rewrite (expand_same g Hg), expand_ones.
  - by rewrite zip_with_replicate_r.
  - by apply broadcast_shapes_expands in Hb as (_ & ? & _).
Qed.
End tensor_facts.

(** ** Running the runtime's operations

    Every lemma describes a run from a store [h ++ l]: [h] is the store
    of the caller and [l] what the function at hand has created so far.
    The new tensor is appended to [l]; nothing of [h] is touched. *)

Section run_facts.
Context {A : Type} `{Scalar A}.
Implicit Types (h l : heap A) (t : tensor A) (x y : loc).

Lemma bind_run {X Y} (m : M A X) (f : X → M A Y) h a h' R :
  m h = inr (a, h') → f a h' = R → (m ≫= f) h = R.
Proof. intros Hm <-. unfold mbind, M_bind. by rewrite Hm. Qed.

Lemma run_start {X} (m : M A X) h R : m (h ++ []) = R → m h = R.
Proof. by rewrite app_nil_r. Qed.

Lemma lookup_new h l k : (h ++ l) !! (length h + k) = l !! k.
Proof. rewrite lookup_app_r by lia. f_equal. lia. Qed.

Lemma lookup_new0 h l : (h ++ l) !! length h = l !! 0.
Proof. rewrite lookup_app_r by lia. f_equal. lia. Qed.

Lemma lookup_old h l x t : h !! x = Some t → (h ++ l) !! x = Some t.
Proof. apply lookup_app_l_Some. Qed.

Lemma alloc_run h l t :
  alloc t (h ++ l) = inr (length h + length l, h ++ (l ++ [t])).
Proof. unfold alloc. by rewrite length_app, app_assoc. Qed.

Lemma load_run h x t : h !! x = Some t → load x h = inr (t, h).
Proof. unfold load. by intros ->. Qed.

Lemma unary_run (f : A → A) h l x t :
  (h ++ l) !! x = Some t →
  torch.unary f x (h ++ l) = inr (length h + length l, h ++ (l ++ [tmap f t])).
Proof.
  intros Hx. unfold torch.unary.
  eapply bind_run; [by apply load_run|]. apply alloc_run.
Qed.

Lemma binary_run (f : A → A → A) h l x y tx ty t :
  (h ++ l) !! x = Some tx → (h ++ l) !! y = Some ty → tzip f tx ty = Some t →
  torch.binary f x y (h ++ l) = inr (length h + length l, h ++ (l ++ [t])).
Proof.
  intros Hx Hy Hz. unfold torch.binary.
  eapply bind_run; [by apply load_run|].
  eapply bind_run; [by apply load_run|].
  rewrite Hz. apply alloc_run.
Qed.

Lemma np_binary_run (f : A → A → A) h l x y tx ty t :
  (h ++ l) !! x = Some tx → (h ++ l) !! y = Some ty → tzip f tx ty = Some t →
  np.binary f x y (h ++ l) = inr (length h + length l, h ++ (l ++ [t])).
Proof.
  intros Hx Hy Hz. unfold np.binary.
  eapply bind_run; [by apply load_run|].
  eapply bind_run; [by apply load_run|].
  rewrite Hz. apply alloc_run.
Qed.

Lemma ones_like_run h l x t :
  (h ++ l) !! x = Some t →
  torch.ones_like x (h ++ l) = inr (length h + length l, h ++ (l ++ [ones (shape t)])).
Proof.
  intros Hx. unfold torch.ones_like.
  eapply bind_run; [by apply load_run|]. apply alloc_run.
Qed.

Lemma sum_run h l x t :
  (h ++ l) !! x = Some t →
  torch.sum x (h ++ l)
  = inr (length h + length l, h ++ (l ++ [scalar_tensor (tsum t)])).
Proof.
  intros Hx. unfold torch.sum.
  eapply bind_run; [by apply load_run|]. apply alloc_run.
Qed.

Lemma np_sum_run h x t : h !! x = Some t → np.sum x h = inr (tsum t, h).
Proof. intros Hx. unfold np.sum. eapply bind_run; [by apply load_run|]. done. Qed.

Lemma tensor_run h l (c : A) :
  torch.tensor c (h ++ l) = inr (length h + length l, h ++ (l ++ [scalar_tensor c])).
Proof. apply alloc_run. Qed.

Lemma detach_numpy_run h x t : h !! x = Some t → torch.detach_numpy x h = inr (x, h).
Proof.
  intros Hx. unfold torch.detach_numpy. eapply bind_run; [by apply load_run|]. done.
Qed.

Lemma shape0_run h x t d s :
  h !! x = Some t → shape t = d :: s → torch.shape0 x h = inr (d, h).
Proof.
  intros Hx Hs. unfold torch.shape0.
  eapply bind_run; [by apply load_run|]. by rewrite Hs.
Qed.

Lemma lt_num_run h x t (c : A) :
  h !! x = Some t →
  torch.lt_num x c h = inr (Mask (shape t) ((λ a, s_lt a c) <$> data t), h).
Proof.
  intros Hx. unfold torch.lt_num. eapply bind_run; [by apply load_run|]. done.
Qed.

(** The one write: it replaces a tensor this function created. *)
Lemma setitem_mask_run h l k t m (c : A) :
  l !! k = Some t →
  take (length (mshape m)) (shape t) = mshape m →
  torch.setitem_mask (length h + k) m c (h ++ l)
  = inr ((), h ++ <[k := torch.masked_fill m c t]> l).
Proof.
  intros Hk Hm. unfold torch.setitem_mask.
  eapply bind_run; [apply load_run; by rewrite lookup_new|].
  rewrite bool_decide_eq_true_2 by done.
  unfold store. apply lookup_lt_Some in Hk.
  rewrite decide_True by (rewrite length_app; lia).
  rewrite insert_app_r_alt by lia. do 3 f_equal. f_equal. lia.
Qed.
End run_facts.

(** Looking a reference up in [h ++ l]: a new one by position in [l], an
    old one by what is known of [h]. *)
Ltac lk :=
  first [ rewrite lookup_new; reflexivity
        | apply lookup_old; eassumption
        | eassumption ].

(** One statement of a function body, and its last one. *)
Ltac run_with lem := eapply bind_run; [ eapply lem; try lk | cbn [length app Nat.add] ].
Ltac run_last lem := etrans; [ eapply lem; try lk | reflexivity ].

(** ** Running the custom functions

    One equation per function: the result and the store it leaves, for
    every store the arguments live in. *)

Create HintDb prims.
#[local] Hint Unfold torch.clamp_min torch.clamp torch.log torch.neg torch.clone
  torch.mul torch.div torch.sub torch.mul_num torch.rmul_num torch.div_num
  np.clip np.log np.neg np.mul : prims.

Section function_runs.
Context {A : Type} `{Scalar A}.
Implicit Types (h : heap A) (t : tensor A) (ctx : context A).

Lemma tmap_id t : tmap (λ a, a) t = t.
Proof. destruct t as [s d]. unfold tmap. simpl. by rewrite list_fmap_id. Qed.

Lemma MyReLU_forward_run h ctx x t :
  h !! x = Some t →
  MyReLU.forward ctx x h
  = inr ((save_for_backward ctx [x], length h),
         h ++ [tmap (λ a, s_max a s_zero) t]).
Proof.
  intros Hx. apply run_start. unfold MyReLU.forward. autounfold with prims.
  run_with @unary_run.
  unfold mret, M_ret. by rewrite Nat.add_0_r.
Qed.

Lemma MyReLU_backward_run h ctx x g tx tg :
  saved_tensors ctx = [x] →
  h !! x = Some tx → h !! g = Some tg →
  take (length (shape tx)) (shape tg) = shape tx →
  MyReLU.backward ctx g h
  = inr ([Some (length h)], h ++ [torch.masked_fill (relu_mask tx) s_zero tg]).
Proof.
  intros Hctx Hx Hg Hpre. apply run_start.
  unfold MyReLU.backward. rewrite Hctx. autounfold with prims.
  run_with @unary_run.
  run_with @lt_num_run.
  eapply bind_run;
    [eapply setitem_mask_run; [reflexivity|by rewrite tmap_id]|cbn [list_insert]].
  unfold mret, M_ret. by rewrite Nat.add_0_r, tmap_id.
Qed.
Lemma MatrixSum_forward_run h ctx x t :
  h !! x = Some t →
  MatrixSum.forward ctx x h
  = inr ((save_for_backward ctx [x], length h), h ++ [scalar_tensor (tsum t)]).
Proof.
  intros Hx. apply run_start. unfold MatrixSum.forward.
  run_with @sum_run.
  unfold mret, M_ret. by rewrite Nat.add_0_r.
Qed.

Lemma MatrixSum_backward_run h ctx x g tx tg r :
  saved_tensors ctx = [x] →
  h !! x = Some tx → h !! g = Some tg →
  tzip s_mul tg (ones (shape tx)) = Some r →
  MatrixSum.backward ctx g h
  = inr ([Some (length h + 1)], h ++ [ones (shape tx); r]).
Proof.
  intros Hctx Hx Hg Hr. apply run_start.
  unfold MatrixSum.backward. rewrite Hctx. autounfold with prims.
  run_with @ones_like_run.
  run_with @binary_run.
  done.
Qed.

Lemma MySub_forward_run h a b alpha ta tb r :
  h !! a = Some ta → h !! b = Some tb →
  tzip s_sub ta (tmap (s_mul (default s_one alpha)) tb) = Some r →
  MySub.forward a b alpha h
  = inr (length h + 1, h ++ [tmap (s_mul (default s_one alpha)) tb; r]).
Proof.
  intros Ha Hb Hr. apply run_start. unfold MySub.forward. autounfold with prims.
  run_with @unary_run.
  run_last @binary_run.
Qed.

Lemma MySub_apply_run h a b alpha ta tb r :
  h !! a = Some ta → h !! b = Some tb →
  tzip s_sub ta (tmap (s_mul (default s_one alpha)) tb) = Some r →
  MySub.apply a b alpha h
  = inr ((Ctx [a; b] (Some (default s_one alpha)), length h + 1),
         h ++ [tmap (s_mul (default s_one alpha)) tb; r]).
Proof.
  intros Ha Hb Hr. unfold MySub.apply.
  eapply bind_run; [by eapply (MySub_forward_run _ _ _ (Some _))|]. done.
Qed.

Lemma MySub_backward_run h ctx a b alpha g ta tb tg ra rb :
  saved_tensors ctx = [a; b] → constant ctx = Some alpha →
  h !! a = Some ta → h !! b = Some tb → h !! g = Some tg →
  tzip s_mul tg (ones (shape ta)) = Some ra →
  tzip s_mul (tmap (λ x, s_mul x (s_neg alpha)) tg) (ones (shape tb)) = Some rb →
  MySub.backward ctx g h
  = inr ([Some (length h + 1); Some (length h + 4); None],
         h ++ [ones (shape ta); ra; tmap (λ x, s_mul x (s_neg alpha)) tg;
               ones (shape tb); rb]).
Proof.
  intros Hctx Hc Ha Hb Hg Hra Hrb. apply run_start.
  unfold MySub.backward, get_constant. rewrite Hctx, Hc. autounfold with prims.
  eapply bind_run; [reflexivity|].
  run_with @ones_like_run.
  run_with @binary_run.
  run_with @unary_run.
  run_with @ones_like_run.
  run_with @binary_run.
  done.
Qed.

Section with_log.
Context {LA : Log A}.

Lemma nondiff_crossentropyloss_run h yt yp tt tp N s prod :
  h !! yt = Some tt → h !! yp = Some tp → shape tt = N :: s →
  ce_terms tt tp = Some prod →
  nondiff_crossentropyloss yt yp h
  = inr (length h + 5,
         h ++ [tmap (s_clip clip_lo clip_hi) tp; tmap s_neg tt;
               tmap s_log (tmap (s_clip clip_lo clip_hi) tp); prod;
               scalar_tensor (tsum prod); ce_loss N prod]).
Proof.
  intros Ht Hp Hs Hprod. apply run_start.
  unfold nondiff_crossentropyloss. autounfold with prims.
  eapply bind_run; [eapply detach_numpy_run; lk|].
  eapply bind_run; [eapply detach_numpy_run; lk|].
  run_with @unary_run.
  run_with @unary_run.
  run_with @unary_run.
  run_with @np_binary_run.
  eapply bind_run; [eapply np_sum_run; lk|].
  run_with @tensor_run.
  eapply bind_run; [eapply shape0_run; [lk|exact Hs]|].
  run_last @unary_run.
Qed.

Lemma NonDiffCrossEntropy_forward_run h ctx yt yp tt tp N s prod :
  h !! yt = Some tt → h !! yp = Some tp → shape tt = N :: s →
  ce_terms tt tp = Some prod →
  NonDiffCrossEntropy.forward ctx yt yp h
  = inr ((save_for_backward ctx [yt; yp], length h + 5),
         h ++ [tmap (s_clip clip_lo clip_hi) tp; tmap s_neg tt;
               tmap s_log (tmap (s_clip clip_lo clip_hi) tp); prod;
               scalar_tensor (tsum prod); ce_loss N prod]).
Proof.
  intros Ht Hp Hs Hprod. unfold NonDiffCrossEntropy.forward.
  eapply bind_run; [by eapply nondiff_crossentropyloss_run|]. done.
Qed.

Lemma CustomLoss_forward_run h ctx yt yp tt tp N s prod :
  h !! yt = Some tt → h !! yp = Some tp → shape tt = N :: s →
  ce_terms tt tp = Some prod →
  CustomLoss.forward ctx yp yt h
  = inr ((save_for_backward ctx [yp; yt], length h + 5),
         h ++ [tmap (s_clip clip_lo clip_hi) tp; tmap s_neg tt;
               tmap s_log (tmap (s_clip clip_lo clip_hi) tp); prod;
               scalar_tensor (tsum prod); ce_loss N prod]).
Proof.
  intros Ht Hp Hs Hprod. apply run_start.
  unfold CustomLoss.forward. autounfold with prims.
  run_with @unary_run.
  run_with @unary_run.
  run_with @unary_run.
  run_with @binary_run.
  run_with @sum_run.
  eapply bind_run; [eapply shape0_run; [lk|exact Hs]|].
  run_with @unary_run.
  done.
Qed.

Lemma NonDiffCrossEntropy_backward_run h ctx yt yp g tt tp tg N s q r :
  saved_tensors ctx = [yt; yp] →
  h !! yt = Some tt → h !! yp = Some tp → h !! g = Some tg →
  shape tt = N :: s →
  tzip s_div (tmap s_neg tt) tp = Some q →
  tzip s_mul (tmap (λ a, s_div a (s_of_nat N)) q) tg = Some r →
  NonDiffCrossEntropy.backward ctx g h
  = inr ([None; Some (length h + 3)],
         h ++ [tmap s_neg tt; q; tmap (λ a, s_div a (s_of_nat N)) q; r]).
Proof.
  intros Hctx Ht Hp Hg Hs Hq Hr. apply run_start.
  unfold NonDiffCrossEntropy.backward. rewrite Hctx. autounfold with prims.
  eapply bind_run; [eapply shape0_run; [lk|exact Hs]|].
  run_with @unary_run.
  run_with @binary_run.
  run_with @unary_run.
  run_with @binary_run.
  done.
Qed.

Lemma CustomLoss_backward_run h ctx yt yp g tt tp tg N s q r :
  saved_tensors ctx = [yp; yt] →
  h !! yt = Some tt → h !! yp = Some tp → h !! g = Some tg →
  shape tt = N :: s →
  tzip s_div (tmap s_neg tt) tp = Some q →
  tzip s_mul tg (tmap (λ a, s_div a (s_of_nat N)) q) = Some r →
  CustomLoss.backward ctx g h
  = inr ([Some (length h + 3); None],
         h ++ [tmap s_neg tt; q; tmap (λ a, s_div a (s_of_nat N)) q; r]).
Proof.
  intros Hctx Ht Hp Hg Hs Hq Hr. apply run_start.
  unfold CustomLoss.backward. rewrite Hctx. autounfold with prims.
  eapply bind_run; [eapply shape0_run; [lk|exact Hs]|].
  run_with @unary_run.
  run_with @binary_run.
  run_with @unary_run.
  run_with @binary_run.
  done.
Qed.
End with_log.
End function_runs.

(** ** Reading a successful run backwards *)

Section inversion.
Context {A : Type} `{Scalar A}.
Implicit Types (h l : heap A) (t : tensor A) (x y : loc).

Lemma bind_inv {X Y} (m : M A X) (f : X → M A Y) h r :
  (m ≫= f) h = inr r → ∃ a h', m h = inr (a, h') ∧ f a h' = inr r.
Proof.
  unfold mbind, M_bind. destruct (m h) as [e|[a h']]; [done|]. eauto.
Qed.

Lemma unary_inv (f : A → A) h l x t a h' :
  (h ++ l) !! x = Some t → torch.unary f x (h ++ l) = inr (a, h') →
  a = length h + length l ∧ h' = h ++ (l ++ [tmap f t]).
Proof. intros Hx. rewrite (unary_run _ _ _ _ _ Hx). by intros [= <- <-]. Qed.

Lemma binary_inv (f : A → A → A) h l x y tx ty a h' :
  (h ++ l) !! x = Some tx → (h ++ l) !! y = Some ty →
  torch.binary f x y (h ++ l) = inr (a, h') →
  ∃ r, tzip f tx ty = Some r ∧ a = length h + length l ∧ h' = h ++ (l ++ [r]).
Proof.
  intros Hx Hy. destruct (tzip f tx ty) as [r|] eqn:Hr.
  - rewrite (binary_run _ _ _ _ _ _ _ _ Hx Hy Hr). intros [= <- <-]. eauto.
  - unfold torch.binary, mbind, M_bind.
    rewrite (load_run _ _ _ Hx), (load_run _ _ _ Hy), Hr. done.
Qed.

Lemma np_binary_inv (f : A → A → A) h l x y tx ty a h' :
  (h ++ l) !! x = Some tx → (h ++ l) !! y = Some ty →
  np.binary f x y (h ++ l) = inr (a, h') →
  ∃ r, tzip f tx ty = Some r ∧ a = length h + length l ∧ h' = h ++ (l ++ [r]).
Proof.
  intros Hx Hy. destruct (tzip f tx ty) as [r|] eqn:Hr.
  - rewrite (np_binary_run _ _ _ _ _ _ _ _ Hx Hy Hr). intros [= <- <-]. eauto.
  - unfold np.binary, mbind, M_bind.
    rewrite (load_run _ _ _ Hx), (load_run _ _ _ Hy), Hr. done.
Qed.

Lemma ones_like_inv h l x t a h' :
  (h ++ l) !! x = Some t → torch.ones_like x (h ++ l) = inr (a, h') →
  a = length h + length l ∧ h' = h ++ (l ++ [ones (shape t)]).
Proof. intros Hx. rewrite (ones_like_run _ _ _ _ Hx). by intros [= <- <-]. Qed.

Lemma sum_inv h l x t a h' :
  (h ++ l) !! x = Some t → torch.sum x (h ++ l) = inr (a, h') →
  a = length h + length l ∧ h' = h ++ (l ++ [scalar_tensor (tsum t)]).
Proof. intros Hx. rewrite (sum_run _ _ _ _ Hx). by intros [= <- <-]. Qed.

Lemma np_sum_inv h x t a h' :
  h !! x = Some t → np.sum x h = inr (a, h') → a = tsum t ∧ h' = h.
Proof. intros Hx. rewrite (np_sum_run _ _ _ Hx). by intros [= <- <-]. Qed.

Lemma tensor_inv h l (c : A) a h' :
  torch.tensor c (h ++ l) = inr (a, h') →
  a = length h + length l ∧ h' = h ++ (l ++ [scalar_tensor c]).
Proof. rewrite tensor_run. by intros [= <- <-]. Qed.

Lemma detach_numpy_inv h x t a h' :
  h !! x = Some t → torch.detach_numpy x h = inr (a, h') → a = x ∧ h' = h.
Proof. intros Hx. rewrite (detach_numpy_run _ _ _ Hx). by intros [= <- <-]. Qed.

Lemma shape0_inv h x t d h' :
  h !! x = Some t → torch.shape0 x h = inr (d, h') →
  (∃ s, shape t = d :: s) ∧ h' = h.
Proof.
  intros Hx. unfold torch.shape0, mbind, M_bind. rewrite (load_run _ _ _ Hx).
  destruct (shape t) as [|d' s]; [done|]. intros [= <- <-]. eauto.
Qed.

Lemma lt_num_inv h x t (c : A) m h' :
  h !! x = Some t → torch.lt_num x c h = inr (m, h') →
  m = Mask (shape t) ((λ a, s_lt a c) <$> data t) ∧ h' = h.
Proof. intros Hx. rewrite (lt_num_run _ _ _ _ Hx). by intros [= <- <-]. Qed.

Lemma setitem_mask_inv h l k t m (c : A) u h' :
  l !! k = Some t →
  torch.setitem_mask (length h + k) m c (h ++ l) = inr (u, h') →
  take (length (mshape m)) (shape t) = mshape m
  ∧ h' = h ++ <[k := torch.masked_fill m c t]> l.
Proof.
  intros Hk.
  destruct (decide (take (length (mshape m)) (shape t) = mshape m)) as [Hm|Hm].
  - rewrite (setitem_mask_run _ _ _ _ _ _ Hk Hm). by intros [= <-].
  - unfold torch.setitem_mask, mbind, M_bind.
    rewrite (load_run _ (length h + k) t) by (by rewrite lookup_new).
    by rewrite bool_decide_eq_false_2.
Qed.
End inversion.

(** The steps of a successful run, one at a time. *)
Ltac inv_bind H a h' Hm :=
  apply bind_inv in H as (a & h' & Hm & H).

Ltac inv_ret H :=
  unfold mret, M_ret in H; injection H as <- <-.

(** What a successful run says about the arguments: exactly the
    premises of the run equations above. *)
Section function_inversions.
Context {A : Type} `{Scalar A}.
Implicit Types (h : heap A) (t : tensor A) (ctx : context A).

Lemma MyReLU_backward_inv h ctx g gs h' :
  valid h g → Forall (valid h) (saved_tensors ctx) →
  MyReLU.backward ctx g h = inr (gs, h') →
  ∃ x tx tg, saved_tensors ctx = [x] ∧ h !! x = Some tx ∧ h !! g = Some tg
    ∧ take (length (shape tx)) (shape tg) = shape tx.
Proof.
  intros [tg Hg] Hv Hrun. unfold MyReLU.backward in Hrun.
  destruct (saved_tensors ctx) as [|x [|??]] eqn:Hs; try done.
  apply Forall_singleton in Hv as [tx Hx].
  exists x, tx, tg. repeat split; try done.
  rewrite <- (app_nil_r h) in Hrun. autounfold with prims in Hrun.
  inv_bind Hrun a h1 Hm. eapply unary_inv in Hm; [|lk]; destruct Hm as [-> ->].
  inv_bind Hrun m h2 Hm. eapply lt_num_inv in Hm; [|lk]; destruct Hm as [-> ->].
  inv_bind Hrun u h3 Hm. cbn [length app] in Hm.
  eapply setitem_mask_inv in Hm; [|reflexivity]; destruct Hm as [Hpre _].
  by rewrite tmap_id in Hpre.
Qed.

Lemma MatrixSum_backward_inv h ctx g gs h' :
  valid h g → Forall (valid h) (saved_tensors ctx) →
  MatrixSum.backward ctx g h = inr (gs, h') →
  ∃ x tx tg r, saved_tensors ctx = [x] ∧ h !! x = Some tx ∧ h !! g = Some tg
    ∧ tzip s_mul tg (ones (shape tx)) = Some r.
Proof.
  intros [tg Hg] Hv Hrun. unfold MatrixSum.backward in Hrun.
  destruct (saved_tensors ctx) as [|x [|??]] eqn:Hs; try done.
  apply Forall_singleton in Hv as [tx Hx].
  rewrite <- (app_nil_r h) in Hrun. autounfold with prims in Hrun.
  inv_bind Hrun a h1 Hm. eapply ones_like_inv in Hm; [|lk]; destruct Hm as [-> ->].
  inv_bind Hrun b h2 Hm. cbn [length app] in Hm.
  eapply binary_inv in Hm; [|lk|lk]; destruct Hm as (r & Hr & -> & ->).
  by exists x, tx, tg, r.
Qed.

Lemma MySub_forward_inv h a b alpha out h' :
  valid h a → valid h b →
  MySub.forward a b alpha h = inr (out, h') →
  ∃ ta tb r, h !! a = Some ta ∧ h !! b = Some tb
    ∧ tzip s_sub ta (tmap (s_mul (default s_one alpha)) tb) = Some r.
Proof.
  intros [ta Ha] [tb Hb] Hrun. unfold MySub.forward in Hrun.
  rewrite <- (app_nil_r h) in Hrun. autounfold with prims in Hrun.
  inv_bind Hrun x h1 Hm. eapply unary_inv in Hm; [|lk]; destruct Hm as [-> ->].
  cbn [length app] in Hrun.
  eapply binary_inv in Hrun; [|lk|lk]; destruct Hrun as (r & Hr & -> & ->).
  by exists ta, tb, r.
Qed.

Lemma MySub_apply_inv h a b alpha res h' :
  valid h a → valid h b →
  MySub.apply a b alpha h = inr (res, h') →
  ∃ ta tb r, h !! a = Some ta ∧ h !! b = Some tb
    ∧ tzip s_sub ta (tmap (s_mul (default s_one alpha)) tb) = Some r.
Proof.
  intros Ha Hb Hrun. unfold MySub.apply in Hrun.
  inv_bind Hrun out h1 Hm.
  by apply MySub_forward_inv in Hm.
Qed.

Lemma MySub_backward_inv h ctx g gs h' :
  valid h g → Forall (valid h) (saved_tensors ctx) →
  MySub.backward ctx g h = inr (gs, h') →
  ∃ a b alpha ta tb tg ra rb,
    saved_tensors ctx = [a; b] ∧ constant ctx = Some alpha
    ∧ h !! a = Some ta ∧ h !! b = Some tb ∧ h !! g = Some tg
    ∧ tzip s_mul tg (ones (shape ta)) = Some ra
    ∧ tzip s_mul (tmap (λ x, s_mul x (s_neg alpha)) tg) (ones (shape tb)) = Some rb.
Proof.
  intros [tg Hg] Hv Hrun. unfold MySub.backward in Hrun.
  destruct (saved_tensors ctx) as [|a [|b [|??]]] eqn:Hs; try done.
  apply Forall_cons in Hv as [[ta Ha] Hv]. apply Forall_singleton in Hv as [tb Hb].
  rewrite <- (app_nil_r h) in Hrun. autounfold with prims in Hrun.
  inv_bind Hrun alpha h0 Hm. unfold get_constant in Hm.
  destruct (constant ctx) as [c|] eqn:Hc; [|done]. inv_ret Hm.
  inv_bind Hrun x1 h1 Hm. eapply ones_like_inv in Hm; [|lk]; destruct Hm as [-> ->].
  inv_bind Hrun x2 h2 Hm. cbn [length app] in Hm.
  eapply binary_inv in Hm; [|lk|lk]; destruct Hm as (ra & Hra & -> & ->).
  inv_bind Hrun x3 h3 Hm. cbn [length app] in Hm.
  eapply unary_inv in Hm; [|lk]; destruct Hm as [-> ->].
  inv_bind Hrun x4 h4 Hm. cbn [length app] in Hm.
  eapply ones_like_inv in Hm; [|lk]; destruct Hm as [-> ->].
  inv_bind Hrun x5 h5 Hm. cbn [length app] in Hm.
  eapply binary_inv in Hm; [|lk|lk]; destruct Hm as (rb & Hrb & -> & ->).
  by exists a, b, c, ta, tb, tg, ra, rb.
Qed.
Section with_log.
Context {LA : Log A}.

Lemma nondiff_crossentropyloss_inv h yt yp out h' :
  valid h yt → valid h yp →
  nondiff_crossentropyloss yt yp h = inr (out, h') →
  ∃ tt tp N s prod, h !! yt = Some tt ∧ h !! yp = Some tp
    ∧ shape tt = N :: s ∧ ce_terms tt tp = Some prod.
Proof.
  intros [tt Ht] [tp Hp] Hrun. unfold nondiff_crossentropyloss in Hrun.
  rewrite <- (app_nil_r h) in Hrun. autounfold with prims in Hrun.
  inv_bind Hrun a0 h0 Hm. eapply detach_numpy_inv in Hm; [|lk]; destruct Hm as [-> ->].
  inv_bind Hrun a0 h0 Hm. eapply detach_numpy_inv in Hm; [|lk]; destruct Hm as [-> ->].
  inv_bind Hrun a1 h1 Hm. eapply unary_inv in Hm; [|lk]; destruct Hm as [-> ->].
  inv_bind Hrun a2 h2 Hm. cbn [length app] in Hm.
  eapply unary_inv in Hm; [|lk]; destruct Hm as [-> ->].
  inv_bind Hrun a3 h3 Hm. cbn [length app] in Hm.
  eapply unary_inv in Hm; [|lk]; destruct Hm as [-> ->].
  inv_bind Hrun a4 h4 Hm. cbn [length app] in Hm.
  eapply np_binary_inv in Hm; [|lk|lk]; destruct Hm as (prod & Hprod & -> & ->).
  inv_bind Hrun a5 h5 Hm. cbn [length app] in Hm.
  eapply np_sum_inv in Hm; [|lk]; destruct Hm as [-> ->].
  inv_bind Hrun a6 h6 Hm. eapply tensor_inv in Hm; destruct Hm as [-> ->].
  inv_bind Hrun n h7 Hm. cbn [length app] in Hm.
  eapply shape0_inv in Hm; [|lk]; destruct Hm as [[s Hs] ->].
  by exists tt, tp, n, s, prod.
Qed.

Lemma NonDiffCrossEntropy_forward_inv h ctx yt yp res h' :
  valid h yt → valid h yp →
  NonDiffCrossEntropy.forward ctx yt yp h = inr (res, h') →
  ∃ tt tp N s prod, h !! yt = Some tt ∧ h !! yp = Some tp
    ∧ shape tt = N :: s ∧ ce_terms tt tp = Some prod.
Proof.
  intros Ht Hp Hrun. unfold NonDiffCrossEntropy.forward in Hrun.
  inv_bind Hrun out h1 Hm. by apply nondiff_crossentropyloss_inv in Hm.
Qed.

Lemma CustomLoss_forward_inv h ctx yt yp res h' :
  valid h yt → valid h yp →
  CustomLoss.forward ctx yp yt h = inr (res, h') →
  ∃ tt tp N s prod, h !! yt = Some tt ∧ h !! yp = Some tp
    ∧ shape tt = N :: s ∧ ce_terms tt tp = Some prod.
Proof.
  intros [tt Ht] [tp Hp] Hrun. unfold CustomLoss.forward in Hrun.
  rewrite <- (app_nil_r h) in Hrun. autounfold with prims in Hrun.
  inv_bind Hrun a1 h1 Hm. eapply unary_inv in Hm; [|lk]; destruct Hm as [-> ->].
  inv_bind Hrun a2 h2 Hm. cbn [length app] in Hm.
  eapply unary_inv in Hm; [|lk]; destruct Hm as [-> ->].
  inv_bind Hrun a3 h3 Hm. cbn [length app] in Hm.
  eapply unary_inv in Hm; [|lk]; destruct Hm as [-> ->].
  inv_bind Hrun a4 h4 Hm. cbn [length app] in Hm.
  eapply binary_inv in Hm; [|lk|lk]; destruct Hm as (prod & Hprod & -> & ->).
  inv_bind Hrun a5 h5 Hm. cbn [length app] in Hm.
  eapply sum_inv in Hm; [|lk]; destruct Hm as [-> ->].
  inv_bind Hrun n h7 Hm. cbn [length app] in Hm.
  eapply shape0_inv in Hm; [|lk]; destruct Hm as [[s Hs] ->].
  by exists tt, tp, n, s, prod.
Qed.

Lemma NonDiffCrossEntropy_backward_inv h ctx g gs h' :
  valid h g → Forall (valid h) (saved_tensors ctx) →
  NonDiffCrossEntropy.backward ctx g h = inr (gs, h') →
  ∃ yt yp tt tp tg N s q r,
    saved_tensors ctx = [yt; yp]
    ∧ h !! yt = Some tt ∧ h !! yp = Some tp ∧ h !! g = Some tg
    ∧ shape tt = N :: s
    ∧ tzip s_div (tmap s_neg tt) tp = Some q
    ∧ tzip s_mul (tmap (λ a, s_div a (s_of_nat N)) q) tg = Some r.
Proof.
  intros [tg Hg] Hv Hrun. unfold NonDiffCrossEntropy.backward in Hrun.
  destruct (saved_tensors ctx) as [|yt [|yp [|??]]] eqn:Hs; try done.
  apply Forall_cons in Hv as [[tt Ht] Hv]. apply Forall_singleton in Hv as [tp Hp].
  rewrite <- (app_nil_r h) in Hrun. autounfold with prims in Hrun.
  inv_bind Hrun n h0 Hm. eapply shape0_inv in Hm; [|lk]; destruct Hm as [[s Hshape] ->].
  inv_bind Hrun a1 h1 Hm. eapply unary_inv in Hm; [|lk]; destruct Hm as [-> ->].
  inv_bind Hrun a2 h2 Hm. cbn [length app] in Hm.
  eapply binary_inv in Hm; [|lk|lk]; destruct Hm as (q & Hq & -> & ->).
  inv_bind Hrun a3 h3 Hm. cbn [length app] in Hm.
  eapply unary_inv in Hm; [|lk]; destruct Hm as [-> ->].
  inv_bind Hrun a4 h4 Hm. cbn [length app] in Hm.
  eapply binary_inv in Hm; [|lk|lk]; destruct Hm as (r & Hr & -> & ->).
  by exists yt, yp, tt, tp, tg, n, s, q, r.
Qed.

Lemma CustomLoss_backward_inv h ctx g gs h' :
  valid h g → Forall (valid h) (saved_tensors ctx) →
  CustomLoss.backward ctx g h = inr (gs, h') →
  ∃ yt yp tt tp tg N s q r,
    saved_tensors ctx = [yp; yt]
    ∧ h !! yt = Some tt ∧ h !! yp = Some tp ∧ h !! g = Some tg
    ∧ shape tt = N :: s
    ∧ tzip s_div (tmap s_neg tt) tp = Some q
    ∧ tzip s_mul tg (tmap (λ a, s_div a (s_of_nat N)) q) = Some r.
Proof.
  intros [tg Hg] Hv Hrun. unfold CustomLoss.backward in Hrun.
  destruct (saved_tensors ctx) as [|yp [|yt [|??]]] eqn:Hs; try done.
  apply Forall_cons in Hv as [[tp Hp] Hv]. apply Forall_singleton in Hv as [tt Ht].
  rewrite <- (app_nil_r h) in Hrun. autounfold with prims in Hrun.
  inv_bind Hrun n h0 Hm. eapply shape0_inv in Hm; [|lk]; destruct Hm as [[s Hshape] ->].
  inv_bind Hrun a1 h1 Hm. eapply unary_inv in Hm; [|lk]; destruct Hm as [-> ->].
  inv_bind Hrun a2 h2 Hm. cbn [length app] in Hm.
  eapply binary_inv in Hm; [|lk|lk]; destruct Hm as (q & Hq & -> & ->).
  inv_bind Hrun a3 h3 Hm. cbn [length app] in Hm.
  eapply unary_inv in Hm; [|lk]; destruct Hm as [-> ->].
  inv_bind Hrun a4 h4 Hm. cbn [length app] in Hm.
  eapply binary_inv in Hm; [|lk|lk]; destruct Hm as (r & Hr & -> & ->).
  by exists yt, yp, tt, tp, tg, n, s, q, r.
Qed.
End with_log.
End function_inversions.

(** ** Shapes of results *)

Section shape_facts.
Context {A : Type} `{Scalar A}.

(** A binary operation succeeds exactly when the shapes broadcast, and
    its result has the broadcast shape. *)
Lemma tzip_shape (f : A → A → A) (x y : tensor A) s :
  broadcast_shapes (shape x) (shape y) = Some s →
  ∃ r, tzip f x y = Some r ∧ shape r = s.
Proof. intros Hb. unfold tzip. rewrite Hb. simpl. eauto. Qed.

Lemma tzip_Some_shape (f : A → A → A) (x y r : tensor A) :
  tzip f x y = Some r → broadcast_shapes (shape x) (shape y) = Some (shape r).
Proof.
  unfold tzip. destruct (broadcast_shapes (shape x) (shape y)) as [s|]; [|done].
  simpl. by intros [= <-].
Qed.

Lemma wf_tmap (f : A → A) (t : tensor A) : wf t → wf (tmap f t).
Proof. unfold wf, tmap. simpl. by rewrite length_fmap. Qed.

Lemma wf_ones s : wf (ones (A := A) s).
Proof. unfold wf, ones. simpl. by rewrite length_replicate. Qed.

Lemma wf_tzip (f : A → A → A) (x y r : tensor A) : tzip f x y = Some r → wf r.
Proof.
  unfold tzip. destruct (broadcast_shapes (shape x) (shape y)) as [s|]; [|done].
  simpl. intros [= <-]. unfold wf. simpl.
  rewrite length_zip_with, !length_expand. lia.
Qed.

End shape_facts.

(** ** The claims *)

(** *** Number and position of the returned gradients *)

Ltac backward_pattern Hrun :=
  repeat (let a := fresh "a" in let h := fresh "h" in let Hm := fresh "Hm" in
          inv_bind Hrun a h Hm);
  inv_ret Hrun; eauto.

(** C3 — every [backward] returns one value per argument of its
    [forward], in the order of the arguments: [MyReLU] and [MatrixSum]
    one gradient for [inputs]; [MySub] gradients for [inp] and [other]
    and [None] for [alpha]; [NonDiffCrossEntropy] [None] for [y_true]
    and a gradient for [y_pred]; [CustomLoss], whose [forward] takes
    [(y_pred, y_true)], a gradient for [y_pred] and [None] for [y_true].
    This is what any returning call gives (first part), and a call made
    after [forward], on an upstream gradient shaped like the output,
    does return (second part). *)
Theorem backward_arity {A : Type} `{Scalar A} {LA : Log A} :
  (∀ (h : heap A) ctx g gs h',
      (MyReLU.backward ctx g h = inr (gs, h') → ∃ dx, gs = [Some dx])
    ∧ (MatrixSum.backward ctx g h = inr (gs, h') → ∃ dx, gs = [Some dx])
    ∧ (MySub.backward ctx g h = inr (gs, h') →
         ∃ da db, gs = [Some da; Some db; None])
    ∧ (NonDiffCrossEntropy.backward ctx g h = inr (gs, h') →
         ∃ dp, gs = [None; Some dp])
    ∧ (CustomLoss.backward ctx g h = inr (gs, h') →
         ∃ dp, gs = [Some dp; None]))
  ∧ (∀ (h0 h : heap A) ctx0 ctx x out h1 g tx tg,
      MyReLU.forward ctx0 x h0 = inr ((ctx, out), h1) →
      h !! x = Some tx → h !! g = Some tg → shape tg = shape tx →
      ∃ dx h', MyReLU.backward ctx g h = inr ([Some dx], h'))
  ∧ (∀ (h0 h : heap A) ctx0 ctx x out h1 g tx c,
      MatrixSum.forward ctx0 x h0 = inr ((ctx, out), h1) →
      h !! x = Some tx → h !! g = Some (scalar_tensor c) →
      ∃ dx h', MatrixSum.backward ctx g h = inr ([Some dx], h'))
  ∧ (∀ (h0 h : heap A) a b alpha ctx out h1 g ta tb tg s,
      MySub.apply a b alpha h0 = inr ((ctx, out), h1) →
      h !! a = Some ta → h !! b = Some tb → h !! g = Some tg →
      broadcast_shapes (shape ta) (shape tb) = Some s → shape tg = s →
      ∃ da db h', MySub.backward ctx g h = inr ([Some da; Some db; None], h'))
  ∧ (∀ (h0 h : heap A) ctx0 ctx yt yp out h1 g tt tp c N s' s,
      NonDiffCrossEntropy.forward ctx0 yt yp h0 = inr ((ctx, out), h1) →
      h !! yt = Some tt → h !! yp = Some tp → h !! g = Some (scalar_tensor c) →
      shape tt = N :: s' → broadcast_shapes (shape tt) (shape tp) = Some s →
      ∃ dp h', NonDiffCrossEntropy.backward ctx g h = inr ([None; Some dp], h'))
  ∧ (∀ (h0 h : heap A) ctx0 ctx yt yp out h1 g tt tp c N s' s,
      CustomLoss.forward ctx0 yp yt h0 = inr ((ctx, out), h1) →
      h !! yt = Some tt → h !! yp = Some tp → h !! g = Some (scalar_tensor c) →
      shape tt = N :: s' → broadcast_shapes (shape tt) (shape tp) = Some s →
      ∃ dp h', CustomLoss.backward ctx g h = inr ([Some dp; None], h')).
Proof.
  split; [|repeat split].
  - intros h ctx g gs h'. repeat split; intros Hrun.
    + unfold MyReLU.backward in Hrun.
      destruct (saved_tensors ctx) as [|? [|??]]; try done. backward_pattern Hrun.
    + unfold MatrixSum.backward in Hrun.
      destruct (saved_tensors ctx) as [|? [|??]]; try done. backward_pattern Hrun.
    + unfold MySub.backward in Hrun.
      destruct (saved_tensors ctx) as [|? [|? [|??]]]; try done. backward_pattern Hrun.
    + unfold NonDiffCrossEntropy.backward in Hrun.
      destruct (saved_tensors ctx) as [|? [|? [|??]]]; try done. backward_pattern Hrun.
    + unfold CustomLoss.backward in Hrun.
      destruct (saved_tensors ctx) as [|? [|? [|??]]]; try done. backward_pattern Hrun.
  - intros h0 h ctx0 ctx x out h1 g tx tg Hfw Hx Hg Hs.
    unfold MyReLU.forward in Hfw. inv_bind Hfw a h2 Hm. inv_ret Hfw.
    do 2 eexists. eapply MyReLU_backward_run; [done..|].
    by rewrite Hs, firstn_all.
  - intros h0 h ctx0 ctx x out h1 g tx c Hfw Hx Hg.
    unfold MatrixSum.forward in Hfw. inv_bind Hfw a h2 Hm. inv_ret Hfw.
    do 2 eexists. eapply MatrixSum_backward_run; [done..|].
    apply tzip_scalar_l, wf_ones.
  - intros h0 h a b alpha ctx out h1 g ta tb tg s Hfw Ha Hb Hg Hbs Hs.
    unfold MySub.apply in Hfw. inv_bind Hfw o h2 Hm. inv_ret Hfw.
    apply broadcast_shapes_expands in Hbs as (_ & _ & Hsa & Hsb).
    destruct (tzip_shape s_mul tg (ones (shape ta)) s) as (ra & Hra & _);
      [by rewrite Hs|].
    destruct (tzip_shape s_mul
                (tmap (λ x, s_mul x (s_neg (default s_one alpha))) tg)
                (ones (shape tb)) s) as (rb & Hrb & _); [by simpl; rewrite Hs|].
    do 3 eexists. by eapply MySub_backward_run.
  - intros h0 h ctx0 ctx yt yp out h1 g tt tp c N s' s Hfw Ht Hp Hg Hsh Hbs.
    unfold NonDiffCrossEntropy.forward in Hfw. inv_bind Hfw o h2 Hm. inv_ret Hfw.
    destruct (tzip_shape s_div (tmap s_neg tt) tp s) as (q & Hq & _); [done|].
    do 2 eexists. eapply NonDiffCrossEntropy_backward_run; [done..|].
    eapply tzip_scalar_r, wf_tmap, wf_tzip, Hq.
  - intros h0 h ctx0 ctx yt yp out h1 g tt tp c N s' s Hfw Ht Hp Hg Hsh Hbs.
    unfold CustomLoss.forward in Hfw.
    repeat (let a := fresh "a" in let h := fresh "h" in let Hm := fresh "Hm" in
            inv_bind Hfw a h Hm).
    inv_ret Hfw.
    destruct (tzip_shape s_div (tmap s_neg tt) tp s) as (q & Hq & _); [done|].
    do 2 eexists. eapply CustomLoss_backward_run; [done..|].
    eapply tzip_scalar_l, wf_tmap, wf_tzip, Hq.
Qed.

(** The claim at a concrete input: [MySub] on binary64, [b] broadcast
    against [a]. *)
Lemma backward_arity_witness :
  ∃ da db h',
    MySub.backward (Ctx [0; 1] (Some 1%float)) 2 [fa23; fb3; fg23]
    = inr ([Some da; Some db; None], h').
Proof.
  destruct (backward_arity (A := float) (LA := no_log))
    as (_ & _ & _ & Hsub & _).
  apply (Hsub [fa23; fb3] [fa23; fb3; fg23] 0 1 None
           (Ctx [0; 1] (Some 1%float)) 3
           [fa23; fb3; tmap (s_mul 1%float) fb3;
            Tensor [2; 3] [-9; -22; -27; -14; -15; -36]%float]
           2 fa23 fb3 fg23 [2; 3]).
  - vm_compute. reflexivity.
  - reflexivity.
  - reflexivity.
  - reflexivity.
  - reflexivity.
  - reflexivity.
Defined.

(** *** Gradients of the linear functions, over the reals *)

Lemma tmap_ext {A} (f g : A → A) (t : tensor A) :
  (∀ a, f a = g a) → tmap f t = tmap g t.
Proof. intros E. unfold tmap. f_equal. by apply list_fmap_ext. Qed.

Lemma tmap_Rmult_1_r (t : tensor R) : tmap (λ a, s_mul a s_one) t = t.
Proof.
  rewrite (tmap_ext _ (λ a, a)); [apply tmap_id|]. intros a. simpl. lra.
Qed.

Lemma tmap_Rmult_1_l (t : tensor R) : tmap (s_mul s_one) t = t.
Proof.
  rewrite (tmap_ext _ (λ a, a)); [apply tmap_id|]. intros a. simpl. lra.
Qed.

(** C6 — [MatrixSum.forward] returns the sum of the elements of [x] as a
    0-dimensional tensor; [backward], on an upstream gradient [c],
    returns one tensor of the shape of [x] whose every element is [c]:
    [c] times the all-ones tensor, and the all-ones tensor itself for
    the upstream gradient 1. *)
Theorem MatrixSum_backward_all_ones
    (h0 h : heap R) ctx0 ctx x out h1 g (tx : tensor R) (c : R) :
  h0 !! x = Some tx →
  MatrixSum.forward ctx0 x h0 = inr ((ctx, out), h1) →
  h !! x = Some tx → h !! g = Some (scalar_tensor c) →
  h1 !! out = Some (scalar_tensor (tsum tx))
  ∧ ∃ dx h',
      MatrixSum.backward ctx g h = inr ([Some dx], h')
      ∧ h' !! dx = Some (Tensor (shape tx) (replicate (numel (shape tx)) c))
      ∧ h' !! dx = Some (tmap (Rmult c) (ones (shape tx)))
      ∧ (c = 1%R → h' !! dx = Some (ones (shape tx))).
Proof.
  intros Hx0 Hfw Hx Hg.
  rewrite (MatrixSum_forward_run _ _ _ _ Hx0) in Hfw.
  injection Hfw as <- <- <-.
  split; [by rewrite lookup_new0|].
  assert (tzip s_mul (scalar_tensor c) (ones (shape tx))
          = Some (tmap (Rmult c) (ones (shape tx)))) as Hz
    by apply tzip_scalar_l, wf_ones.
  eexists _, _. split; [by eapply MatrixSum_backward_run|].
  rewrite lookup_new. simpl.
  assert (tmap (Rmult c) (ones (shape tx))
          = Tensor (shape tx) (replicate (numel (shape tx)) c)) as E.
  { unfold tmap, ones. simpl. rewrite fmap_replicate. do 2 f_equal. lra. }
  repeat split; [by rewrite E|].
  intros ->. by rewrite E.
Qed.

(** The claim at a concrete input: a 2-element [x] and the upstream
    gradient 1. *)
Lemma MatrixSum_backward_all_ones_witness :
  ∃ dx h',
    MatrixSum.backward (Ctx [0] None) 1 [x34; one_R] = inr ([Some dx], h')
    ∧ h' !! dx = Some (ones (A := R) [2]).
Proof.
  destruct (MatrixSum_backward_all_ones
              [x34] [x34; one_R] empty_context (Ctx [0] None) 0 1
              [x34; scalar_tensor (tsum x34)] 1 x34 1%R
              eq_refl eq_refl eq_refl eq_refl)
    as (_ & dx & h' & Hrun & _ & _ & Hones).
  exists dx, h'. split; [exact Hrun|]. exact (Hones eq_refl).
Defined.

(** What [MySub.backward] returns over the reals, for an upstream
    gradient shaped like the output. *)
Lemma MySub_backward_R (h : heap R) ctx a b alpha g ta tb tg s :
  saved_tensors ctx = [a; b] → constant ctx = Some alpha →
  h !! a = Some ta → h !! b = Some tb → h !! g = Some tg → wf tg →
  broadcast_shapes (shape ta) (shape tb) = Some s → shape tg = s →
  tzip Rmult tg (ones (shape ta)) = Some tg
  ∧ tzip Rmult (tmap (λ v, v * - alpha)%R tg) (ones (shape tb))
    = Some (tmap (λ v, v * - alpha)%R tg)
  ∧ ∃ da db h',
      MySub.backward ctx g h = inr ([Some da; Some db; None], h')
      ∧ h' !! da = Some tg
      ∧ h' !! db = Some (tmap (λ v, v * - alpha)%R tg).
Proof.
  intros Hctx Hc Ha Hb Hg Hwf Hbs Hs.
  apply broadcast_shapes_expands in Hbs as (_ & _ & Hsa & Hsb).
  rewrite <- Hs in Hsa, Hsb.
  assert (tzip Rmult tg (ones (shape ta)) = Some tg) as Hra.
  { rewrite (tzip_ones_r (A := R)) by done. f_equal. apply tmap_Rmult_1_r. }
  assert (tzip Rmult (tmap (λ v, v * - alpha)%R tg) (ones (shape tb))
          = Some (tmap (λ v, v * - alpha)%R tg)) as Hrb.
  { rewrite (tzip_ones_r (A := R)); [|by apply wf_tmap|done].
    f_equal. apply tmap_Rmult_1_r. }
  split; [done|]. split; [done|].
  eexists _, _, _. split; [by eapply MySub_backward_run|].
  rewrite !lookup_new. done.
Qed.

(** C5 — [MySub] computes [a - alpha * b]; for an upstream gradient
    [grad_out] shaped like that output, [backward] returns for [a] the
    product of [grad_out] with the all-ones tensor of [a], which is
    [grad_out]; for [b] the product of [grad_out * -alpha] with the
    all-ones tensor of [b], which is [grad_out] scaled by [-alpha]; and
    [None] for [alpha]. *)
Theorem MySub_backward_gradients
    (h0 h : heap R) a b (alpha : R) ctx out h1 g (ta tb tg : tensor R) s :
  h0 !! a = Some ta → h0 !! b = Some tb →
  MySub.apply a b (Some alpha) h0 = inr ((ctx, out), h1) →
  h !! a = Some ta → h !! b = Some tb → h !! g = Some tg → wf tg →
  broadcast_shapes (shape ta) (shape tb) = Some s → shape tg = s →
  (∃ r, tzip Rminus ta (tmap (Rmult alpha) tb) = Some r ∧ h1 !! out = Some r)
  ∧ tzip Rmult tg (ones (shape ta)) = Some tg
  ∧ tzip Rmult (tmap (λ v, v * - alpha)%R tg) (ones (shape tb))
    = Some (tmap (λ v, v * - alpha)%R tg)
  ∧ ∃ da db h',
      MySub.backward ctx g h = inr ([Some da; Some db; None], h')
      ∧ h' !! da = Some tg
      ∧ h' !! db = Some (tmap (λ v, v * - alpha)%R tg).
Proof.
  intros Ha0 Hb0 Hfw Ha Hb Hg Hwf Hbs Hs.
  destruct (tzip_shape Rminus ta (tmap (Rmult alpha) tb) s) as (r & Hr & _);
    [done|].
  rewrite (MySub_apply_run _ _ _ (Some alpha) _ _ _ Ha0 Hb0 Hr) in Hfw.
  injection Hfw as <- <- <-.
  split; [exists r; split; [done|by rewrite lookup_new]|].
  by eapply MySub_backward_R.
Qed.

(** The claim at a concrete input: [b] of shape [[3]] broadcast against
    [a] of shape [[2; 3]], and [alpha = 2]. *)
Lemma MySub_backward_gradients_witness :
  ∃ da db h',
    MySub.backward (Ctx [0; 1] (Some 2%R)) 2 [a23; b3; g23]
    = inr ([Some da; Some db; None], h')
    ∧ h' !! da = Some g23
    ∧ h' !! db = Some (tmap (λ v, v * - 2)%R g23).
Proof.
  epose proof (MySub_backward_gradients [a23; b3] [a23; b3; g23] 0 1 2%R
                 (Ctx [0; 1] (Some 2%R)) 3 _ 2 a23 b3 g23 [2; 3]) as Hthm.
  destruct Hthm as (_ & _ & _ & Hbw); [reflexivity..|].
  exact Hbw.
Defined.

(** C10 — [alpha] defaults to 1: [MySub.forward] on two arguments
    returns [a - b], the runtime's broadcasting subtraction of the two
    tensors; and the call through [apply] records 1 as the constant, so
    that the gradient [backward] returns for [b] is [-grad_out]. *)
Theorem MySub_default_alpha
    (h0 h : heap R) a b (ta tb r : tensor R) ctx out h1 g tg :
  h0 !! a = Some ta → h0 !! b = Some tb →
  tzip Rminus ta tb = Some r →
  (∃ o h1', MySub.forward a b None h0 = inr (o, h1') ∧ h1' !! o = Some r)
  ∧ (MySub.apply a b None h0 = inr ((ctx, out), h1) →
     h !! a = Some ta → h !! b = Some tb → h !! g = Some tg →
     wf tg → shape tg = shape r →
     h1 !! out = Some r
     ∧ constant ctx = Some 1%R
     ∧ ∃ da db h',
         MySub.backward ctx g h = inr ([Some da; Some db; None], h')
         ∧ h' !! da = Some tg
         ∧ h' !! db = Some (tmap Ropp tg)).
Proof.
  intros Ha0 Hb0 Hr.
  assert (tzip s_sub ta (tmap (s_mul (default s_one None)) tb) = Some r) as Hr'.
  { simpl default. by rewrite tmap_Rmult_1_l. }
  split.
  - eexists _, _. split; [by eapply MySub_forward_run|]. by rewrite lookup_new.
  - intros Hfw Ha Hb Hg Hwf Hs.
    rewrite (MySub_apply_run _ _ _ None _ _ _ Ha0 Hb0 Hr') in Hfw.
    injection Hfw as <- <- <-.
    split; [by rewrite lookup_new|]. split; [done|].
    apply tzip_Some_shape in Hr.
    destruct (MySub_backward_R h (Ctx [a; b] (Some 1%R)) a b 1%R g ta tb tg
                (shape r)) as (_ & _ & da & db & h' & Hrun & Hda & Hdb);
      [done..|].
    exists da, db, h'. repeat split; [done..|].
    rewrite Hdb. f_equal. apply tmap_ext. intros v. lra.
Qed.

(** The claim at a concrete input: [a - b] for [a] of shape [[2; 3]]
    and [b] of shape [[3]]. *)
Lemma MySub_default_alpha_witness :
  (∃ o h1', MySub.forward 0 1 None [a23; b3] = inr (o, h1')
            ∧ h1' !! o = Some (Tensor [2; 3] [1 - 10; -2 - 20; 3 - 30;
                                            -4 - 10; 5 - 20; -6 - 30]%R))
  ∧ ∃ da db h',
      MySub.backward (Ctx [0; 1] (Some 1%R)) 2 [a23; b3; g23]
      = inr ([Some da; Some db; None], h')
      ∧ h' !! da = Some g23
      ∧ h' !! db = Some (tmap Ropp g23).
Proof.
  epose proof (MySub_default_alpha [a23; b3] [a23; b3; g23] 0 1 a23 b3 _
                 (Ctx [0; 1] (Some 1%R)) 3 _ 2 g23 eq_refl eq_refl eq_refl)
    as [Hfw Hbw].
  split; [exact Hfw|].
  destruct Hbw as (_ & _ & Hbw); [reflexivity..|]. exact Hbw.
Defined.

(** *** Sums and quotients over the reals *)

Lemma foldl_Rplus_acc (a : R) (l : list R) :
  foldl Rplus a l = (a + foldl Rplus 0 l)%R.
Proof.
  revert a. induction l as [|x l IH]; intros a; simpl; [lra|].
  rewrite (IH (a + x)%R), (IH (0 + x)%R). lra.
Qed.

Lemma foldl_Rplus_cons (x : R) (l : list R) :
  foldl Rplus 0%R (x :: l) = (x + foldl Rplus 0 l)%R.
Proof. simpl. rewrite foldl_Rplus_acc. lra. Qed.

(** The elements [backward] computes, [(-y_true / y_pred) / N] times the
    upstream gradient, are the elements of the closed form. *)
Lemma ce_grad_data (dt dp : list R) (n c : R) :
  (λ a, a * c)%R <$> ((λ a, a / n)%R <$> zip_with Rdiv (Ropp <$> dt) dp)
  = zip_with (λ a p, c * (- a / (p * n)))%R dt dp.
Proof.
  revert dp. induction dt as [|a dt IH]; intros [|p dp]; try done.
  cbn [fmap list_fmap zip_with]. f_equal.
  - unfold Rdiv. rewrite Rinv_mult. ring.
  - apply IH.
Qed.

(** *** The cross-entropy gradient, with the IEEE special values *)

(** Case analysis on the sign tests of a goal. *)
Ltac x_signs :=
  repeat (simpl;
          match goal with
          | |- context [Rlt_dec ?a ?b] => destruct (Rlt_dec a b)
          end);
  simpl; try reflexivity; try lra.

Lemma x_mul_comm (a b : xreal) : x_mul a b = x_mul b a.
Proof. destruct a, b; simpl; try reflexivity. f_equal. ring. Qed.

Lemma x_neg_add (a b : xreal) : x_add (x_neg a) (x_neg b) = x_neg (x_add a b).
Proof. destruct a, b; simpl; try reflexivity. f_equal. ring. Qed.

Lemma x_mul_neg_l (a b : xreal) : x_mul (x_neg a) b = x_neg (x_mul a b).
Proof.
  destruct a, b; simpl; unfold x_inf_times;
    repeat destruct (Rlt_dec _ _); simpl; try reflexivity; try lra.
  f_equal. ring.
Qed.

Lemma foldl_x_add_neg (f : xreal → xreal → xreal) (acc : xreal) (dt dp : list xreal) :
  foldl x_add (x_neg acc) (zip_with (λ a p, x_mul (x_neg a) (f a p)) dt dp)
  = x_neg (foldl x_add acc (zip_with (λ a p, x_mul a (f a p)) dt dp)).
Proof.
  revert acc dp. induction dt as [|a dt IH]; intros acc [|p dp]; try done.
  cbn [zip_with foldl]. rewrite x_mul_neg_l, x_neg_add. apply IH.
Qed.

(** The sum of the summands [-y_true * log(clip(y_pred))] is minus the
    sum of [y_true * log(clip(y_pred))], whatever the values are. *)
Lemma x_ce_sum_data (dt dp : list xreal) :
  foldl x_add (Fin 0)
    (zip_with x_mul (x_neg <$> dt) (x_log <$> (s_clip clip_lo clip_hi <$> dp)))
  = x_neg (foldl x_add (Fin 0)
             (zip_with (λ a p, x_mul a (x_log (s_clip clip_lo clip_hi p))) dt dp)).
Proof.
  rewrite <- (foldl_x_add_neg (λ _ p, x_log (s_clip clip_lo clip_hi p))).
  replace (x_neg (Fin 0)) with (Fin 0) by (simpl; f_equal; lra).
  f_equal. rewrite <- list_fmap_compose.
  rewrite zip_with_fmap_l, zip_with_fmap_r. done.
Qed.

(** Dividing by [y_pred] and then by a positive [N] is dividing by
    [y_pred * N]: for zero, infinite and NaN operands as well. *)
Lemma x_div_div (a p : xreal) (n : R) :
  (0 < n)%R → x_div (x_div a p) (Fin n) = x_div a (x_mul p (Fin n)).
Proof.
  intros Hn. destruct a as [a| | |], p as [p| | |]; simpl; try reflexivity;
    unfold x_inf_times, x_signed_inf.
  - destruct (Req_dec_T p 0) as [->|Hp].
    + destruct (Req_dec_T (0 * n) 0) as [_|Hne]; [|lra]. x_signs.
    + destruct (Req_dec_T (p * n) 0) as [He|_];
        [apply Rmult_integral in He; destruct He; lra|].
      simpl. destruct (Req_dec_T n 0) as [->|_]; [lra|].
      f_equal. field. lra.
  - destruct (Req_dec_T n 0) as [->|_]; [lra|]. x_signs. f_equal. lra.
  - destruct (Req_dec_T n 0) as [->|_]; [lra|]. x_signs. f_equal. lra.
  - x_signs; nra.
  - x_signs.
  - x_signs.
  - x_signs; nra.
  - x_signs.
  - x_signs.
Qed.

(** The elements [backward] computes, [(-y_true / y_pred) / N] times the
    upstream gradient, are the elements of the closed form. *)
Lemma x_ce_grad_data (dt dp : list xreal) (N : nat) (c : xreal) :
  0 < N →
  (λ a, x_mul a c) <$> ((λ a, x_div a (Fin (INR N))) <$> zip_with x_div (x_neg <$> dt) dp)
  = zip_with (λ a p, x_mul c (x_div (x_neg a) (x_mul p (Fin (INR N))))) dt dp.
Proof.
  intros HN. assert (0 < INR N)%R as Hn by (apply lt_0_INR; lia).
  revert dp. induction dt as [|a dt IH]; intros [|p dp]; try done.
  cbn [fmap list_fmap zip_with]. f_equal; [|apply IH].
  by rewrite x_div_div, x_mul_comm.
Qed.

(** C1 — both cross-entropy functions compute
    [-Σ y_true * log(clip(y_pred, 1e-7, 1 - 1e-7)) / N], [N] the first
    dimension of [y_true]; for [y_true] and [y_pred] of one shape and an
    upstream gradient [c], [backward] returns [None] in the position of
    [y_true] and, in the position of [y_pred], the tensor of the shape
    of [y_pred] with the elements [c * (-y_true / (y_pred * N))].
    Stated in exact arithmetic with the IEEE special values, for every
    content of the tensors: a prediction that is zero, infinite or NaN,
    and the empty batch [N = 0], follow the IEEE rules on both sides. *)
Theorem crossentropy_backward_gradient
    (h0 h : heap xreal) ctx0 yt yp g (tt tp : tensor xreal) N s (c : xreal) :
  h0 !! yt = Some tt → h0 !! yp = Some tp →
  wf tt → wf tp → shape tt = shape tp → shape tt = N :: s →
  h !! yt = Some tt → h !! yp = Some tp → h !! g = Some (scalar_tensor c) →
  let loss :=
    scalar_tensor
      (s_div
         (s_neg (foldl s_add s_zero
                   (zip_with (λ a p, s_mul a (s_log (s_clip clip_lo clip_hi p)))
                      (data tt) (data tp))))
         (s_of_nat N)) in
  let grad :=
    Tensor (shape tp)
      (zip_with (λ a p, s_mul c (s_div (s_neg a) (s_mul p (s_of_nat N))))
         (data tt) (data tp)) in
  (∃ ctx out h1,
      NonDiffCrossEntropy.forward ctx0 yt yp h0 = inr ((ctx, out), h1)
      ∧ h1 !! out = Some loss
      ∧ ∃ dp h',
          NonDiffCrossEntropy.backward ctx g h = inr ([None; Some dp], h')
          ∧ h' !! dp = Some grad)
  ∧ (∃ ctx out h1,
      CustomLoss.forward ctx0 yp yt h0 = inr ((ctx, out), h1)
      ∧ h1 !! out = Some loss
      ∧ ∃ dp h',
          CustomLoss.backward ctx g h = inr ([Some dp; None], h')
          ∧ h' !! dp = Some grad).
Proof.
  intros Ht0 Hp0 Hwt Hwp Hsh HN Ht Hp Hg loss grad.
  assert (ce_terms tt tp
          = Some (Tensor (shape tt)
                    (zip_with x_mul (x_neg <$> data tt)
                       (x_log <$> (s_clip clip_lo clip_hi <$> data tp))))) as Hterms.
  { unfold ce_terms. rewrite (tzip_same (A := xreal)); [done|..].
    - by apply wf_tmap.
    - by do 2 apply wf_tmap.
    - done. }
  assert (ce_loss N (Tensor (shape tt)
                       (zip_with x_mul (x_neg <$> data tt)
                          (x_log <$> (s_clip clip_lo clip_hi <$> data tp))))
          = loss) as Hloss.
  { unfold ce_loss, loss, tmap, scalar_tensor, tsum. cbn [shape data fmap list_fmap].
    by rewrite <- x_ce_sum_data. }
  assert (tzip s_div (tmap s_neg tt) tp
          = Some (Tensor (shape tt) (zip_with x_div (x_neg <$> data tt) (data tp))))
    as Hq.
  { rewrite (tzip_same (A := xreal)); [done|by apply wf_tmap|done..]. }
  assert (wf (tmap (λ a, s_div a (s_of_nat N))
                (Tensor (shape tt) (zip_with x_div (x_neg <$> data tt) (data tp)))))
    as Hwq by (eapply wf_tmap, wf_tzip, Hq).
  assert (tmap (λ a, x_mul a c)
            (tmap (λ a, s_div a (s_of_nat N))
               (Tensor (shape tt) (zip_with x_div (x_neg <$> data tt) (data tp))))
          = grad) as Hgrad.
  { unfold grad, tmap. cbn [shape data]. rewrite Hsh. f_equal.
    destruct N as [|N].
    - assert (data tt = []) as ->; [|done].
      apply nil_length_inv. rewrite Hwt, HN. reflexivity.
    - apply x_ce_grad_data. lia. }
  split.
  - eexists _, _, _. split; [by eapply NonDiffCrossEntropy_forward_run|].
    split; [by rewrite lookup_new, <- Hloss|].
    eexists _, _. split.
    + eapply NonDiffCrossEntropy_backward_run; [done..|].
      by apply tzip_scalar_r.
    + by rewrite lookup_new, <- Hgrad.
  - eexists _, _, _. split; [by eapply CustomLoss_forward_run|].
    split; [by rewrite lookup_new, <- Hloss|].
    eexists _, _. split.
    + eapply CustomLoss_backward_run; [done..|].
      by apply tzip_scalar_l.
    + rewrite lookup_new, <- Hgrad. cbn [lookup list_lookup]. f_equal.
      apply tmap_ext. intros a. apply x_mul_comm.
Qed.

(** The closed form at a label 1 with the prediction 0 is minus
    infinity, and at a label 0 with the prediction 1 it is 0. *)
Lemma crossentropy_gradient_values :
  s_mul (Fin 1) (s_div (s_neg (Fin 1)) (s_mul (Fin 0) (s_of_nat 2))) = NInf
  ∧ s_mul (Fin 1) (s_div (s_neg (Fin 0)) (s_mul (Fin 1) (s_of_nat 2))) = Fin 0.
Proof.
  simpl. unfold x_inf_times. split.
  - destruct (Req_dec_T _ 0) as [_|Hne]; [|lra]. x_signs.
  - destruct (Req_dec_T _ 0) as [He|_]; [lra|]. f_equal. field.
Qed.

(** The claim at a concrete input: the labels [1, 0], the predictions
    [0, 1], and the upstream gradient 1. *)
Lemma crossentropy_backward_gradient_witness :
  (∃ ctx out h1,
      NonDiffCrossEntropy.forward empty_context 0 1 [xt2; xp2]
      = inr ((ctx, out), h1)
      ∧ ∃ dp h',
          NonDiffCrossEntropy.backward ctx 2 [xt2; xp2; xone]
          = inr ([None; Some dp], h')
          ∧ h' !! dp
            = Some (Tensor [2]
                      [s_mul (Fin 1) (s_div (s_neg (Fin 1)) (s_mul (Fin 0) (s_of_nat 2)));
                       s_mul (Fin 1) (s_div (s_neg (Fin 0)) (s_mul (Fin 1) (s_of_nat 2)))]))
  ∧ (∃ ctx out h1,
      CustomLoss.forward empty_context 1 0 [xt2; xp2] = inr ((ctx, out), h1)
      ∧ ∃ dp h',
          CustomLoss.backward ctx 2 [xt2; xp2; xone]
          = inr ([Some dp; None], h')
          ∧ h' !! dp
            = Some (Tensor [2]
                      [s_mul (Fin 1) (s_div (s_neg (Fin 1)) (s_mul (Fin 0) (s_of_nat 2)));
                       s_mul (Fin 1) (s_div (s_neg (Fin 0)) (s_mul (Fin 1) (s_of_nat 2)))])).
Proof.
  destruct (crossentropy_backward_gradient
              [xt2; xp2] [xt2; xp2; xone] empty_context 0 1 2 xt2 xp2 2 []
              (Fin 1)
              eq_refl eq_refl eq_refl eq_refl eq_refl eq_refl
              eq_refl eq_refl eq_refl)
    as [(ctx & out & h1 & Hfw & _ & Hbw) (ctx' & out' & h1' & Hfw' & _ & Hbw')].
  split.
  - exists ctx, out, h1. split; [exact Hfw|exact Hbw].
  - exists ctx', out', h1'. split; [exact Hfw'|exact Hbw'].
Defined.

(** *** Shapes of the returned gradients *)

(** C4, as stated, fails: [MySub] accepts [a] of shape [[2; 3]] and [b]
    of shape [[3]]; on an upstream gradient of the shape [[2; 3]] of the
    output, the gradient [backward] returns for [b] has shape [[2; 3]],
    not the shape [[3]] of [b]. *)
Lemma gradient_shape_counterexample :
  ∃ ctx out h1 tout da db h' tdb,
    MySub.apply 0 1 None [fa23; fb3; fg23] = inr ((ctx, out), h1)
    ∧ h1 !! out = Some tout ∧ shape tout = shape fg23
    ∧ MySub.backward ctx 2 h1 = inr ([Some da; Some db; None], h')
    ∧ h' !! db = Some tdb
    ∧ shape tdb = [2; 3] ∧ shape fb3 = [3] ∧ shape tdb ≠ shape fb3.
Proof.
  eexists _, _, _, _, _, _, _, _.
  split; [vm_compute; reflexivity|].
  split; [vm_compute; reflexivity|].
  split; [reflexivity|].
  split; [vm_compute; reflexivity|].
  split; [vm_compute; reflexivity|].
  split; [reflexivity|]. split; [reflexivity|]. discriminate.
Qed.

(** C4, amended — for an upstream gradient shaped like the output of
    [forward], every gradient [backward] returns has the shape of that
    broadcast of the tensor inputs: the shape of [inputs] for [MyReLU]
    and [MatrixSum]; for [MySub] and the cross-entropy functions the
    broadcast [s] of the shapes of the two tensor inputs, which is the
    shape of an input exactly when [s] is, as it is for both inputs
    when they have one shape. *)
Theorem gradient_shape {A : Type} `{Scalar A} {LA : Log A} :
  (∀ (h0 h : heap A) ctx0 ctx x out h1 g tx tg,
      MyReLU.forward ctx0 x h0 = inr ((ctx, out), h1) →
      h !! x = Some tx → h !! g = Some tg → shape tg = shape tx →
      ∃ dx h' t, MyReLU.backward ctx g h = inr ([Some dx], h')
        ∧ h' !! dx = Some t ∧ shape t = shape tx)
  ∧ (∀ (h0 h : heap A) ctx0 ctx x out h1 g tx c,
      MatrixSum.forward ctx0 x h0 = inr ((ctx, out), h1) →
      h !! x = Some tx → h !! g = Some (scalar_tensor c) →
      ∃ dx h' t, MatrixSum.backward ctx g h = inr ([Some dx], h')
        ∧ h' !! dx = Some t ∧ shape t = shape tx)
  ∧ (∀ (h0 h : heap A) a b alpha ctx out h1 g ta tb tg s,
      MySub.apply a b alpha h0 = inr ((ctx, out), h1) →
      h !! a = Some ta → h !! b = Some tb → h !! g = Some tg →
      broadcast_shapes (shape ta) (shape tb) = Some s → shape tg = s →
      ∃ da db h' tda tdb,
        MySub.backward ctx g h = inr ([Some da; Some db; None], h')
        ∧ h' !! da = Some tda ∧ h' !! db = Some tdb
        ∧ shape tda = s ∧ shape tdb = s
        ∧ (shape ta = shape tb → shape tda = shape ta ∧ shape tdb = shape tb))
  ∧ (∀ (h0 h : heap A) ctx0 ctx yt yp out h1 g tt tp c N s' s,
      NonDiffCrossEntropy.forward ctx0 yt yp h0 = inr ((ctx, out), h1) →
      h !! yt = Some tt → h !! yp = Some tp → h !! g = Some (scalar_tensor c) →
      shape tt = N :: s' → broadcast_shapes (shape tt) (shape tp) = Some s →
      ∃ dp h' t,
        NonDiffCrossEntropy.backward ctx g h = inr ([None; Some dp], h')
        ∧ h' !! dp = Some t ∧ shape t = s
        ∧ (shape tt = shape tp → shape t = shape tp))
  ∧ (∀ (h0 h : heap A) ctx0 ctx yt yp out h1 g tt tp c N s' s,
      CustomLoss.forward ctx0 yp yt h0 = inr ((ctx, out), h1) →
      h !! yt = Some tt → h !! yp = Some tp → h !! g = Some (scalar_tensor c) →
      shape tt = N :: s' → broadcast_shapes (shape tt) (shape tp) = Some s →
      ∃ dp h' t,
        CustomLoss.backward ctx g h = inr ([Some dp; None], h')
        ∧ h' !! dp = Some t ∧ shape t = s
        ∧ (shape tt = shape tp → shape t = shape tp)).
Proof.
  repeat split.
  - intros h0 h ctx0 ctx x out h1 g tx tg Hfw Hx Hg Hs.
    unfold MyReLU.forward in Hfw. inv_bind Hfw a h2 Hm. inv_ret Hfw.
    eexists _, _, _. split.
    { eapply MyReLU_backward_run; [done..|]. by rewrite Hs, firstn_all. }
    rewrite lookup_new0. done.
  - intros h0 h ctx0 ctx x out h1 g tx c Hfw Hx Hg.
    unfold MatrixSum.forward in Hfw. inv_bind Hfw a h2 Hm. inv_ret Hfw.
    eexists _, _, _. split.
    { eapply MatrixSum_backward_run; [done..|]. apply tzip_scalar_l, wf_ones. }
    rewrite lookup_new. done.
  - intros h0 h a b alpha ctx out h1 g ta tb tg s Hfw Ha Hb Hg Hbs Hs.
    unfold MySub.apply in Hfw. inv_bind Hfw o h2 Hm. inv_ret Hfw.
    pose proof Hbs as Hbs'.
    apply broadcast_shapes_expands in Hbs as (_ & _ & Hsa & Hsb).
    destruct (tzip_shape s_mul tg (ones (shape ta)) s) as (ra & Hra & Hsra);
      [by rewrite Hs|].
    destruct (tzip_shape s_mul
                (tmap (λ x, s_mul x (s_neg (default s_one alpha))) tg)
                (ones (shape tb)) s) as (rb & Hrb & Hsrb); [by simpl; rewrite Hs|].
    eexists _, _, _, ra, rb. split; [by eapply MySub_backward_run|].
    rewrite !lookup_new.
    split_and!; try done.
    intros E. rewrite E, broadcast_shapes_same in Hbs'. split; congruence.
  - intros h0 h ctx0 ctx yt yp out h1 g tt tp c N s' s Hfw Ht Hp Hg Hsh Hbs.
    unfold NonDiffCrossEntropy.forward in Hfw. inv_bind Hfw o h2 Hm. inv_ret Hfw.
    destruct (tzip_shape s_div (tmap s_neg tt) tp s) as (q & Hq & Hsq); [done|].
    eexists _, _, _. split.
    { eapply NonDiffCrossEntropy_backward_run; [done..|].
      eapply tzip_scalar_r, wf_tmap, wf_tzip, Hq. }
    rewrite lookup_new. split_and!; try done.
    intros E. simpl. rewrite Hsq. rewrite E, broadcast_shapes_same in Hbs. congruence.
  - intros h0 h ctx0 ctx yt yp out h1 g tt tp c N s' s Hfw Ht Hp Hg Hsh Hbs.
    unfold CustomLoss.forward in Hfw.
    repeat (let a := fresh "a" in let h := fresh "h" in let Hm := fresh "Hm" in
            inv_bind Hfw a h Hm).
    inv_ret Hfw.
    destruct (tzip_shape s_div (tmap s_neg tt) tp s) as (q & Hq & Hsq); [done|].
    eexists _, _, _. split.
    { eapply CustomLoss_backward_run; [done..|].
      eapply tzip_scalar_l, wf_tmap, wf_tzip, Hq. }
    rewrite lookup_new. split_and!; try done.
    intros E. simpl. rewrite Hsq. rewrite E, broadcast_shapes_same in Hbs. congruence.
Qed.

(** The amended claim at a concrete input: [MySub] on binary64 with [a]
    and [b] of one shape. *)
Lemma gradient_shape_witness :
  ∃ da db h' tda tdb,
    MySub.backward (Ctx [0; 1] (Some 1%float)) 2 [fa23; fa23; fg23]
    = inr ([Some da; Some db; None], h')
    ∧ h' !! da = Some tda ∧ h' !! db = Some tdb
    ∧ shape tda = shape fa23 ∧ shape tdb = shape fa23.
Proof.
  destruct (gradient_shape (A := float) (LA := no_log))
    as (_ & _ & Hsub & _).
  destruct (Hsub [fa23; fa23] [fa23; fa23; fg23] 0 1 None
              (Ctx [0; 1] (Some 1%float)) 3
              [fa23; fa23; tmap (s_mul 1%float) fa23;
               Tensor [2; 3] [0; 0; 0; 0; 0; 0]%float]
              2 fa23 fa23 fg23 [2; 3])
    as (da & db & h' & tda & tdb & Hrun & Hda & Hdb & _ & _ & Hsame).
  - vm_compute. reflexivity.
  - reflexivity.
  - reflexivity.
  - reflexivity.
  - reflexivity.
  - reflexivity.
  - exists da, db, h', tda, tdb. destruct (Hsame eq_refl) as [Ha Hb].
    repeat split; assumption.
Defined.

(** *** Purity *)

Section purity.
Context {A : Type} `{Scalar A}.
Implicit Types (h l : heap A).

Lemma unchanged_app h l : unchanged h (h ++ l).
Proof. intros x t. apply lookup_old. Qed.

Lemma fresh_new h k : fresh h (length h + k).
Proof. apply lookup_ge_None. lia. Qed.

Lemma fresh_new0 h : fresh h (length h).
Proof. by apply lookup_ge_None. Qed.

Lemma MyReLU_forward_pure : pure_forward1 (A := A) MyReLU.forward.
Proof.
  intros h ctx x ctx1 out h' [t Hx] Hrun.
  rewrite (MyReLU_forward_run _ _ _ _ Hx) in Hrun. injection Hrun as <- <- <-.
  split; [apply unchanged_app|]. split; [apply fresh_new0|].
  eexists _, _. split.
  - eapply MyReLU_forward_run, lookup_old, Hx.
  - by rewrite !lookup_new0.
Qed.

Lemma MyReLU_backward_pure : pure_backward (A := A) MyReLU.backward.
Proof.
  intros h ctx g gs h' Hg Hv Hrun.
  destruct (MyReLU_backward_inv _ _ _ _ _ Hg Hv Hrun)
    as (x & tx & tg & Hctx & Hx & Hg' & Hpre).
  rewrite (MyReLU_backward_run _ _ _ _ _ _ Hctx Hx Hg' Hpre) in Hrun.
  injection Hrun as <- <-.
  split; [apply unchanged_app|].
  split; [repeat constructor; intros ? [= <-]; apply fresh_new0|].
  eexists _, _. split.
  - eapply MyReLU_backward_run; [done|by eapply lookup_old..|done].
  - unfold values. cbn [fmap list_fmap mbind option_bind]. by rewrite !lookup_new0.
Qed.
Lemma MatrixSum_forward_pure : pure_forward1 (A := A) MatrixSum.forward.
Proof.
  intros h ctx x ctx1 out h' [t Hx] Hrun.
  rewrite (MatrixSum_forward_run _ _ _ _ Hx) in Hrun. injection Hrun as <- <- <-.
  split; [apply unchanged_app|]. split; [apply fresh_new0|].
  eexists _, _. split.
  - eapply MatrixSum_forward_run, lookup_old, Hx.
  - by rewrite !lookup_new0.
Qed.

Lemma MatrixSum_backward_pure : pure_backward (A := A) MatrixSum.backward.
Proof.
  intros h ctx g gs h' Hg Hv Hrun.
  destruct (MatrixSum_backward_inv _ _ _ _ _ Hg Hv Hrun)
    as (x & tx & tg & r & Hctx & Hx & Hg' & Hr).
  rewrite (MatrixSum_backward_run _ _ _ _ _ _ _ Hctx Hx Hg' Hr) in Hrun.
  injection Hrun as <- <-.
  split; [apply unchanged_app|].
  split; [repeat constructor; intros ? [= <-]; apply fresh_new|].
  eexists _, _. split.
  - eapply MatrixSum_backward_run; [done|by eapply lookup_old..|done].
  - unfold values. cbn [fmap list_fmap mbind option_bind]. by rewrite !lookup_new.
Qed.

Lemma MySub_forward_pure (h : heap A) a b alpha out h' :
  valid h a → valid h b → MySub.forward a b alpha h = inr (out, h') →
  unchanged h h' ∧ fresh h out
  ∧ ∃ out2 h'', MySub.forward a b alpha h' = inr (out2, h'')
      ∧ h'' !! out2 = h' !! out.
Proof.
  intros Ha Hb Hrun.
  destruct (MySub_forward_inv _ _ _ _ _ _ Ha Hb Hrun)
    as (ta & tb & r & Ha' & Hb' & Hr).
  rewrite (MySub_forward_run _ _ _ _ _ _ _ Ha' Hb' Hr) in Hrun.
  injection Hrun as <- <-.
  split; [apply unchanged_app|]. split; [apply fresh_new|].
  eexists _, _. split.
  - eapply MySub_forward_run; [by eapply lookup_old..|done].
  - by rewrite !lookup_new.
Qed.

Lemma MySub_apply_pure alpha :
  pure_forward2 (A := A) (λ _ a b, MySub.apply a b alpha).
Proof.
  intros h ctx a b ctx1 out h' Ha Hb Hrun.
  destruct (MySub_apply_inv _ _ _ _ _ _ Ha Hb Hrun)
    as (ta & tb & r & Ha' & Hb' & Hr).
  rewrite (MySub_apply_run _ _ _ _ _ _ _ Ha' Hb' Hr) in Hrun.
  injection Hrun as <- <- <-.
  split; [apply unchanged_app|]. split; [apply fresh_new|].
  eexists _, _. split.
  - eapply MySub_apply_run; [by eapply lookup_old..|done].
  - by rewrite !lookup_new.
Qed.

Lemma MySub_backward_pure : pure_backward (A := A) MySub.backward.
Proof.
  intros h ctx g gs h' Hg Hv Hrun.
  destruct (MySub_backward_inv _ _ _ _ _ Hg Hv Hrun)
    as (a & b & alpha & ta & tb & tg & ra & rb
        & Hctx & Hc & Ha & Hb & Hg' & Hra & Hrb).
  rewrite (MySub_backward_run _ _ _ _ _ _ _ _ _ _ _ Hctx Hc Ha Hb Hg' Hra Hrb)
    in Hrun.
  injection Hrun as <- <-.
  split; [apply unchanged_app|].
  split; [repeat constructor; intros ? [= <-]; apply fresh_new|].
  eexists _, _. split.
  - eapply MySub_backward_run; [done|done|by eapply lookup_old..|done|done].
  - unfold values. cbn [fmap list_fmap mbind option_bind]. by rewrite !lookup_new.
Qed.

Section with_log.
Context {LA : Log A}.

Lemma NonDiffCrossEntropy_forward_pure :
  pure_forward2 (A := A) NonDiffCrossEntropy.forward.
Proof.
  intros h ctx yt yp ctx1 out h' Ht Hp Hrun.
  destruct (NonDiffCrossEntropy_forward_inv _ _ _ _ _ _ Ht Hp Hrun)
    as (tt & tp & N & s & prod & Ht' & Hp' & Hs & Hprod).
  rewrite (NonDiffCrossEntropy_forward_run _ _ _ _ _ _ _ _ _ Ht' Hp' Hs Hprod)
    in Hrun.
  injection Hrun as <- <- <-.
  split; [apply unchanged_app|]. split; [apply fresh_new|].
  eexists _, _. split.
  - eapply NonDiffCrossEntropy_forward_run; [by eapply lookup_old..|done|done].
  - by rewrite !lookup_new.
Qed.

Lemma CustomLoss_forward_pure : pure_forward2 (A := A) CustomLoss.forward.
Proof.
  intros h ctx yp yt ctx1 out h' Hp Ht Hrun.
  destruct (CustomLoss_forward_inv _ _ _ _ _ _ Ht Hp Hrun)
    as (tt & tp & N & s & prod & Ht' & Hp' & Hs & Hprod).
  rewrite (CustomLoss_forward_run _ _ _ _ _ _ _ _ _ Ht' Hp' Hs Hprod) in Hrun.
  injection Hrun as <- <- <-.
  split; [apply unchanged_app|]. split; [apply fresh_new|].
  eexists _, _. split.
  - eapply CustomLoss_forward_run; [by eapply lookup_old..|done|done].
  - by rewrite !lookup_new.
Qed.

Lemma NonDiffCrossEntropy_backward_pure :
  pure_backward (A := A) NonDiffCrossEntropy.backward.
Proof.
  intros h ctx g gs h' Hg Hv Hrun.
  destruct (NonDiffCrossEntropy_backward_inv _ _ _ _ _ Hg Hv Hrun)
    as (yt & yp & tt & tp & tg & N & s & q & r
        & Hctx & Ht & Hp & Hg' & Hs & Hq & Hr).
  rewrite (NonDiffCrossEntropy_backward_run
             _ _ _ _ _ _ _ _ _ _ _ _ Hctx Ht Hp Hg' Hs Hq Hr) in Hrun.
  injection Hrun as <- <-.
  split; [apply unchanged_app|].
  split; [repeat constructor; try done; intros ? [= <-]; apply fresh_new|].
  eexists _, _. split.
  - eapply NonDiffCrossEntropy_backward_run;
      [done|by eapply lookup_old..|done|done|done].
  - unfold values. cbn [fmap list_fmap mbind option_bind]. by rewrite !lookup_new.
Qed.

Lemma CustomLoss_backward_pure : pure_backward (A := A) CustomLoss.backward.
Proof.
  intros h ctx g gs h' Hg Hv Hrun.
  destruct (CustomLoss_backward_inv _ _ _ _ _ Hg Hv Hrun)
    as (yt & yp & tt & tp & tg & N & s & q & r
        & Hctx & Ht & Hp & Hg' & Hs & Hq & Hr).
  rewrite (CustomLoss_backward_run
             _ _ _ _ _ _ _ _ _ _ _ _ Hctx Ht Hp Hg' Hs Hq Hr) in Hrun.
  injection Hrun as <- <-.
  split; [apply unchanged_app|].
  split; [repeat constructor; try done; intros ? [= <-]; apply fresh_new|].
  eexists _, _. split.
  - eapply CustomLoss_backward_run;
      [done|by eapply lookup_old..|done|done|done].
  - unfold values. cbn [fmap list_fmap mbind option_bind]. by rewrite !lookup_new.
Qed.
End with_log.
End purity.

(** C8 — every [forward] and every [backward] is pure as its caller
    sees it: a returning call on valid references changes no tensor of
    the store it was called in (the upstream gradient and the tensors
    saved in the context among them), returns only new tensors, and
    returns equal results when repeated.  [MyReLU.backward] in
    particular zeroes entries of a clone: the tensor it returns is not
    [grad_output], which is still what it was. *)
Theorem forward_backward_pure {A : Type} `{Scalar A} :
  pure_forward1 (A := A) MyReLU.forward
  ∧ pure_backward (A := A) MyReLU.backward
  ∧ pure_forward1 (A := A) MatrixSum.forward
  ∧ pure_backward (A := A) MatrixSum.backward
  ∧ (∀ (h : heap A) a b alpha out h',
       valid h a → valid h b → MySub.forward a b alpha h = inr (out, h') →
       unchanged h h' ∧ fresh h out
       ∧ ∃ out2 h'', MySub.forward a b alpha h' = inr (out2, h'')
           ∧ h'' !! out2 = h' !! out)
  ∧ (∀ alpha, pure_forward2 (A := A) (λ _ a b, MySub.apply a b alpha))
  ∧ pure_backward (A := A) MySub.backward
  ∧ (∀ LA : Log A, pure_forward2 (NonDiffCrossEntropy.forward (LA := LA)))
  ∧ pure_backward (A := A) NonDiffCrossEntropy.backward
  ∧ (∀ LA : Log A, pure_forward2 (CustomLoss.forward (LA := LA)))
  ∧ pure_backward (A := A) CustomLoss.backward
  ∧ (∀ (h : heap A) ctx g tg gs h',
       h !! g = Some tg → Forall (valid h) (saved_tensors ctx) →
       MyReLU.backward ctx g h = inr (gs, h') →
       ∃ dx, gs = [Some dx] ∧ dx ≠ g ∧ h' !! g = Some tg).
Proof.
  split_and!.
  - apply MyReLU_forward_pure.
  - apply MyReLU_backward_pure.
  - apply MatrixSum_forward_pure.
  - apply MatrixSum_backward_pure.
  - apply MySub_forward_pure.
  - apply MySub_apply_pure.
  - apply MySub_backward_pure.
  - intros LA. apply NonDiffCrossEntropy_forward_pure.
  - apply NonDiffCrossEntropy_backward_pure.
  - intros LA. apply CustomLoss_forward_pure.
  - apply CustomLoss_backward_pure.
  - intros h ctx g tg gs h' Hg Hv Hrun.
    assert (valid h g) as Hvg by (by exists tg).
    destruct (MyReLU_backward_inv _ _ _ _ _ Hvg Hv Hrun)
      as (x & tx & tg' & Hctx & Hx & Hg' & Hpre).
    rewrite (MyReLU_backward_run _ _ _ _ _ _ Hctx Hx Hg' Hpre) in Hrun.
    injection Hrun as <- <-.
    exists (length h). split; [done|]. split.
    + apply lookup_lt_Some in Hg. lia.
    + by apply lookup_old.
Qed.

(** The claim at a concrete input: [MyReLU.backward] on binary64. *)
Lemma forward_backward_pure_witness :
  ∃ dx, [Some 2] = [Some dx] ∧ dx ≠ 1
        ∧ [fa23; fg23; Tensor [2; 3] [1; 0; 1; 0; 2; 0]%float] !! 1 = Some fg23.
Proof.
  destruct (forward_backward_pure (A := float))
    as (_ & _ & _ & _ & _ & _ & _ & _ & _ & _ & _ & Hrelu).
  apply (Hrelu [fa23; fg23] (Ctx [0] None) 1 fg23).
  - reflexivity.
  - repeat constructor. by exists fa23.
  - vm_compute. reflexivity.
Defined.

(** *** Division by a zero prediction, on binary64 *)

Lemma Prim2SF_nonfinite x : sf_nonfinite (Prim2SF x) ↔ is_finite x = false.
Proof.
  unfold is_finite.
  pose proof (FloatAxioms.eqb_spec (abs x) infinity) as Hinf.
  rewrite abs_spec in Hinf.
  change (Prim2SF infinity) with (S754_infinity false) in Hinf.
  fold (is_infinity x) in Hinf.
  unfold Prim2SF in *.
  destruct (is_nan x) eqn:Hnan; [simpl; tauto|].
  destruct (is_zero x) eqn:Hz.
  { simpl in Hinf. rewrite Hinf. simpl. split; [tauto|discriminate]. }
  destruct (is_infinity x) eqn:Hi; [simpl; tauto|].
  simpl. destruct (Z.frexp x) as [r e].
  destruct (shr_fexp _ _ _ _ _) as [sh e'].
  destruct (shr_m sh); simpl; split; (tauto || discriminate).
Qed.

Lemma Prim2SF_zero x : is_zero x = true → ∃ s, Prim2SF x = S754_zero s.
Proof.
  intros Hz.
  pose proof (FloatAxioms.eqb_spec x zero) as Hspec.
  fold (is_zero x) in Hspec. rewrite Hz in Hspec.
  change (Prim2SF zero) with (S754_zero false) in Hspec.
  unfold Prim2SF in *.
  destruct (is_nan x); [discriminate|]. rewrite Hz. eauto.
Qed.

(** Any dividend over a zero is an infinity or a NaN. *)
Lemma div_zero_nonfinite x y : is_zero y = true → is_finite (x / y) = false.
Proof.
  intros [s Hy]%Prim2SF_zero. apply Prim2SF_nonfinite.
  rewrite div_spec, Hy. by destruct (Prim2SF x).
Qed.

(** An infinity or a NaN stays one under division and multiplication. *)
Lemma div_nonfinite_l x y : is_finite x = false → is_finite (x / y) = false.
Proof.
  intros Hx%Prim2SF_nonfinite. apply Prim2SF_nonfinite.
  rewrite div_spec. by destruct (Prim2SF x), (Prim2SF y).
Qed.

Lemma mul_nonfinite_l x y : is_finite x = false → is_finite (x * y) = false.
Proof.
  intros Hx%Prim2SF_nonfinite. apply Prim2SF_nonfinite.
  rewrite mul_spec. by destruct (Prim2SF x), (Prim2SF y).
Qed.

Lemma mul_nonfinite_r x y : is_finite y = false → is_finite (x * y) = false.
Proof.
  intros Hy%Prim2SF_nonfinite. apply Prim2SF_nonfinite.
  rewrite mul_spec. by destruct (Prim2SF x), (Prim2SF y).
Qed.

(** C9 — [backward] of both cross-entropy functions divides by the
    saved, unclipped [y_pred]: wherever [y_pred] holds a zero (positive
    or negative), the element of the returned gradient is an infinity or
    a NaN, whatever [y_true], [N] and the upstream gradient are; so a
    gradient with finite elements only is returned only for a [y_pred]
    without zeros. *)
Theorem crossentropy_backward_zero_prediction
    (LA : Log float) (h0 h : heap float) ctx0 yt yp g
    (tt tp : tensor float) N s (c : float) :
  h0 !! yt = Some tt → h0 !! yp = Some tp →
  wf tt → wf tp → shape tt = shape tp → shape tt = N :: s →
  h !! yt = Some tt → h !! yp = Some tp → h !! g = Some (scalar_tensor c) →
  (∃ ctx out h1 dp h' t,
      NonDiffCrossEntropy.forward ctx0 yt yp h0 = inr ((ctx, out), h1)
      ∧ NonDiffCrossEntropy.backward ctx g h = inr ([None; Some dp], h')
      ∧ h' !! dp = Some t
      ∧ (∀ i p, data tp !! i = Some p → is_zero p = true →
           ∃ e, data t !! i = Some e ∧ is_finite e = false)
      ∧ (Forall (λ e, is_finite e = true) (data t) →
         Forall (λ p, is_zero p = false) (data tp)))
  ∧ (∃ ctx out h1 dp h' t,
      CustomLoss.forward ctx0 yp yt h0 = inr ((ctx, out), h1)
      ∧ CustomLoss.backward ctx g h = inr ([Some dp; None], h')
      ∧ h' !! dp = Some t
      ∧ (∀ i p, data tp !! i = Some p → is_zero p = true →
           ∃ e, data t !! i = Some e ∧ is_finite e = false)
      ∧ (Forall (λ e, is_finite e = true) (data t) →
         Forall (λ p, is_zero p = false) (data tp))).
Proof.
  intros Ht0 Hp0 Hwt Hwp Hsh HN Ht Hp Hg.
  assert (ce_terms tt tp
          = Some (Tensor (shape tt)
                    (zip_with s_mul (s_neg <$> data tt)
                       (s_log <$> (s_clip clip_lo clip_hi <$> data tp))))) as Hterms.
  { unfold ce_terms. rewrite (tzip_same (A := float)); [done|..].
    - by apply wf_tmap.
    - by do 2 apply wf_tmap.
    - done. }
  assert (tzip s_div (tmap s_neg tt) tp
          = Some (Tensor (shape tt) (zip_with s_div (s_neg <$> data tt) (data tp))))
    as Hq.
  { rewrite (tzip_same (A := float)); [done|by apply wf_tmap|done..]. }
  assert (wf (tmap (λ a, s_div a (s_of_nat N))
                (Tensor (shape tt) (zip_with s_div (s_neg <$> data tt) (data tp)))))
    as Hwq by (eapply wf_tmap, wf_tzip, Hq).
  assert (length (data tt) = length (data tp)) as Hlen
    by (unfold wf in *; congruence).
  assert (∀ (f : float → float) i p,
            (∀ v, is_finite v = false → is_finite (f v) = false) →
            data tp !! i = Some p → is_zero p = true →
            ∃ e, (f <$> ((λ a, s_div a (s_of_nat N))
                          <$> zip_with s_div (s_neg <$> data tt) (data tp))) !! i
                 = Some e ∧ is_finite e = false) as Hzero.
  { intros f i p Hf Hi Hz.
    destruct (lookup_lt_is_Some_2 (data tt) i) as [a Ha].
    { rewrite Hlen. by eapply lookup_lt_Some. }
    eexists. split.
    - rewrite !list_lookup_fmap, lookup_zip_with, list_lookup_fmap, Ha, Hi.
      reflexivity.
    - apply Hf. simpl. by apply div_nonfinite_l, div_zero_nonfinite. }
  assert (∀ d : list float,
            (∀ i p, data tp !! i = Some p → is_zero p = true →
               ∃ e, d !! i = Some e ∧ is_finite e = false) →
            Forall (λ e, is_finite e = true) d →
            Forall (λ p, is_zero p = false) (data tp)) as Hcontra.
  { intros d Hd Hfin. apply Forall_lookup. intros i p Hi.
    destruct (is_zero p) eqn:Hz; [|done].
    destruct (Hd i p Hi Hz) as (e & He & Hne).
    rewrite Forall_lookup in Hfin. specialize (Hfin i e He). simpl in Hfin.
    congruence. }
  split.
  - eexists _, _, _, _, _, _.
    split; [by eapply NonDiffCrossEntropy_forward_run|].
    split; [eapply NonDiffCrossEntropy_backward_run; [done..|];
            by apply tzip_scalar_r|].
    split; [by rewrite lookup_new|].
    assert (∀ i p, data tp !! i = Some p → is_zero p = true →
              ∃ e, data (tmap (λ a, s_mul a c)
                           (tmap (λ a, s_div a (s_of_nat N))
                              (Tensor (shape tt)
                                 (zip_with s_div (s_neg <$> data tt) (data tp)))))
                   !! i = Some e ∧ is_finite e = false) as Hz.
    { intros i p. apply (Hzero (λ a, s_mul a c)).
      intros v. apply mul_nonfinite_l. }
    split; [exact Hz|]. by apply Hcontra.
  - eexists _, _, _, _, _, _.
    split; [by eapply CustomLoss_forward_run|].
    split; [eapply CustomLoss_backward_run; [done..|];
            by apply tzip_scalar_l|].
    split; [by rewrite lookup_new|].
    assert (∀ i p, data tp !! i = Some p → is_zero p = true →
              ∃ e, data (tmap (s_mul c)
                           (tmap (λ a, s_div a (s_of_nat N))
                              (Tensor (shape tt)
                                 (zip_with s_div (s_neg <$> data tt) (data tp)))))
                   !! i = Some e ∧ is_finite e = false) as Hz.
    { intros i p. apply (Hzero (s_mul c)).
      intros v. apply mul_nonfinite_r. }
    split; [exact Hz|]. by apply Hcontra.
Qed.

(** The claim at a concrete input: the second prediction is 0. *)
Lemma crossentropy_backward_zero_prediction_witness :
  ∃ ctx out h1 dp h' t,
    CustomLoss.forward (LA := no_log) empty_context 1 0 [fyt2; fyp0]
    = inr ((ctx, out), h1)
    ∧ CustomLoss.backward ctx 2 [fyt2; fyp0; fone] = inr ([Some dp; None], h')
    ∧ h' !! dp = Some t
    ∧ ∃ e, data t !! 1 = Some e ∧ is_finite e = false.
Proof.
  destruct (crossentropy_backward_zero_prediction
              no_log [fyt2; fyp0] [fyt2; fyp0; fone] empty_context 0 1 2
              fyt2 fyp0 2 [] 1%float
              eq_refl eq_refl eq_refl eq_refl eq_refl eq_refl
              eq_refl eq_refl eq_refl)
    as [_ (ctx & out & h1 & dp & h' & t & Hfw & Hbw & Ht & Hz & _)].
  exists ctx, out, h1, dp, h', t. repeat split; try assumption.
  exact (Hz 1 0%float eq_refl eq_refl).
Defined.

(** *** The clipped logarithm, over the reals with special values *)

Lemma Forall_expand {A} `{Scalar A} (P : A → Prop) (t : tensor A) s :
  P s_zero → Forall P (data t) → Forall P (expand t s).
Proof.
  intros H0 Ht. unfold expand. apply Forall_fmap, Forall_forall.
  intros i _. simpl. rewrite nth_lookup.
  destruct (data t !! _) as [a|] eqn:Ha; [|done].
  simpl. by eapply Forall_lookup_1.
Qed.

Lemma Forall_zip_with {A} (P : A → Prop) (f : A → A → A) (l k : list A) :
  (∀ a b, P a → P b → P (f a b)) →
  Forall P l → Forall P k → Forall P (zip_with f l k).
Proof.
  intros Hf Hl. revert k. induction Hl as [|a l Ha Hl IH]; intros k Hk; [done|].
  destruct Hk as [|b k Hb Hk]; [done|]. simpl. constructor; auto.
Qed.

Lemma x_clip_between (lo hi p : R) :
  (lo <= hi)%R →
  ∃ q, s_clip (Fin lo) (Fin hi) (Fin p) = Fin q ∧ (lo <= q <= hi)%R.
Proof.
  intros Hle. unfold s_clip, s_min, s_max. cbn [s_lt xreal_scalar x_lt].
  unfold Rltb.
  destruct (Rlt_dec p lo) as [Hlo|Hlo]; cbn [x_lt]; unfold Rltb.
  - destruct (Rlt_dec hi lo); [lra|]. exists lo. split; [done|lra].
  - destruct (Rlt_dec hi p).
    + exists hi. split; [done|lra].
    + exists p. split; [done|lra].
Qed.

Lemma eps_bounds : (0 < / 10 ^ 7 <= 1 - / 10 ^ 7)%R.
Proof.
  assert (0 < / 10 ^ 7)%R by (apply Rinv_0_lt_compat; lra).
  assert (/ 10 ^ 7 < / 2)%R by (apply Rinv_lt_contravar; lra).
  lra.
Qed.

Lemma x_clip_interval p :
  in_clip_interval (s_clip clip_lo clip_hi (Fin p)).
Proof.
  change (clip_lo (A := xreal)) with (Fin (/ 10 ^ 7)).
  change (clip_hi (A := xreal)) with (Fin (1 - / 10 ^ 7)).
  apply x_clip_between, eps_bounds.
Qed.

Lemma x_log_clip_interval x : in_clip_interval x → is_fin (s_log x).
Proof.
  intros (q & -> & Hq). unfold s_log, xreal_log, x_log.
  pose proof eps_bounds.
  destruct (Rlt_dec 0 q); [done|lra].
Qed.

Lemma x_neg_fin x : is_fin x → is_fin (s_neg x).
Proof. by destruct x. Qed.

Lemma x_mul_fin x y : is_fin x → is_fin y → is_fin (s_mul x y).
Proof. by destruct x, y. Qed.

Lemma x_sum_fin (l : list xreal) a :
  is_fin a → Forall is_fin l → is_fin (foldl s_add a l).
Proof.
  intros Ha Hl. revert a Ha. induction Hl as [|x l Hx Hl IH]; intros a Ha; [done|].
  simpl. apply IH. by destruct a, x.
Qed.

Lemma x_div_nat_fin x n : is_fin x → is_fin (s_div x (s_of_nat (S n))).
Proof.
  destruct x as [a| | |]; try done. intros _.
  cbn [s_div s_of_nat xreal_scalar]. unfold x_div.
  destruct (Req_dec_T (INR (S n)) 0) as [E|E]; [|done].
  pose proof (pos_INR n). rewrite S_INR in E. lra.
Qed.

Lemma is_fin_Fin x : is_fin x → ∃ r, x = Fin r.
Proof. destruct x; try done. eauto. Qed.

Lemma x_zero_div_zero : s_div (Fin 0) (s_of_nat 0) = NaN.
Proof.
  cbn [s_div s_of_nat xreal_scalar INR]. unfold x_div.
  destruct (Req_dec_T 0 0) as [_|E]; [|done].
  destruct (Rlt_dec 0 0) as [E|_]; [lra|]. done.
Qed.

(** C7, as stated, fails: on an empty batch ([y_true] and [y_pred] of
    shape [[0]], so that every entry of [y_pred] is in [[0, 1]] and
    every entry of [y_true] is finite) both forwards return the loss
    [0 / 0], a NaN; and on 0-dimensional tensors [y_true.shape[0]]
    raises and no loss is returned at all. *)
Lemma crossentropy_forward_counterexample :
  Forall in_unit_interval (data xempty) ∧ Forall is_fin (data xempty)
  ∧ (∃ ctx out h1,
        CustomLoss.forward empty_context 1 0 [xempty; xempty]
        = inr ((ctx, out), h1)
        ∧ h1 !! out = Some (scalar_tensor NaN))
  ∧ (∃ ctx out h1,
        NonDiffCrossEntropy.forward empty_context 0 1 [xempty; xempty]
        = inr ((ctx, out), h1)
        ∧ h1 !! out = Some (scalar_tensor NaN))
  ∧ Forall in_unit_interval (data xpred) ∧ Forall is_fin (data xlabel)
  ∧ CustomLoss.forward empty_context 1 0 [xlabel; xpred] = inl IndexError
  ∧ NonDiffCrossEntropy.forward empty_context 0 1 [xlabel; xpred]
    = inl IndexError.
Proof.
  assert (ce_loss 0 (Tensor [0] []) = scalar_tensor NaN) as Hnan.
  { unfold ce_loss, tmap, scalar_tensor, tsum. cbn [shape data fmap list_fmap foldl].
    change (s_zero (A := xreal)) with (Fin 0). by rewrite x_zero_div_zero. }
  split_and!; try done.
  - eexists _, _, _. split.
    + by eapply (CustomLoss_forward_run [xempty; xempty] _ 0 1 xempty xempty 0 []).
    + by rewrite lookup_new, <- Hnan.
  - eexists _, _, _. split.
    + by eapply (NonDiffCrossEntropy_forward_run
                   [xempty; xempty] _ 0 1 xempty xempty 0 []).
    + by rewrite lookup_new, <- Hnan.
  - repeat constructor. exists (/ 2)%R. split; [done|]. lra.
  - by repeat constructor.
Qed.

(** C7, amended — for a [y_true] whose first dimension [N] is at least
    1 (in exact arithmetic with the IEEE special values; overflow of
    the products or of the sum is not modelled): when every entry of
    [y_pred] is in [[0, 1]] and every entry of [y_true] is finite, both
    forwards return a finite loss; the tensor handed to the logarithm
    is the clipped copy of [y_pred], whose entries all lie in
    [[1e-7, 1 - 1e-7]]; and the store of the caller, [y_pred] in it, is
    unchanged. *)
Theorem crossentropy_forward_finite
    (h0 : heap xreal) ctx0 yt yp (tt tp : tensor xreal) n s' s :
  h0 !! yt = Some tt → h0 !! yp = Some tp →
  shape tt = S n :: s' → broadcast_shapes (shape tt) (shape tp) = Some s →
  Forall is_fin (data tt) → Forall in_unit_interval (data tp) →
  let clipped := tmap (s_clip clip_lo clip_hi) tp in
  Forall in_clip_interval (data clipped)
  ∧ (∃ ctx out h1 r,
        NonDiffCrossEntropy.forward ctx0 yt yp h0 = inr ((ctx, out), h1)
        ∧ h1 !! out = Some (scalar_tensor (Fin r))
        ∧ h1 !! (length h0) = Some clipped
        ∧ h1 !! (length h0 + 2) = Some (tmap s_log clipped)
        ∧ unchanged h0 h1 ∧ h1 !! yp = Some tp)
  ∧ (∃ ctx out h1 r,
        CustomLoss.forward ctx0 yp yt h0 = inr ((ctx, out), h1)
        ∧ h1 !! out = Some (scalar_tensor (Fin r))
        ∧ h1 !! (length h0) = Some clipped
        ∧ h1 !! (length h0 + 2) = Some (tmap s_log clipped)
        ∧ unchanged h0 h1 ∧ h1 !! yp = Some tp).
Proof.
  intros Ht Hp Hsh Hbs Hfin Hunit clipped.
  assert (Forall in_clip_interval (data clipped)) as Hclip.
  { unfold clipped, tmap. cbn [data]. apply Forall_fmap.
    eapply Forall_impl; [exact Hunit|]. intros x (p & -> & _).
    apply x_clip_interval. }
  set (prod := Tensor s (zip_with s_mul (expand (tmap s_neg tt) s)
                           (expand (tmap s_log clipped) s))).
  assert (ce_terms tt tp = Some prod) as Hprod.
  { unfold ce_terms, tzip. change (shape (tmap s_neg tt)) with (shape tt).
    change (shape (tmap s_log (tmap (s_clip clip_lo clip_hi) tp)))
      with (shape tp).
    by rewrite Hbs. }
  assert (Forall is_fin (data prod)) as Hpf.
  { apply Forall_zip_with; [apply x_mul_fin|..]; apply Forall_expand; try done.
    - cbn [data tmap]. apply Forall_fmap.
      eapply Forall_impl; [exact Hfin|]. apply x_neg_fin.
    - cbn [data tmap]. apply Forall_fmap.
      eapply Forall_impl; [exact Hclip|]. apply x_log_clip_interval. }
  destruct (is_fin_Fin (s_div (tsum prod) (s_of_nat (S n)))) as [r Hr].
  { apply x_div_nat_fin, x_sum_fin; done. }
  assert (ce_loss (S n) prod = scalar_tensor (Fin r)) as Hloss.
  { unfold ce_loss, tmap, scalar_tensor. cbn [shape data fmap list_fmap].
    by rewrite Hr. }
  split; [done|]. split.
  - eexists _, _, _, r.
    split; [by eapply NonDiffCrossEntropy_forward_run|].
    rewrite lookup_new0, !lookup_new, <- Hloss.
    split_and!; try done; [apply unchanged_app|by apply lookup_old].
  - eexists _, _, _, r.
    split; [by eapply CustomLoss_forward_run|].
    rewrite lookup_new0, !lookup_new, <- Hloss.
    split_and!; try done; [apply unchanged_app|by apply lookup_old].
Qed.

(** The amended claim at a concrete input: predictions exactly 0 and 1. *)
Lemma crossentropy_forward_finite_witness :
  (∃ ctx out h1 r,
      NonDiffCrossEntropy.forward empty_context 0 1 [xt2; xp2]
      = inr ((ctx, out), h1)
      ∧ h1 !! out = Some (scalar_tensor (Fin r)) ∧ h1 !! 1 = Some xp2)
  ∧ (∃ ctx out h1 r,
      CustomLoss.forward empty_context 1 0 [xt2; xp2] = inr ((ctx, out), h1)
      ∧ h1 !! out = Some (scalar_tensor (Fin r)) ∧ h1 !! 1 = Some xp2).
Proof.
  assert (Forall is_fin (data xt2)) as Hfin by (by repeat constructor).
  assert (Forall in_unit_interval (data xp2)) as Hunit.
  { repeat constructor; eexists; (split; [reflexivity|lra]). }
  destruct (crossentropy_forward_finite
              [xt2; xp2] empty_context 0 1 xt2 xp2 1 [] [2]
              eq_refl eq_refl eq_refl eq_refl Hfin Hunit)
    as (_ & (ctx & out & h1 & r & Hfw & Hout & _ & _ & _ & Hp)
          & (ctx' & out' & h1' & r' & Hfw' & Hout' & _ & _ & _ & Hp')).
  split.
  - exists ctx, out, h1, r. repeat split; assumption.
  - exists ctx', out', h1', r'. repeat split; assumption.
Defined.

(** *** Gradients as derivatives, over the reals *)

Lemma Rsum_cons (x : R) (l : list R) : Rsum (x :: l) = (x + Rsum l)%R.
Proof. apply foldl_Rplus_cons. Qed.

Lemma Rsum_nil : Rsum [] = 0%R.
Proof. done. Qed.

Lemma Rsum_scale (k : R) (l : list R) : Rsum (Rmult k <$> l) = (k * Rsum l)%R.
Proof.
  induction l as [|x l IH]; [rewrite Rsum_nil; simpl; rewrite Rsum_nil; lra|].
  rewrite fmap_cons, !Rsum_cons, IH. lra.
Qed.

Lemma norm1_cons (x : R) (d : list R) : norm1 (x :: d) = (Rabs x + norm1 d)%R.
Proof. unfold norm1. by rewrite fmap_cons, Rsum_cons. Qed.

Lemma norm1_nonneg (d : list R) : (0 <= norm1 d)%R.
Proof.
  induction d as [|x d IH]; [unfold norm1; simpl; rewrite Rsum_nil; lra|].
  rewrite norm1_cons. pose proof (Rabs_pos x). lra.
Qed.

Lemma dot_cons (a b : R) (u v : list R) :
  dot (a :: u) (b :: v) = (a * b + dot u v)%R.
Proof. unfold dot. simpl zip_with. by rewrite Rsum_cons. Qed.

Lemma dot_nil_l (v : list R) : dot [] v = 0%R.
Proof. done. Qed.

(** A sum of functions of one coordinate each has the derivatives of
    its summands as gradient. *)
Lemma is_gradient_sum {P} (φ ψ : P → R → R) (ps : list P) (xs : list R) :
  Forall2 (λ p x, has_deriv (φ p) x (ψ p x)) ps xs →
  is_gradient (λ d, Rsum (zip_with φ ps d)) xs (zip_with ψ ps xs).
Proof.
  intros Hd. split.
  { apply Forall2_length in Hd. rewrite length_zip_with. lia. }
  induction Hd as [|p x ps xs Hp Hd IH]; intros ε Hε.
  - exists 1%R. split; [lra|]. intros d Hlen _. simpl.
    rewrite Rsum_nil, dot_nil_l.
    replace (0 - 0 - 0)%R with 0%R by lra. rewrite Rabs_R0.
    pose proof (norm1_nonneg d). nra.
  - destruct (Hp ε Hε) as (η1 & Hη1 & H1).
    destruct (IH ε Hε) as (η2 & Hη2 & H2).
    exists (Rmin η1 η2). split; [by apply Rmin_pos|].
    intros [|h d] Hlen Hsmall; [done|].
    apply Forall_cons in Hsmall as [Hh Hsmall].
    simpl in Hlen.
    unfold vadd. simpl zip_with. rewrite !Rsum_cons, dot_cons, norm1_cons.
    specialize (H1 h). specialize (H2 d).
    assert (Rabs h < η1)%R as Hh1.
    { eapply Rlt_le_trans; [exact Hh|apply Rmin_l]. }
    assert (Forall (λ v, Rabs v < η2)%R d) as Hd2.
    { eapply Forall_impl; [exact Hsmall|]. intros v Hv. simpl in Hv.
      eapply Rlt_le_trans; [exact Hv|apply Rmin_r]. }
    specialize (H1 Hh1). specialize (H2 ltac:(lia) Hd2). unfold vadd in H2.
    set (A := (φ p (x + h) - φ p x - ψ p x * h)%R) in *.
    set (B := (Rsum (zip_with φ ps (zip_with Rplus xs d))
               - Rsum (zip_with φ ps xs) - dot (zip_with ψ ps xs) d)%R) in *.
    replace (φ p (x + h) + Rsum (zip_with φ ps (zip_with Rplus xs d))
             - (φ p x + Rsum (zip_with φ ps xs))
             - (ψ p x * h + dot (zip_with ψ ps xs) d))%R
      with (A + B)%R by (unfold A, B; lra).
    pose proof (Rabs_triang A B). lra.
Qed.

(** Gradients only see the function near the point. *)
Lemma is_gradient_ext (F F' : list R → R) (x g : list R) :
  (∀ d, length d = length x → F d = F' d) →
  is_gradient F' x g → is_gradient F x g.
Proof.
  intros HF [Hlen HG]. split; [done|]. intros ε Hε.
  destruct (HG ε Hε) as (η & Hη & Hd). exists η. split; [done|].
  intros d Hl Hs. rewrite !HF; [by apply Hd|done|].
  unfold vadd. rewrite length_zip_with. lia.
Qed.

Lemma has_deriv_scale (k : R) (f : R → R) (x l : R) :
  has_deriv f x l → has_deriv (λ v, k * f v)%R x (k * l)%R.
Proof.
  intros Hf ε Hε.
  destruct (Hf (ε / (Rabs k + 1))%R) as (η & Hη & Hd).
  { apply Rdiv_lt_0_compat; [done|]. pose proof (Rabs_pos k). lra. }
  exists η. split; [done|]. intros h Hh. specialize (Hd h Hh).
  replace (k * f (x + h) - k * f x - k * l * h)%R
    with (k * (f (x + h) - f x - l * h))%R by lra.
  rewrite Rabs_mult.
  pose proof (Rabs_pos k). pose proof (Rabs_pos h).
  pose proof (Rabs_pos (f (x + h) - f x - l * h)%R).
  assert (Rabs k * (ε / (Rabs k + 1)) <= ε)%R.
  { unfold Rdiv. rewrite <- Rmult_assoc, (Rmult_comm (Rabs k)), Rmult_assoc.
    rewrite <- (Rmult_1_r ε) at 2. apply Rmult_le_compat_l; [lra|].
    apply (Rmult_le_reg_r (Rabs k + 1)); [lra|].
    rewrite Rmult_assoc, Rinv_l; lra. }
  transitivity (Rabs k * (ε / (Rabs k + 1) * Rabs h))%R.
  - apply Rmult_le_compat_l; done.
  - rewrite <- Rmult_assoc. apply Rmult_le_compat_r; done.
Qed.

Lemma has_deriv_local (f f' : R → R) (x l η0 : R) :
  (0 < η0)%R → (∀ h, (Rabs h < η0)%R → f (x + h)%R = f' (x + h)%R) →
  has_deriv f' x l → has_deriv f x l.
Proof.
  intros Hη0 Hloc Hf ε Hε. destruct (Hf ε Hε) as (η & Hη & Hd).
  exists (Rmin η η0). split; [by apply Rmin_pos|]. intros h Hh.
  assert (Rabs h < η)%R by (eapply Rlt_le_trans; [exact Hh|apply Rmin_l]).
  assert (Rabs h < η0)%R by (eapply Rlt_le_trans; [exact Hh|apply Rmin_r]).
  rewrite (Hloc h) by done.
  replace (f x) with (f' x); [by apply Hd|].
  specialize (Hloc 0%R). rewrite Rplus_0_r in Hloc. symmetry. apply Hloc.
  rewrite Rabs_R0. done.
Qed.

Lemma has_deriv_ln (x : R) : (0 < x)%R → has_deriv ln x (/ x)%R.
Proof.
  intros Hx ε Hε.
  destruct (derivable_pt_lim_ln x Hx ε Hε) as [δ Hδ].
  exists δ. split; [apply cond_pos|]. intros h Hh.
  destruct (Req_dec h 0) as [->|Hh0].
  { rewrite Rplus_0_r.
    replace (ln x - ln x - / x * 0)%R with 0%R by lra.
    rewrite Rabs_R0. lra. }
  specialize (Hδ h Hh0 Hh).
  replace (ln (x + h) - ln x - / x * h)%R
    with (((ln (x + h) - ln x) / h - / x) * h)%R by (field; split; first [assumption|lra]).
  rewrite Rabs_mult. apply Rmult_le_compat_r; [apply Rabs_pos|]. lra.
Qed.

Lemma has_deriv_exact (f : R → R) (x l η0 : R) :
  (0 < η0)%R →
  (∀ h, (Rabs h < η0)%R → (f (x + h) - f x = l * h)%R) →
  has_deriv f x l.
Proof.
  intros Hη0 Hex ε Hε. exists η0. split; [done|]. intros h Hh.
  rewrite (Hex h Hh). replace (l * h - l * h)%R with 0%R by lra.
  rewrite Rabs_R0. pose proof (Rabs_pos h). nra.
Qed.

Lemma Forall2_of_Forall_r {X Y} (Q : Y → Prop) (T : X → Y → Prop)
    (l : list X) (k : list Y) :
  length l = length k → Forall Q k → (∀ a b, Q b → T a b) → Forall2 T l k.
Proof.
  intros Hlen Hk HT. revert l Hlen.
  induction Hk as [|b k Hb Hk IH]; intros [|a l] Hlen; try done.
  constructor; [by apply HT|]. apply IH. simpl in Hlen. lia.
Qed.

(** **** MyReLU *)

Lemma Rltb_true (x y : R) : (x < y)%R → Rltb x y = true.
Proof. intros Hlt. unfold Rltb. by destruct (Rlt_dec x y). Qed.

Lemma Rltb_false (x y : R) : (y <= x)%R → Rltb x y = false.
Proof. intros Hle. unfold Rltb. destruct (Rlt_dec x y); [lra|done]. Qed.

Lemma relu_has_deriv (g x : R) :
  x ≠ 0%R →
  has_deriv (λ v, g * s_max v s_zero)%R x (if Rltb x 0 then 0 else g)%R.
Proof.
  intros Hx. apply (has_deriv_exact _ _ _ (Rabs x)); [by apply Rabs_pos_lt|].
  intros h Hh. unfold s_max. cbn [s_lt s_zero R_scalar].
  destruct (Rlt_dec x 0) as [Hneg|Hpos].
  - rewrite (Rabs_left x) in Hh by done.
    apply Rabs_def2 in Hh as [??].
    rewrite !Rltb_true by lra. lra.
  - assert (0 < x)%R as Hp by lra.
    rewrite (Rabs_right x) in Hh by lra.
    apply Rabs_def2 in Hh as [??].
    rewrite !Rltb_false by lra. lra.
Qed.

Lemma imap_mask_zip {A} (b : A → bool) (c : A) (gs xs : list A) :
  length xs = length gs →
  imap (λ i a, if nth (i / 1) (b <$> xs) false then c else a) gs
  = zip_with (λ gv xv, if b xv then c else gv) gs xs.
Proof.
  rewrite (imap_ext _ (λ i a, if nth i (b <$> xs) false then c else a))
    by (intros i a _; by rewrite Nat.div_1_r).
  revert xs. induction gs as [|gv gs IH]; intros [|xv xs] Hlen; try done.
  rewrite imap_cons. simpl. f_equal. apply IH. simpl in Hlen. lia.
Qed.

Lemma masked_fill_relu {A} `{Scalar A} (x g : tensor A) :
  length (data x) = length (data g) → shape g = shape x →
  torch.masked_fill (relu_mask x) s_zero g
  = Tensor (shape g)
      (zip_with (λ gv xv, if s_lt xv s_zero then s_zero else gv) (data g) (data x)).
Proof.
  intros Hlen Hs. unfold torch.masked_fill, relu_mask. cbn [mshape mbits].
  rewrite Hs, drop_all. change (numel []) with 1.
  by rewrite (imap_mask_zip (λ a, s_lt a s_zero)).
Qed.

Lemma MyReLU_forward_value {A} `{Scalar A} (x : tensor A) :
  forward_value1 MyReLU.forward x = Some (tmap (λ a, s_max a s_zero) x).
Proof.
  unfold forward_value1.
  by rewrite (MyReLU_forward_run [x] empty_context 0 x eq_refl).
Qed.

Lemma MyReLU_gradients {A} `{Scalar A} (x g : tensor A) :
  wf x → wf g → shape g = shape x →
  gradients1 MyReLU.forward MyReLU.backward x g
  = Some [Some (Tensor (shape g)
                  (zip_with (λ gv xv, if s_lt xv s_zero then s_zero else gv)
                     (data g) (data x)))].
Proof.
  intros Hx Hg Hs. unfold gradients1.
  rewrite (MyReLU_forward_run [x; g] empty_context 0 x eq_refl).
  erewrite (MyReLU_backward_run _ _ 0 1 x g); [|done|done|done|].
  2:{ by rewrite Hs, firstn_all. }
  unfold values. cbn [fmap list_fmap mbind option_bind].
  rewrite lookup_new0. cbn [lookup list_lookup].
  rewrite masked_fill_relu; [done| |done].
  unfold wf in *. congruence.
Qed.

Lemma MyReLU_is_derivative (x g : tensor R) :
  wf x → wf g → shape g = shape x → Forall (λ v, v ≠ 0%R) (data x) →
  ∃ G, gradients1 MyReLU.forward MyReLU.backward x g = Some [Some G]
     ∧ is_gradient
         (objective g (λ d, forward_value1 MyReLU.forward (Tensor (shape x) d)))
         (data x) (data G).
Proof.
  intros Hx Hg Hs Hnz. eexists. split; [by apply MyReLU_gradients|].
  cbn [data].
  eapply is_gradient_ext;
    [|apply (is_gradient_sum (λ gv v, gv * s_max v s_zero)%R
               (λ gv xv, if s_lt xv s_zero then s_zero else gv))].
  - intros d _. unfold objective. rewrite MyReLU_forward_value.
    unfold out_data, tmap, dot. cbn [from_option data].
    by rewrite zip_with_fmap_r.
  - apply (Forall2_of_Forall_r (λ v, v ≠ 0%R)); [|done|].
    + unfold wf in *. congruence.
    + intros gv xv Hv. by apply relu_has_deriv.
Qed.

(** **** MatrixSum *)

Lemma MatrixSum_forward_value {A} `{Scalar A} (x : tensor A) :
  forward_value1 MatrixSum.forward x = Some (scalar_tensor (tsum x)).
Proof.
  unfold forward_value1.
  by rewrite (MatrixSum_forward_run [x] empty_context 0 x eq_refl).
Qed.

Lemma MatrixSum_gradients {A} `{Scalar A} (x : tensor A) (c : A) :
  gradients1 MatrixSum.forward MatrixSum.backward x (scalar_tensor c)
  = Some [Some (tmap (s_mul c) (ones (shape x)))].
Proof.
  unfold gradients1.
  rewrite (MatrixSum_forward_run [x; scalar_tensor c] empty_context 0 x eq_refl).
  erewrite (MatrixSum_backward_run _ _ 0 1 x (scalar_tensor c));
    [|done|done|done|apply tzip_scalar_l, wf_ones].
  unfold values. cbn [fmap list_fmap mbind option_bind].
  by rewrite lookup_new.
Qed.

Lemma fmap_const_replicate {X Y} (k : Y) (l : list X) :
  (λ _, k) <$> l = replicate (length l) k.
Proof. induction l as [|x l IH]; [done|]. cbn. by rewrite <- IH. Qed.

Lemma MatrixSum_is_derivative (x : tensor R) (c : R) :
  wf x →
  ∃ G, gradients1 MatrixSum.forward MatrixSum.backward x (scalar_tensor c)
       = Some [Some G]
     ∧ is_gradient
         (objective (scalar_tensor c)
            (λ d, forward_value1 MatrixSum.forward (Tensor (shape x) d)))
         (data x) (data G).
Proof.
  intros Hx. eexists. split; [by apply MatrixSum_gradients|].
  assert (data (tmap (s_mul c) (ones (shape x)))
          = zip_with (λ cv _ : R, cv * 1)%R
              (replicate (length (data x)) c) (data x)) as ->.
  { unfold tmap, ones. cbn [data]. rewrite fmap_replicate.
    rewrite (zip_with_replicate_l (A := R) (λ cv _, cv * 1)%R) by done.
    rewrite fmap_const_replicate. by rewrite Hx. }
  eapply is_gradient_ext;
    [|apply (is_gradient_sum (λ cv v, cv * v)%R (λ cv _, cv * 1)%R)].
  - intros d Hd. unfold objective. rewrite MatrixSum_forward_value.
    unfold out_data, scalar_tensor, tsum, dot. cbn [from_option data zip_with].
    rewrite (zip_with_replicate_l (A := R) Rmult) by done.
    rewrite Rsum_scale. change (foldl s_add s_zero d) with (Rsum d).
    rewrite Rsum_cons, Rsum_nil. lra.
  - apply (Forall2_of_Forall_r (λ _, True)).
    + by rewrite length_replicate.
    + by apply Forall_true.
    + intros cv xv _. apply (has_deriv_exact _ _ _ 1%R); [lra|].
      intros h _. lra.
Qed.

(** **** MySub *)

Lemma zip_with_zip_l {X Y Z W V} (f : X → W → V) (k : Z → Y → W)
    (gs : list X) (ds : list Z) (bs : list Y) :
  zip_with f gs (zip_with k ds bs)
  = zip_with (λ p v, f p.1 (k v p.2)) (zip gs bs) ds.
Proof.
  revert ds bs. induction gs as [|g gs IH]; intros [|d ds] [|b bs]; try done.
  simpl. f_equal. apply IH.
Qed.

Lemma zip_with_zip_r {X Y Z W V} (f : X → W → V) (k : Y → Z → W)
    (gs : list X) (as_ : list Y) (ds : list Z) :
  zip_with f gs (zip_with k as_ ds)
  = zip_with (λ p v, f p.1 (k p.2 v)) (zip gs as_) ds.
Proof.
  revert as_ ds. induction gs as [|g gs IH]; intros [|a as_] [|d ds]; try done.
  simpl. f_equal. apply IH.
Qed.

Lemma zip_with_fst_zip {X Y Z} (h : X → X) (gs : list X) (bs : list Y) (xs : list Z) :
  length bs = length gs → length xs = length gs →
  zip_with (λ p _, h p.1) (zip gs bs) xs = h <$> gs.
Proof.
  revert bs xs. induction gs as [|g gs IH]; intros [|b bs] [|x xs] ??; try done.
  simpl. f_equal. apply IH; simpl in *; lia.
Qed.

Lemma MySub_forward_value (a b : tensor R) (alpha : R) :
  wf a → wf b → shape b = shape a →
  forward_value2 (λ _ a b, MySub.apply a b (Some alpha)) a b
  = Some (Tensor (shape a) (zip_with Rminus (data a) (Rmult alpha <$> data b))).
Proof.
  intros Ha Hb Hs. unfold forward_value2.
  erewrite (MySub_apply_run [a; b] 0 1 (Some alpha) a b); [done..|].
  rewrite (tzip_same (A := R)); [done|done|by apply wf_tmap|done].
Qed.

Lemma MySub_gradients (a b g : tensor R) (alpha : R) :
  wf a → wf b → wf g → shape b = shape a → shape g = shape a →
  gradients2 (λ _ a b, MySub.apply a b (Some alpha)) MySub.backward a b g
  = Some [Some g; Some (tmap (λ v, v * - alpha)%R g); None].
Proof.
  intros Ha Hb Hg Hsb Hsg. unfold gradients2.
  erewrite (MySub_apply_run [a; b; g] 0 1 (Some alpha) a b); [|done|done|].
  2:{ rewrite (tzip_same (A := R)); [done|done|by apply wf_tmap|done]. }
  assert (broadcast_shapes (shape a) (shape b) = Some (shape a)) as Hbs
    by (rewrite Hsb; apply broadcast_shapes_same).
  destruct (MySub_backward_R [a; b; g] (Ctx [0; 1] (Some alpha)) 0 1 alpha 2
              a b g (shape a)) as (Hra & Hrb & _); [done..|].
  erewrite (MySub_backward_run _ _ 0 1 alpha 2 a b g); [|done..].
  unfold values. cbn [fmap list_fmap mbind option_bind].
  by rewrite !lookup_new.
Qed.

Lemma MySub_is_derivative (a b g : tensor R) (alpha : R) :
  wf a → wf b → wf g → shape b = shape a → shape g = shape a →
  ∃ Ga Gb,
    gradients2 (λ _ a b, MySub.apply a b (Some alpha)) MySub.backward a b g
    = Some [Some Ga; Some Gb; None]
    ∧ is_gradient
        (objective g
           (λ d, forward_value2 (λ _ a b, MySub.apply a b (Some alpha))
                   (Tensor (shape a) d) b))
        (data a) (data Ga)
    ∧ is_gradient
        (objective g
           (λ d, forward_value2 (λ _ a b, MySub.apply a b (Some alpha))
                   a (Tensor (shape b) d)))
        (data b) (data Gb).
Proof.
  intros Ha Hb Hg Hsb Hsg.
  assert (length (data b) = length (data a)) as Hlb by (unfold wf in *; congruence).
  assert (length (data g) = length (data a)) as Hlg by (unfold wf in *; congruence).
  eexists _, _. split; [by apply MySub_gradients|]. split.
  - assert (data g
            = zip_with (λ (p : R * R) (_ : R), p.1)
                (zip (data g) (Rmult alpha <$> data b)) (data a)) as ->.
    { rewrite (zip_with_fst_zip (λ v, v)); [by rewrite list_fmap_id|..].
      - rewrite length_fmap. lia.
      - lia. }
    eapply is_gradient_ext;
      [|apply (is_gradient_sum (λ (p : R * R) v, p.1 * (v - p.2))%R)].
    + intros d Hd. unfold objective.
      rewrite MySub_forward_value; [|unfold wf in *; simpl; congruence|done|done].
      unfold out_data, dot. cbn [from_option data].
      by rewrite zip_with_zip_l.
    + apply (Forall2_of_Forall_r (λ _, True)).
      * rewrite length_zip, length_fmap. lia.
      * by apply Forall_true.
      * intros p xv _. apply (has_deriv_exact _ _ _ 1%R); [lra|].
        intros h _. lra.
  - assert (data (tmap (λ v, v * - alpha)%R g)
            = zip_with (λ (p : R * R) (_ : R), p.1 * - alpha)%R
                (zip (data g) (data a)) (data b)) as ->.
    { rewrite (zip_with_fst_zip (λ v, v * - alpha)%R); [done|lia..]. }
    eapply is_gradient_ext;
      [|apply (is_gradient_sum (λ (p : R * R) v, p.1 * (p.2 - alpha * v))%R)].
    + intros d Hd. unfold objective.
      rewrite MySub_forward_value; [|done|unfold wf in *; simpl; congruence|done].
      unfold out_data, dot. cbn [from_option data].
      by rewrite zip_with_fmap_r, zip_with_zip_r.
    + apply (Forall2_of_Forall_r (λ _, True)).
      * rewrite length_zip. lia.
      * by apply Forall_true.
      * intros p xv _. apply (has_deriv_exact _ _ _ 1%R); [lra|].
        intros h _. lra.
Qed.

(** **** The cross-entropy functions *)

Lemma R_clip_inside (v : R) :
  (/ 10 ^ 7 <= v <= 1 - / 10 ^ 7)%R → s_clip clip_lo clip_hi v = v.
Proof.
  intros [Hlo Hhi]. unfold s_clip, s_min, s_max.
  change (clip_lo (A := R)) with (/ 10 ^ 7)%R.
  change (clip_hi (A := R)) with (1 - / 10 ^ 7)%R.
  cbn [s_lt R_scalar]. rewrite (Rltb_false v) by done.
  by rewrite Rltb_false.
Qed.

Lemma ce_term_has_deriv (k y p : R) :
  (/ 10 ^ 7 < p < 1 - / 10 ^ 7)%R →
  has_deriv (λ v, k * (- y * ln (s_clip clip_lo clip_hi v)))%R p
    (k * (- y * / p))%R.
Proof.
  intros [Hlo Hhi]. pose proof eps_bounds as [Heps _].
  apply (has_deriv_local _ (λ v, (k * - y) * ln v)%R _ _
           (Rmin (p - / 10 ^ 7) (1 - / 10 ^ 7 - p))).
  - apply Rmin_pos; lra.
  - intros h Hh.
    assert (Rabs h < p - / 10 ^ 7)%R
      by (eapply Rlt_le_trans; [exact Hh|apply Rmin_l]).
    assert (Rabs h < 1 - / 10 ^ 7 - p)%R
      by (eapply Rlt_le_trans; [exact Hh|apply Rmin_r]).
    pose proof (Rle_abs h). pose proof (Rle_abs (- h)). rewrite Rabs_Ropp in *.
    rewrite R_clip_inside by lra. lra.
  - replace (k * (- y * / p))%R with ((k * - y) * / p)%R by lra.
    apply has_deriv_scale, has_deriv_ln. lra.
Qed.

Lemma fmap_zip_with_out {X Y Z W} (f : Z → W) (g : X → Y → Z) (l : list X) (k : list Y) :
  f <$> zip_with g l k = zip_with (λ x y, f (g x y)) l k.
Proof.
  revert k. induction l as [|x l IH]; intros [|y k]; try done.
  simpl. f_equal. apply IH.
Qed.

Lemma ce_terms_R (tt tp : tensor R) :
  wf tt → wf tp → shape tp = shape tt →
  ce_terms tt tp
  = Some (Tensor (shape tt)
            (zip_with (λ y v, - y * ln (s_clip clip_lo clip_hi v))%R
               (data tt) (data tp))).
Proof.
  intros Ht Hp Hs. unfold ce_terms.
  rewrite (tzip_same (A := R));
    [|by apply wf_tmap|by do 2 apply wf_tmap|done].
  cbn [shape data tmap]. do 2 f_equal.
  by rewrite zip_with_fmap_l, !zip_with_fmap_r.
Qed.

Lemma ce_quot_R (tt tp : tensor R) :
  wf tt → wf tp → shape tp = shape tt →
  tzip s_div (tmap s_neg tt) tp
  = Some (Tensor (shape tt) (zip_with Rdiv (Ropp <$> data tt) (data tp))).
Proof.
  intros Ht Hp Hs. rewrite (tzip_same (A := R)); [done|by apply wf_tmap|done..].
Qed.

(** The value of both forwards, as a function of the elements of
    [y_pred], paired with the upstream gradient [c]. *)
Lemma ce_objective_sum (c : R) (N : nat) s (dt d : list R) :
  dot [c]
    (data (ce_loss N
             (Tensor s
                (zip_with (λ y v, - y * ln (s_clip clip_lo clip_hi v))%R dt d))))
  = Rsum (zip_with
            (λ y v, c / INR N * (- y * ln (s_clip clip_lo clip_hi v)))%R dt d).
Proof.
  unfold ce_loss, tmap, scalar_tensor, tsum, dot.
  cbn [data shape fmap list_fmap zip_with].
  rewrite Rsum_cons, Rsum_nil.
  rewrite <- (fmap_zip_with_out (Rmult (c / INR N))), Rsum_scale.
  cbn [s_div s_of_nat s_add s_zero R_scalar].
  change (foldl Rplus 0%R ?l) with (Rsum l). lra.
Qed.

Lemma NonDiffCrossEntropy_forward_value (yt yp : tensor R) N s :
  wf yt → wf yp → shape yt = N :: s → shape yp = shape yt →
  forward_value2 NonDiffCrossEntropy.forward yt yp
  = Some (ce_loss N
            (Tensor (shape yt)
               (zip_with (λ y v, - y * ln (s_clip clip_lo clip_hi v))%R
                  (data yt) (data yp)))).
Proof.
  intros Ht Hp HN Hs. unfold forward_value2.
  erewrite (NonDiffCrossEntropy_forward_run [yt; yp] _ 0 1 yt yp N s);
    [done|done|done|done|by apply ce_terms_R].
Qed.

Lemma CustomLoss_forward_value (yt yp : tensor R) N s :
  wf yt → wf yp → shape yt = N :: s → shape yp = shape yt →
  forward_value2 CustomLoss.forward yp yt
  = Some (ce_loss N
            (Tensor (shape yt)
               (zip_with (λ y v, - y * ln (s_clip clip_lo clip_hi v))%R
                  (data yt) (data yp)))).
Proof.
  intros Ht Hp HN Hs. unfold forward_value2.
  erewrite (CustomLoss_forward_run [yp; yt] _ 1 0 yt yp N s);
    [done|done|done|done|by apply ce_terms_R].
Qed.

Lemma NonDiffCrossEntropy_gradients (yt yp : tensor R) N s (c : R) :
  wf yt → wf yp → shape yt = N :: s → shape yp = shape yt →
  gradients2 NonDiffCrossEntropy.forward NonDiffCrossEntropy.backward
    yt yp (scalar_tensor c)
  = Some [None;
          Some (Tensor (shape yt)
                  (zip_with (λ a p, c * (- a / (p * INR N)))%R
                     (data yt) (data yp)))].
Proof.
  intros Ht Hp HN Hs. unfold gradients2.
  erewrite (NonDiffCrossEntropy_forward_run [yt; yp; scalar_tensor c] _ 0 1
              yt yp N s); [|done|done|done|by apply ce_terms_R].
  erewrite (NonDiffCrossEntropy_backward_run _ _ 0 1 2 yt yp (scalar_tensor c) N s);
    [|done|done|done|done|done|by apply ce_quot_R|].
  2:{ apply tzip_scalar_r. eapply wf_tmap, wf_tzip. by apply ce_quot_R. }
  unfold values. cbn [fmap list_fmap mbind option_bind].
  rewrite lookup_new. cbn [lookup list_lookup].
  unfold tmap. cbn [shape data]. by rewrite <- ce_grad_data.
Qed.

Lemma CustomLoss_gradients (yt yp : tensor R) N s (c : R) :
  wf yt → wf yp → shape yt = N :: s → shape yp = shape yt →
  gradients2 CustomLoss.forward CustomLoss.backward yp yt (scalar_tensor c)
  = Some [Some (Tensor (shape yt)
                  (zip_with (λ a p, c * (- a / (p * INR N)))%R
                     (data yt) (data yp)));
          None].
Proof.
  intros Ht Hp HN Hs. unfold gradients2.
  erewrite (CustomLoss_forward_run [yp; yt; scalar_tensor c] _ 1 0
              yt yp N s); [|done|done|done|by apply ce_terms_R].
  erewrite (CustomLoss_backward_run _ _ 1 0 2 yt yp (scalar_tensor c) N s);
    [|done|done|done|done|done|by apply ce_quot_R|].
  2:{ apply tzip_scalar_l. eapply wf_tmap, wf_tzip. by apply ce_quot_R. }
  unfold values. cbn [fmap list_fmap mbind option_bind].
  rewrite lookup_new. cbn [lookup list_lookup].
  unfold tmap. cbn [shape data]. rewrite <- ce_grad_data.
  do 4 f_equal. apply list_fmap_ext. intros _ a _. simpl. lra.
Qed.

(** The gradient both backwards return is the gradient of the
    objective both forwards compute. *)
Lemma ce_is_gradient (c : R) (N : nat) (dt dp : list R) :
  length dt = length dp →
  Forall (λ p, / 10 ^ 7 < p < 1 - / 10 ^ 7)%R dp →
  is_gradient
    (λ d, Rsum (zip_with
                  (λ y v, c / INR N * (- y * ln (s_clip clip_lo clip_hi v)))%R
                  dt d))
    dp (zip_with (λ a p, c * (- a / (p * INR N)))%R dt dp).
Proof.
  intros Hlen Hin.
  rewrite (zip_with_ext _ (λ y p, c / INR N * (- y * / p))%R dt dt dp dp);
    [|intros y p; unfold Rdiv; rewrite Rinv_mult; ring|done|done].
  apply (is_gradient_sum
           (λ y v, c / INR N * (- y * ln (s_clip clip_lo clip_hi v)))%R).
  apply (Forall2_of_Forall_r (λ p, / 10 ^ 7 < p < 1 - / 10 ^ 7)%R); [done..|].
  intros y p Hp. by apply ce_term_has_deriv.
Qed.

Lemma NonDiffCrossEntropy_is_derivative (yt yp : tensor R) N s (c : R) :
  wf yt → wf yp → shape yt = N :: s → shape yp = shape yt →
  Forall (λ p, / 10 ^ 7 < p < 1 - / 10 ^ 7)%R (data yp) →
  ∃ G, gradients2 NonDiffCrossEntropy.forward NonDiffCrossEntropy.backward
         yt yp (scalar_tensor c) = Some [None; Some G]
     ∧ is_gradient
         (objective (scalar_tensor c)
            (λ d, forward_value2 NonDiffCrossEntropy.forward
                    yt (Tensor (shape yp) d)))
         (data yp) (data G).
Proof.
  intros Ht Hp HN Hs Hin. eexists.
  split; [by eapply NonDiffCrossEntropy_gradients|]. cbn [data].
  eapply is_gradient_ext; [|apply (ce_is_gradient c N)]; [|unfold wf in *; congruence|done].
  intros d Hd. unfold objective.
  erewrite NonDiffCrossEntropy_forward_value;
    [|done|unfold wf in *; simpl; congruence|done|done].
  unfold out_data. cbn [from_option]. apply ce_objective_sum.
Qed.

Lemma CustomLoss_is_derivative (yt yp : tensor R) N s (c : R) :
  wf yt → wf yp → shape yt = N :: s → shape yp = shape yt →
  Forall (λ p, / 10 ^ 7 < p < 1 - / 10 ^ 7)%R (data yp) →
  ∃ G, gradients2 CustomLoss.forward CustomLoss.backward
         yp yt (scalar_tensor c) = Some [Some G; None]
     ∧ is_gradient
         (objective (scalar_tensor c)
            (λ d, forward_value2 CustomLoss.forward (Tensor (shape yp) d) yt))
         (data yp) (data G).
Proof.
  intros Ht Hp HN Hs Hin. eexists.
  split; [by eapply CustomLoss_gradients|]. cbn [data].
  eapply is_gradient_ext; [|apply (ce_is_gradient c N)]; [|unfold wf in *; congruence|done].
  intros d Hd. unfold objective.
  erewrite CustomLoss_forward_value;
    [|done|unfold wf in *; simpl; congruence|done|done].
  unfold out_data. cbn [from_option]. apply ce_objective_sum.
Qed.

(** **** The claim and where it stops *)

Lemma Rabs_le_between (a b : R) : (Rabs a <= b)%R → (- b <= a <= b)%R.
Proof.
  intros Hab. pose proof (Rle_abs a). pose proof (Rle_abs (- a)).
  rewrite Rabs_Ropp in *. lra.
Qed.

Lemma relu_objective_at (v : R) :
  objective (Tensor [1] [1%R])
    (λ d, forward_value1 MyReLU.forward (Tensor [1] d)) [v]
  = (if Rltb v 0 then 0 else v)%R.
Proof.
  unfold objective. rewrite MyReLU_forward_value.
  unfold out_data, tmap, dot, s_max. cbn [from_option data fmap list_fmap zip_with].
  rewrite Rsum_cons, Rsum_nil. cbn [s_lt s_zero R_scalar].
  destruct (Rltb v 0); lra.
Qed.

Lemma relu_no_gradient_at_zero (G : list R) :
  ¬ is_gradient
      (objective (Tensor [1] [1%R])
         (λ d, forward_value1 MyReLU.forward (Tensor [1] d)))
      [0%R] G.
Proof.
  intros [Hlen HG]. destruct G as [|γ [|??]]; try done.
  destruct (HG (/ 4)%R) as (η & Hη & Hd); [lra|].
  assert (Rabs (η / 2) < η)%R as Hpos by (rewrite Rabs_right; lra).
  assert (Rabs (- (η / 2)) < η)%R as Hneg by (rewrite Rabs_Ropp, Rabs_right; lra).
  pose proof (Hd [η / 2]%R eq_refl ltac:(by repeat constructor)) as H1.
  pose proof (Hd [- (η / 2)]%R eq_refl ltac:(by repeat constructor)) as H2.
  unfold vadd in H1, H2. cbn [zip_with] in H1, H2.
  rewrite !relu_objective_at in H1, H2.
  rewrite dot_cons, dot_nil_l, norm1_cons in H1, H2.
  unfold norm1 in H1, H2. cbn [fmap list_fmap] in H1, H2.
  rewrite Rsum_nil in H1, H2.
  rewrite (Rltb_false 0 0) in H1, H2 by lra.
  rewrite (Rltb_false (0 + η / 2) 0) in H1 by lra.
  rewrite (Rltb_true (0 + - (η / 2)) 0) in H2 by lra.
  rewrite Rabs_Ropp in H2. rewrite (Rabs_right (η / 2)) in H1, H2 by lra.
  apply Rabs_le_between in H1, H2. nra.
Qed.

(** C2, as stated, fails: [MyReLU.forward] is defined at 0, where
    [backward] passes the upstream gradient through (the mask is
    [inputs < 0]); but the function has no derivative there, so what
    [backward] returns is not one: for a negative perturbation the
    output stays 0 while the gradient predicts the perturbation.  And
    for [MySub] with [b] of shape [[3]] broadcast against [a] of shape
    [[2; 3]], the gradient returned for [b] has six elements where [b]
    has three, so it is the gradient of no function of [b]. *)
Lemma backward_is_derivative_counterexample :
  gradients1 MyReLU.forward MyReLU.backward relu_x0 relu_g1
  = Some [Some (Tensor [1] [1%R])]
  ∧ ¬ is_gradient
        (objective relu_g1 (λ d, forward_value1 MyReLU.forward (Tensor [1] d)))
        (data relu_x0) [1%R]
  ∧ (∀ G, ¬ is_gradient
              (objective relu_g1
                 (λ d, forward_value1 MyReLU.forward (Tensor [1] d)))
              (data relu_x0) G)
  ∧ ∃ Ga Gb,
      gradients2 (λ _ a b, MySub.apply a b (Some 2%R)) MySub.backward a23 b3 g23
      = Some [Some Ga; Some Gb; None]
      ∧ length (data Gb) = 6 ∧ length (data b3) = 3
      ∧ ∀ F, ¬ is_gradient F (data b3) (data Gb).
Proof.
  split_and!.
  - rewrite MyReLU_gradients by done.
    cbn [relu_x0 relu_g1 shape data zip_with s_lt s_zero R_scalar].
    by rewrite Rltb_false by lra.
  - apply relu_no_gradient_at_zero.
  - apply relu_no_gradient_at_zero.
  - eexists _, _. split; [reflexivity|]. split; [reflexivity|].
    split; [reflexivity|]. intros F [Hlen _]. discriminate Hlen.
Qed.

(** C2, amended — the gradient [backward] returns for an input is the
    derivative of the output of [forward] in that input, paired with the
    upstream gradient: for [MyReLU] at inputs without a zero element;
    for [MatrixSum] at every input; for [MySub], in [a] and in [b], when
    [a], [b] and the upstream gradient have one shape; for both
    cross-entropy functions, in [y_pred], when [y_true] and [y_pred]
    have one shape and every element of [y_pred] lies strictly between
    [1e-7] and [1 - 1e-7]. *)
Theorem backward_is_derivative :
  (∀ x g : tensor R,
      wf x → wf g → shape g = shape x → Forall (λ v, v ≠ 0%R) (data x) →
      ∃ G, gradients1 MyReLU.forward MyReLU.backward x g = Some [Some G]
         ∧ is_gradient
             (objective g
                (λ d, forward_value1 MyReLU.forward (Tensor (shape x) d)))
             (data x) (data G))
  ∧ (∀ (x : tensor R) (c : R),
      wf x →
      ∃ G, gradients1 MatrixSum.forward MatrixSum.backward x (scalar_tensor c)
           = Some [Some G]
         ∧ is_gradient
             (objective (scalar_tensor c)
                (λ d, forward_value1 MatrixSum.forward (Tensor (shape x) d)))
             (data x) (data G))
  ∧ (∀ (a b g : tensor R) (alpha : R),
      wf a → wf b → wf g → shape b = shape a → shape g = shape a →
      ∃ Ga Gb,
        gradients2 (λ _ a b, MySub.apply a b (Some alpha)) MySub.backward a b g
        = Some [Some Ga; Some Gb; None]
        ∧ is_gradient
            (objective g
               (λ d, forward_value2 (λ _ a b, MySub.apply a b (Some alpha))
                       (Tensor (shape a) d) b))
            (data a) (data Ga)
        ∧ is_gradient
            (objective g
               (λ d, forward_value2 (λ _ a b, MySub.apply a b (Some alpha))
                       a (Tensor (shape b) d)))
            (data b) (data Gb))
  ∧ (∀ (yt yp : tensor R) N s (c : R),
      wf yt → wf yp → shape yt = N :: s → shape yp = shape yt →
      Forall (λ p, / 10 ^ 7 < p < 1 - / 10 ^ 7)%R (data yp) →
      ∃ G, gradients2 NonDiffCrossEntropy.forward NonDiffCrossEntropy.backward
             yt yp (scalar_tensor c) = Some [None; Some G]
         ∧ is_gradient
             (objective (scalar_tensor c)
                (λ d, forward_value2 NonDiffCrossEntropy.forward
                        yt (Tensor (shape yp) d)))
             (data yp) (data G))
  ∧ (∀ (yt yp : tensor R) N s (c : R),
      wf yt → wf yp → shape yt = N :: s → shape yp = shape yt →
      Forall (λ p, / 10 ^ 7 < p < 1 - / 10 ^ 7)%R (data yp) →
      ∃ G, gradients2 CustomLoss.forward CustomLoss.backward
             yp yt (scalar_tensor c) = Some [Some G; None]
         ∧ is_gradient
             (objective (scalar_tensor c)
                (λ d, forward_value2 CustomLoss.forward (Tensor (shape yp) d) yt))
             (data yp) (data G)).
Proof.
  split_and!.
  - apply MyReLU_is_derivative.
  - apply MatrixSum_is_derivative.
  - apply MySub_is_derivative.
  - apply NonDiffCrossEntropy_is_derivative.
  - apply CustomLoss_is_derivative.
Qed.

(** The claim at concrete inputs: [MyReLU] away from zero, and
    [CustomLoss] at predictions 1/2 and 1/4. *)
Lemma backward_is_derivative_witness :
  (∃ G, gradients1 MyReLU.forward MyReLU.backward x34 g2 = Some [Some G]
      ∧ is_gradient
          (objective g2 (λ d, forward_value1 MyReLU.forward (Tensor [2] d)))
          (data x34) (data G))
  ∧ (∃ G, gradients2 CustomLoss.forward CustomLoss.backward yp2 yt2 one_R
          = Some [Some G; None]
      ∧ is_gradient
          (objective one_R
             (λ d, forward_value2 CustomLoss.forward (Tensor [2] d) yt2))
          (data yp2) (data G)).
Proof.
  destruct backward_is_derivative as (Hrelu & _ & _ & _ & Hce).
  split.
  - apply (Hrelu x34 g2); [reflexivity..|].
    repeat constructor; simpl; lra.
  - apply (Hce yt2 yp2 2 [] 1%R); [reflexivity..|].
    pose proof eps_bounds as [Heps _].
    assert (/ 10 ^ 7 < / 4)%R by (apply Rinv_lt_contravar; lra).
    repeat constructor; simpl; lra.
Defined.

(* ================================================================== *)
(** * Further properties of the notebooks' code *)

(** ** Where the functions raise *)

Section failures.
Context {A : Type} `{Scalar A}.
Implicit Types (h l : heap A) (t : tensor A) (x y : loc) (ctx : context A).

Lemma bind_fail {X Y} (m : M A X) (f : X → M A Y) h e :
  m h = inl e → (m ≫= f) h = inl e.
Proof. intros Hm. unfold mbind, M_bind. by rewrite Hm. Qed.

Lemma binary_fail (f : A → A → A) h x y tx ty :
  h !! x = Some tx → h !! y = Some ty → tzip f tx ty = None →
  torch.binary f x y h = inl RuntimeError.
Proof.
  intros Hx Hy Hz. unfold torch.binary.
  eapply bind_run; [by apply load_run|].
  eapply bind_run; [by apply load_run|]. by rewrite Hz.
Qed.


Lemma shape0_fail h x t :
  h !! x = Some t → shape t = [] → torch.shape0 x h = inl IndexError.
Proof.
  intros Hx Hs. unfold torch.shape0.
  eapply bind_run; [by apply load_run|]. by rewrite Hs.
Qed.

Lemma setitem_mask_fail h x t m (c : A) :
  h !! x = Some t → take (length (mshape m)) (shape t) ≠ mshape m →
  torch.setitem_mask x m c h = inl IndexError.
Proof.
  intros Hx Hm. unfold torch.setitem_mask.
  eapply bind_run; [by apply load_run|].
  by rewrite bool_decide_eq_false_2.
Qed.

Lemma tzip_None (f : A → A → A) (tx ty : tensor A) :
  tzip f tx ty = None ↔ broadcast_shapes (shape tx) (shape ty) = None.
Proof.
  unfold tzip. destruct (broadcast_shapes (shape tx) (shape ty)); simpl; split; done.
Qed.
End failures.

Lemma backward_outcome_inl {A} (r : exn + list (option loc) * heap A) e :
  backward_outcome r = inl e → r = inl e.
Proof. destruct r as [e'|[gs h']]; simpl; [by intros [= ->]|done]. Qed.

Lemma broadcast_shapes_sym s1 s2 : broadcast_shapes s1 s2 = broadcast_shapes s2 s1.
Proof. unfold broadcast_shapes. by rewrite bshape_rev_sym. Qed.

Lemma zip_with_comm {X Y} (f : X → X → Y) (l k : list X) :
  (∀ a b, f a b = f b a) → zip_with f l k = zip_with f k l.
Proof.
  intros Hf. revert k. induction l as [|a l IH]; intros [|b k]; simpl; try done.
  by rewrite Hf, IH.
Qed.

Lemma tzip_comm {A} `{Scalar A} (f : A → A → A) (x y : tensor A) :
  (∀ a b, f a b = f b a) → tzip f x y = tzip f y x.
Proof.
  intros Hf. unfold tzip. rewrite (broadcast_shapes_sym (shape x)).
  destruct (broadcast_shapes (shape y) (shape x)) as [s|]; [|done].
  simpl. by rewrite (zip_with_comm f _ _ Hf).
Qed.

(** Multiplication of binary64 numbers commutes. *)
Lemma SFmul_comm prec emax (x y : spec_float) :
  SFmul prec emax x y = SFmul prec emax y x.
Proof.
  destruct x as [sx|sx| |sx mx ex], y as [sy|sy| |sy my ey]; simpl;
    rewrite ?(xorb_comm sx sy); try reflexivity.
  by rewrite (Pos.mul_comm mx my), (Z.add_comm ex ey).
Qed.

Lemma float_mul_comm (x y : float) : (x * y = y * x)%float.
Proof. apply Prim2SF_inj. rewrite !mul_spec. apply SFmul_comm. Qed.

(** ** The outcome of every call

    One equation per function, as in the runs above, now with the calls
    that raise. *)
Section outcomes.
Context {A : Type} `{Scalar A}.
Implicit Types (h : heap A) (ctx : context A).

Lemma MatrixSum_backward_outcome h ctx x g tx tg :
  saved_tensors ctx = [x] → h !! x = Some tx → h !! g = Some tg →
  backward_outcome (MatrixSum.backward ctx g h)
  = match tzip s_mul tg (ones (shape tx)) with
    | None => inl RuntimeError
    | Some r => inr [Some r]
    end.
Proof.
  intros Hctx Hx Hg. destruct (tzip s_mul tg (ones (shape tx))) as [r|] eqn:Hr.
  - erewrite MatrixSum_backward_run by done. simpl. by rewrite (lookup_new h _ 1).
  - erewrite (run_start (MatrixSum.backward ctx g) h (inl RuntimeError)); [done|].
    unfold MatrixSum.backward. rewrite Hctx. autounfold with prims.
    run_with @ones_like_run.
    apply bind_fail. eapply binary_fail; [lk|lk|done].
Qed.

Lemma MySub_backward_outcome h ctx a b alpha g ta tb tg :
  saved_tensors ctx = [a; b] → constant ctx = Some alpha →
  h !! a = Some ta → h !! b = Some tb → h !! g = Some tg →
  backward_outcome (MySub.backward ctx g h)
  = match tzip s_mul tg (ones (shape ta)) with
    | None => inl RuntimeError
    | Some ra =>
        match tzip s_mul (tmap (λ x, s_mul x (s_neg alpha)) tg) (ones (shape tb)) with
        | None => inl RuntimeError
        | Some rb => inr [Some ra; Some rb; None]
        end
    end.
Proof.
  intros Hctx Hc Ha Hb Hg.
  destruct (tzip s_mul tg (ones (shape ta))) as [ra|] eqn:Hra.
  - destruct (tzip s_mul (tmap _ tg) (ones (shape tb))) as [rb|] eqn:Hrb.
    + erewrite MySub_backward_run by done. simpl.
      by rewrite (lookup_new h _ 1), (lookup_new h _ 4).
    + erewrite (run_start (MySub.backward ctx g) h (inl RuntimeError)); [done|].
      unfold MySub.backward, get_constant. rewrite Hctx, Hc. autounfold with prims.
      eapply bind_run; [reflexivity|].
      run_with @ones_like_run.
      run_with @binary_run.
      run_with @unary_run.
      run_with @ones_like_run.
      apply bind_fail. eapply binary_fail; [lk|lk|done].
  - erewrite (run_start (MySub.backward ctx g) h (inl RuntimeError)); [done|].
    unfold MySub.backward, get_constant. rewrite Hctx, Hc. autounfold with prims.
    eapply bind_run; [reflexivity|].
    run_with @ones_like_run.
    apply bind_fail. eapply binary_fail; [lk|lk|done].
Qed.

Lemma NonDiffCrossEntropy_backward_outcome h ctx yt yp g tt tp tg :
  saved_tensors ctx = [yt; yp] →
  h !! yt = Some tt → h !! yp = Some tp → h !! g = Some tg →
  backward_outcome (NonDiffCrossEntropy.backward ctx g h)
  = match ce_backward_outcome true tt tp tg with
    | inl e => inl e
    | inr r => inr [None; Some r]
    end.
Proof.
  intros Hctx Ht Hp Hg. unfold ce_backward_outcome.
  destruct (shape tt) as [|N s] eqn:Hs.
  { erewrite (run_start (NonDiffCrossEntropy.backward ctx g) h (inl IndexError));
      [done|].
    unfold NonDiffCrossEntropy.backward. rewrite Hctx.
    apply bind_fail. eapply shape0_fail; [lk|done]. }
  destruct (tzip s_div (tmap s_neg tt) tp) as [q|] eqn:Hq.
  2:{ erewrite (run_start (NonDiffCrossEntropy.backward ctx g) h (inl RuntimeError));
        [done|].
      unfold NonDiffCrossEntropy.backward. rewrite Hctx. autounfold with prims.
      eapply bind_run; [eapply shape0_run; [lk|exact Hs]|].
      run_with @unary_run.
      apply bind_fail. eapply binary_fail; [lk|lk|done]. }
  cbn zeta.
  destruct (tzip s_mul _ tg) as [r|] eqn:Hr.
  - erewrite NonDiffCrossEntropy_backward_run by done.
    simpl. rewrite (lookup_new h _ 3). done.
  - erewrite (run_start (NonDiffCrossEntropy.backward ctx g) h (inl RuntimeError));
      [done|].
    unfold NonDiffCrossEntropy.backward. rewrite Hctx. autounfold with prims.
    eapply bind_run; [eapply shape0_run; [lk|exact Hs]|].
    run_with @unary_run.
    run_with @binary_run.
    run_with @unary_run.
    apply bind_fail. eapply binary_fail; [lk|lk|done].
Qed.

Lemma CustomLoss_backward_outcome h ctx yt yp g tt tp tg :
  saved_tensors ctx = [yp; yt] →
  h !! yt = Some tt → h !! yp = Some tp → h !! g = Some tg →
  backward_outcome (CustomLoss.backward ctx g h)
  = match ce_backward_outcome false tt tp tg with
    | inl e => inl e
    | inr r => inr [Some r; None]
    end.
Proof.
  intros Hctx Ht Hp Hg. unfold ce_backward_outcome.
  destruct (shape tt) as [|N s] eqn:Hs.
  { erewrite (run_start (CustomLoss.backward ctx g) h (inl IndexError));
      [done|].
    unfold CustomLoss.backward. rewrite Hctx.
    apply bind_fail. eapply shape0_fail; [lk|done]. }
  destruct (tzip s_div (tmap s_neg tt) tp) as [q|] eqn:Hq.
  2:{ erewrite (run_start (CustomLoss.backward ctx g) h (inl RuntimeError));
        [done|].
      unfold CustomLoss.backward. rewrite Hctx. autounfold with prims.
      eapply bind_run; [eapply shape0_run; [lk|exact Hs]|].
      run_with @unary_run.
      apply bind_fail. eapply binary_fail; [lk|lk|done]. }
  cbn zeta.
  destruct (tzip s_mul tg _) as [r|] eqn:Hr.
  - erewrite CustomLoss_backward_run by done.
    simpl. rewrite (lookup_new h _ 3). done.
  - erewrite (run_start (CustomLoss.backward ctx g) h (inl RuntimeError));
      [done|].
    unfold CustomLoss.backward. rewrite Hctx. autounfold with prims.
    eapply bind_run; [eapply shape0_run; [lk|exact Hs]|].
    run_with @unary_run.
    run_with @binary_run.
    run_with @unary_run.
    apply bind_fail. eapply binary_fail; [lk|lk|done].
Qed.

Section with_log.
Context {LA : Log A}.




End with_log.
End outcomes.

(** ** The domain of the backward and forward passes *)

(** X1 — [MyReLU.backward] returns exactly when the context holds one
    saved tensor whose shape is a prefix of the shape of [grad_output]
    (the mask [inputs < 0] indexes [grad_input]).  With another number
    of saved tensors the unpacking [inputs, = ctx.saved_tensors] raises
    [ValueError]; with a mask that does not fit, the assignment raises
    [IndexError]; otherwise the gradient is returned, in the shape of
    [grad_output]. *)
Theorem MyReLU_backward_domain {A : Type} `{Scalar A}
    (h : heap A) (ctx : context A) (g : loc) (tg : tensor A) :
  h !! g = Some tg →
  (length (saved_tensors ctx) ≠ 1 → MyReLU.backward ctx g h = inl ValueError)
  ∧ (∀ x tx, saved_tensors ctx = [x] → h !! x = Some tx →
       (take (length (shape tx)) (shape tg) ≠ shape tx →
          MyReLU.backward ctx g h = inl IndexError)
       ∧ (take (length (shape tx)) (shape tg) = shape tx →
          ∃ dx h' t, MyReLU.backward ctx g h = inr ([Some dx], h')
            ∧ h' !! dx = Some t ∧ shape t = shape tg)).
Proof.
  intros Hg. split.
  - unfold MyReLU.backward. by destruct (saved_tensors ctx) as [|? [|??]].
  - intros x tx Hctx Hx. split; intros Hpre.
    + apply run_start. unfold MyReLU.backward. rewrite Hctx.
      autounfold with prims.
      run_with @unary_run.
      run_with @lt_num_run.
      apply bind_fail. eapply setitem_mask_fail; [lk|]. by rewrite tmap_id.
    + eexists _, _, _. split; [by eapply MyReLU_backward_run|].
      split; [by rewrite lookup_new0|done].
Qed.

(** X1 at a concrete input: an input of shape [[3]] against a
    [grad_output] of shape [[2; 3]], and a context with two saved
    tensors. *)
Lemma MyReLU_backward_domain_witness :
  MyReLU.backward (Ctx [0] None) 1 [fb3; fa23] = inl IndexError
  ∧ MyReLU.backward (Ctx [0; 0] None) 1 [fb3; fa23] = inl ValueError.
Proof.
  destruct (MyReLU_backward_domain (A := float) [fb3; fa23] (Ctx [0] None) 1 fa23)
    as [_ H1]; [reflexivity|].
  destruct (MyReLU_backward_domain (A := float) [fb3; fa23] (Ctx [0; 0] None) 1 fa23)
    as [H2 _]; [reflexivity|].
  split.
  - apply (H1 0 fb3); [reflexivity|reflexivity|]. vm_compute. discriminate.
  - apply H2. simpl. lia.
Defined.

(** X2 — [MatrixSum.backward] raises [ValueError] unless the context
    holds exactly one saved tensor, and then returns exactly when the
    shape of [grad_outputs] broadcasts with the shape of the input:
    otherwise the product [grad_outputs * dsumdx] raises [RuntimeError].
    The gradient has the broadcast shape. *)
Theorem MatrixSum_backward_domain {A : Type} `{Scalar A}
    (h : heap A) (ctx : context A) (g : loc) (tg : tensor A) :
  h !! g = Some tg →
  (length (saved_tensors ctx) ≠ 1 → MatrixSum.backward ctx g h = inl ValueError)
  ∧ (∀ x tx, saved_tensors ctx = [x] → h !! x = Some tx →
       (broadcast_shapes (shape tg) (shape tx) = None →
          MatrixSum.backward ctx g h = inl RuntimeError)
       ∧ (∀ s, broadcast_shapes (shape tg) (shape tx) = Some s →
          ∃ dx h' t, MatrixSum.backward ctx g h = inr ([Some dx], h')
            ∧ h' !! dx = Some t ∧ shape t = s)).
Proof.
  intros Hg. split.
  - unfold MatrixSum.backward. by destruct (saved_tensors ctx) as [|? [|??]].
  - intros x tx Hctx Hx. split.
    + intros Hb. apply run_start. unfold MatrixSum.backward. rewrite Hctx.
      autounfold with prims.
      run_with @ones_like_run.
      apply bind_fail. eapply binary_fail; [lk|lk|]. by apply tzip_None.
    + intros s Hb.
      destruct (tzip_shape s_mul tg (ones (shape tx)) s) as (r & Hr & Hs); [done|].
      eexists _, _, _. split; [by eapply MatrixSum_backward_run|].
      split; [|exact Hs]. by rewrite lookup_new.
Qed.

(** X2 at a concrete input: an upstream gradient of shape [[3]] for an
    input of shape [[2]]. *)
Lemma MatrixSum_backward_domain_witness :
  MatrixSum.backward (Ctx [0] None) 1 [fyt2; fb3] = inl RuntimeError.
Proof.
  destruct (MatrixSum_backward_domain (A := float) [fyt2; fb3] (Ctx [0] None) 1 fb3)
    as [_ H1]; [reflexivity|].
  apply (H1 0 fyt2); reflexivity.
Defined.

(** X3 — [MySub.forward], and with it [MySub.apply], returns exactly
    when the shapes of [inp] and [other] broadcast; the difference then
    has the broadcast shape and [setup_context] has saved the two inputs
    and [alpha] (1 when absent).  Otherwise the subtraction raises
    [RuntimeError] and no context is set up. *)
Theorem MySub_forward_domain {A : Type} `{Scalar A}
    (h : heap A) (a b : loc) (alpha : option A) (ta tb : tensor A) :
  h !! a = Some ta → h !! b = Some tb →
  (broadcast_shapes (shape ta) (shape tb) = None →
     MySub.forward a b alpha h = inl RuntimeError
     ∧ MySub.apply a b alpha h = inl RuntimeError)
  ∧ (∀ s, broadcast_shapes (shape ta) (shape tb) = Some s →
     ∃ out h' t,
       MySub.forward a b alpha h = inr (out, h')
       ∧ MySub.apply a b alpha h
         = inr ((Ctx [a; b] (Some (default s_one alpha)), out), h')
       ∧ h' !! out = Some t ∧ shape t = s ∧ wf t).
Proof.
  intros Ha Hb. split.
  - intros Hs.
    assert (∀ al, MySub.forward a b al h = inl RuntimeError) as Hf.
    { intros al. apply run_start. unfold MySub.forward. autounfold with prims.
      run_with @unary_run.
      eapply binary_fail; [lk|lk|]. by apply tzip_None. }
    split; [apply Hf|]. unfold MySub.apply. apply bind_fail, Hf.
  - intros s Hs.
    destruct (tzip_shape s_sub ta (tmap (s_mul (default s_one alpha)) tb) s)
      as (r & Hr & Hrs); [done|].
    exists (length h + 1), (h ++ [tmap (s_mul (default s_one alpha)) tb; r]), r.
    split_and!.
    + by eapply MySub_forward_run.
    + by eapply MySub_apply_run.
    + by rewrite lookup_new.
    + done.
    + by eapply wf_tzip.
Qed.

(** X3 at a concrete input: shapes [[2; 3]] and [[2]]. *)
Lemma MySub_forward_domain_witness :
  MySub.forward 0 1 None [fa23; fyt2] = inl RuntimeError
  ∧ MySub.apply 0 1 None [fa23; fyt2] = inl RuntimeError.
Proof.
  destruct (MySub_forward_domain (A := float) [fa23; fyt2] 0 1 None fa23 fyt2)
    as [Hf _]; [reflexivity|reflexivity|].
  apply Hf. reflexivity.
Defined.

(** X4 — [MySub.backward] raises [ValueError] unless the context holds
    two saved tensors, then [AttributeError] if [ctx.constant] was never
    set, then [RuntimeError] if the shape of [grad_out] does not
    broadcast with the shape of either input; otherwise it returns two
    gradients, each in the shape [grad_out] broadcasts to with that
    input, and [None] for [alpha]. *)
Theorem MySub_backward_domain {A : Type} `{Scalar A}
    (h : heap A) (ctx : context A) (g : loc) (tg : tensor A) :
  h !! g = Some tg →
  (length (saved_tensors ctx) ≠ 2 → MySub.backward ctx g h = inl ValueError)
  ∧ (∀ a b ta tb, saved_tensors ctx = [a; b] →
       h !! a = Some ta → h !! b = Some tb →
       (constant ctx = None → MySub.backward ctx g h = inl AttributeError)
       ∧ (is_Some (constant ctx) →
          (broadcast_shapes (shape tg) (shape ta) = None
           ∨ broadcast_shapes (shape tg) (shape tb) = None) →
          MySub.backward ctx g h = inl RuntimeError)
       ∧ (∀ sa sb, is_Some (constant ctx) →
          broadcast_shapes (shape tg) (shape ta) = Some sa →
          broadcast_shapes (shape tg) (shape tb) = Some sb →
          ∃ da db h' tda tdb,
            MySub.backward ctx g h = inr ([Some da; Some db; None], h')
            ∧ h' !! da = Some tda ∧ h' !! db = Some tdb
            ∧ shape tda = sa ∧ shape tdb = sb)).
Proof.
  intros Hg. split.
  - unfold MySub.backward. by destruct (saved_tensors ctx) as [|? [|? [|??]]].
  - intros a b ta tb Hctx Ha Hb. split_and!.
    + intros Hc. unfold MySub.backward. rewrite Hctx.
      apply bind_fail. unfold get_constant. by rewrite Hc.
    + intros [alpha Hc] Hbs. apply run_start.
      unfold MySub.backward, get_constant. rewrite Hctx, Hc.
      autounfold with prims.
      eapply bind_run; [reflexivity|].
      run_with @ones_like_run.
      destruct (tzip s_mul tg (ones (shape ta))) as [ra|] eqn:Hra.
      * destruct Hbs as [Hbs|Hbs].
        { apply tzip_Some_shape in Hra. simpl in Hra. congruence. }
        run_with @binary_run.
        run_with @unary_run.
        run_with @ones_like_run.
        apply bind_fail. eapply binary_fail; [lk|lk|]. by apply tzip_None.
      * apply bind_fail. eapply binary_fail; [lk|lk|done].
    + intros sa sb [alpha Hc] Hsa Hsb.
      destruct (tzip_shape s_mul tg (ones (shape ta)) sa) as (ra & Hra & ?); [done|].
      destruct (tzip_shape s_mul (tmap (λ x, s_mul x (s_neg alpha)) tg)
                  (ones (shape tb)) sb) as (rb & Hrb & ?); [done|].
      eexists _, _, _, ra, rb. split; [by eapply MySub_backward_run|].
      split_and!; [by rewrite lookup_new|by rewrite lookup_new|done..].
Qed.

(** X4 at a concrete input: a context whose [constant] was never set,
    and one with a single saved tensor. *)
Lemma MySub_backward_domain_witness :
  MySub.backward (Ctx [0; 1] None) 2 [fa23; fb3; fg23] = inl AttributeError
  ∧ MySub.backward (Ctx [0] (Some 1%float)) 2 [fa23; fb3; fg23] = inl ValueError.
Proof.
  destruct (MySub_backward_domain (A := float) [fa23; fb3; fg23]
              (Ctx [0; 1] None) 2 fg23) as [_ H1]; [reflexivity|].
  destruct (MySub_backward_domain (A := float) [fa23; fb3; fg23]
              (Ctx [0] (Some 1%float)) 2 fg23) as [H2 _]; [reflexivity|].
  split.
  - apply (H1 0 1 fa23 fb3); reflexivity.
  - apply H2. simpl. lia.
Defined.

(** X5 — the backwards of the two cross-entropy functions, each on the
    context its own forward saves, raise in the same cases: [IndexError]
    when [y_true] is 0-dimensional ([y_true.shape[0]]), [RuntimeError]
    when the shapes of [y_true] and [y_pred] do not broadcast, or when
    what they broadcast to does not broadcast with [grad_output].
    Otherwise both return, and the gradient for [y_pred] has the shape
    the three broadcast to. *)
Theorem crossentropy_backward_domain {A : Type} `{Scalar A}
    (h : heap A) (c c' : option A) (y_true y_pred g : loc) (tt tp tg : tensor A) :
  h !! y_true = Some tt → h !! y_pred = Some tp → h !! g = Some tg →
  let nondiff := NonDiffCrossEntropy.backward (Ctx [y_true; y_pred] c) g h in
  let custom := CustomLoss.backward (Ctx [y_pred; y_true] c') g h in
  (shape tt = [] → nondiff = inl IndexError ∧ custom = inl IndexError)
  ∧ (shape tt ≠ [] → broadcast_shapes (shape tt) (shape tp) = None →
     nondiff = inl RuntimeError ∧ custom = inl RuntimeError)
  ∧ (∀ s, shape tt ≠ [] → broadcast_shapes (shape tt) (shape tp) = Some s →
     broadcast_shapes s (shape tg) = None →
     nondiff = inl RuntimeError ∧ custom = inl RuntimeError)
  ∧ (∀ s s', shape tt ≠ [] → broadcast_shapes (shape tt) (shape tp) = Some s →
     broadcast_shapes s (shape tg) = Some s' →
     ∃ t1 t2, backward_outcome nondiff = inr [None; Some t1]
       ∧ backward_outcome custom = inr [Some t2; None]
       ∧ shape t1 = s' ∧ shape t2 = s').
Proof.
  intros Ht Hp Hg nondiff custom.
  pose proof (NonDiffCrossEntropy_backward_outcome h (Ctx [y_true; y_pred] c)
                y_true y_pred g tt tp tg eq_refl Ht Hp Hg) as Hn.
  pose proof (CustomLoss_backward_outcome h (Ctx [y_pred; y_true] c')
                y_true y_pred g tt tp tg eq_refl Ht Hp Hg) as Hc.
  fold nondiff in Hn. fold custom in Hc.
  unfold ce_backward_outcome in Hn, Hc.
  destruct (shape tt) as [|N s0] eqn:Hs.
  { split_and!; try done. intros _. split; by apply backward_outcome_inl. }
  destruct (tzip s_div (tmap s_neg tt) tp) as [q|] eqn:Hq.
  2:{ apply tzip_None in Hq. cbn [tmap shape] in Hq. rewrite Hs in Hq.
      split_and!; try done; try congruence.
      intros _ _. split; by apply backward_outcome_inl. }
  apply tzip_Some_shape in Hq. cbn [tmap shape] in Hq. rewrite Hs in Hq.
  cbn zeta in Hn, Hc.
  destruct (tzip s_mul (tmap _ q) tg) as [r1|] eqn:Hr1.
  - pose proof (tzip_Some_shape _ _ _ _ Hr1) as Hs1. cbn [tmap shape] in Hs1.
    destruct (tzip s_mul tg (tmap _ q)) as [r2|] eqn:Hr2.
    2:{ apply tzip_None in Hr2. cbn [tmap shape] in Hr2.
        rewrite broadcast_shapes_sym in Hr2. congruence. }
    pose proof (tzip_Some_shape _ _ _ _ Hr2) as Hs2. cbn [tmap shape] in Hs2.
    rewrite broadcast_shapes_sym in Hs2.
    split_and!; try done; try congruence.
    intros s s' _ Hbs Hbs'. exists r1, r2. split_and!; [done|done|congruence..].
  - apply tzip_None in Hr1. cbn [tmap shape] in Hr1.
    destruct (tzip s_mul tg (tmap _ q)) as [r2|] eqn:Hr2.
    { apply tzip_Some_shape in Hr2. cbn [tmap shape] in Hr2.
      rewrite broadcast_shapes_sym in Hr2. congruence. }
    split_and!; try done; try congruence.
    intros s _ Hbs _. split; by apply backward_outcome_inl.
Qed.

(** X5 at a concrete input: a 0-dimensional [y_true]. *)
Lemma crossentropy_backward_domain_witness :
  NonDiffCrossEntropy.backward (Ctx [0; 1] None) 2 [fone; fyp0; fone]
  = inl IndexError
  ∧ CustomLoss.backward (Ctx [1; 0] None) 2 [fone; fyp0; fone] = inl IndexError.
Proof.
  destruct (crossentropy_backward_domain (A := float) [fone; fyp0; fone]
              None None 0 1 2 fone fyp0 fone eq_refl eq_refl eq_refl)
    as [H1 _].
  apply H1. reflexivity.
Defined.

(** ** The two implementations of the cross-entropy *)



(** X7 — the backwards of the two implementations agree as well, for
    every element type whose multiplication commutes (binary64 is one):
    [dy_pred * grad_output] and [grad_output * dy_pred] are the same
    tensor, returned in the second slot by one and in the first by the
    other, and both raise the same exception when they raise. *)
Theorem crossentropy_backwards_agree {A : Type} `{Scalar A}
    (h : heap A) (c c' : option A) (y_true y_pred g : loc) :
  (∀ a b : A, s_mul a b = s_mul b a) →
  valid h y_true → valid h y_pred → valid h g →
  match backward_outcome (NonDiffCrossEntropy.backward (Ctx [y_true; y_pred] c) g h),
        backward_outcome (CustomLoss.backward (Ctx [y_pred; y_true] c') g h) with
  | inl e1, inl e2 => e1 = e2
  | inr [None; Some r1], inr [Some r2; None] => r1 = r2
  | _, _ => False
  end.
Proof.
  intros Hcomm [tt Ht] [tp Hp] [tg Hg].
  erewrite NonDiffCrossEntropy_backward_outcome by done.
  erewrite CustomLoss_backward_outcome by done.
  unfold ce_backward_outcome.
  destruct (shape tt) as [|N s]; [done|].
  destruct (tzip s_div (tmap s_neg tt) tp) as [q|]; [|done].
  cbn zeta. rewrite (tzip_comm s_mul tg _ Hcomm).
  by destruct (tzip s_mul _ tg).
Qed.

(** X7 at a concrete input, on binary64. *)
Lemma crossentropy_backwards_agree_witness :
  match backward_outcome
          (NonDiffCrossEntropy.backward (Ctx [0; 1] None) 2 [fyt2; fyp0; fone]),
        backward_outcome
          (CustomLoss.backward (Ctx [1; 0] None) 2 [fyt2; fyp0; fone]) with
  | inl e1, inl e2 => e1 = e2
  | inr [None; Some r1], inr [Some r2; None] => r1 = r2
  | _, _ => False
  end.
Proof.
  apply (crossentropy_backwards_agree (A := float) [fyt2; fyp0; fone] None None 0 1 2).
  - exact float_mul_comm.
  - by eexists.
  - by eexists.
  - by eexists.
Defined.

(** ** Values of the loss *)

Lemma R_clip_range (v : R) :
  (/ 10 ^ 7 <= s_clip clip_lo clip_hi v <= 1 - / 10 ^ 7)%R.
Proof.
  pose proof eps_bounds as [H0 H1].
  unfold s_clip, s_min, s_max.
  change (clip_lo (A := R)) with (/ 10 ^ 7)%R.
  change (clip_hi (A := R)) with (1 - / 10 ^ 7)%R.
  cbn [s_lt R_scalar]. unfold Rltb.
  destruct (Rlt_dec v (/ 10 ^ 7)); destruct (Rlt_dec _ _); lra.
Qed.

Lemma R_clip_low (v : R) : (v <= / 10 ^ 7)%R → s_clip clip_lo clip_hi v = (/ 10 ^ 7)%R.
Proof.
  intros Hv. pose proof eps_bounds as [H0 H1].
  unfold s_clip, s_min, s_max.
  change (clip_lo (A := R)) with (/ 10 ^ 7)%R.
  change (clip_hi (A := R)) with (1 - / 10 ^ 7)%R.
  cbn [s_lt R_scalar]. unfold Rltb.
  destruct (Rlt_dec v (/ 10 ^ 7)); destruct (Rlt_dec _ _); lra.
Qed.

Lemma R_clip_high (v : R) :
  (1 - / 10 ^ 7 <= v)%R → s_clip clip_lo clip_hi v = (1 - / 10 ^ 7)%R.
Proof.
  intros Hv. pose proof eps_bounds as [H0 H1].
  unfold s_clip, s_min, s_max.
  change (clip_lo (A := R)) with (/ 10 ^ 7)%R.
  change (clip_hi (A := R)) with (1 - / 10 ^ 7)%R.
  cbn [s_lt R_scalar]. unfold Rltb.
  destruct (Rlt_dec v (/ 10 ^ 7)); destruct (Rlt_dec _ _); lra.
Qed.

Lemma ce_term_bounds (y v : R) :
  (0 <= y)%R →
  (y * - ln (1 - / 10 ^ 7) <= - y * ln (s_clip clip_lo clip_hi v)
   <= y * - ln (/ 10 ^ 7))%R.
Proof.
  intros Hy. pose proof eps_bounds as [H0 H1].
  pose proof (R_clip_range v) as [Hlo Hhi].
  set (q := s_clip clip_lo clip_hi v) in *.
  assert (ln (/ 10 ^ 7) <= ln q)%R as Hl.
  { destruct Hlo as [Hlo| <-]; [left; by apply ln_increasing|right; done]. }
  assert (ln q <= ln (1 - / 10 ^ 7))%R as Hh.
  { destruct Hhi as [Hhi| ->]; [left; apply ln_increasing; lra|right; done]. }
  split; nra.
Qed.

Lemma Rsum_zip_with_bounds (f : R → R → R) (lo hi : R) (ys vs : list R) :
  length vs = length ys →
  (∀ y v, 0 <= y → y * lo <= f y v <= y * hi)%R →
  Forall (λ y, 0 <= y)%R ys →
  (Rsum ys * lo <= Rsum (zip_with f ys vs) <= Rsum ys * hi)%R.
Proof.
  intros Hlen Hf Hys. revert vs Hlen.
  induction Hys as [|y ys Hy Hys IH]; intros [|v vs] Hlen; try done.
  - rewrite Rsum_nil. simpl. rewrite Rsum_nil. lra.
  - simpl zip_with. rewrite !Rsum_cons.
    specialize (IH vs ltac:(simpl in Hlen; lia)).
    specialize (Hf y v Hy). lra.
Qed.

Lemma ln_clip_hi_neg : (ln (1 - / 10 ^ 7) < 0)%R.
Proof.
  pose proof eps_bounds as [H0 H1].
  rewrite <- ln_1. apply ln_increasing; lra.
Qed.

(** X8 — over the reals, for labels that are not negative, a first
    dimension [N ≥ 1] and predictions of the labels' shape, the loss of
    both cross-entropy forwards lies between [-ln(1 - 1e-7) · Σy_true / N]
    and [-ln(1e-7) · Σy_true / N], whatever [y_pred] holds: the clipping
    caps the loss, and keeps it from reaching 0 — it is positive as
    soon as the labels do not sum to 0, also for a perfect prediction. *)
Theorem crossentropy_loss_bounds (y_true y_pred : tensor R) (N : nat) (s : list nat) :
  wf y_true → wf y_pred → shape y_true = S N :: s → shape y_pred = shape y_true →
  Forall (λ y, 0 <= y)%R (data y_true) →
  ∃ loss : R,
    forward_value2 CustomLoss.forward y_pred y_true = Some (scalar_tensor loss)
    ∧ forward_value2 NonDiffCrossEntropy.forward y_true y_pred
      = Some (scalar_tensor loss)
    ∧ (Rsum (data y_true) * - ln (1 - / 10 ^ 7) / INR (S N) <= loss
       <= Rsum (data y_true) * - ln (/ 10 ^ 7) / INR (S N))%R
    ∧ (0 <= loss)%R
    ∧ (0 < Rsum (data y_true) → 0 < loss)%R.
Proof.
  intros Ht Hp HN Hs Hy.
  rewrite (CustomLoss_forward_value y_true y_pred (S N) s) by done.
  rewrite (NonDiffCrossEntropy_forward_value y_true y_pred (S N) s) by done.
  set (terms := zip_with (λ y v, - y * ln (s_clip clip_lo clip_hi v))%R
                  (data y_true) (data y_pred)).
  exists (Rsum terms / INR (S N))%R.
  assert (length (data y_pred) = length (data y_true)) as Hlen.
  { unfold wf in *. by rewrite Ht, Hp, Hs. }
  pose proof (Rsum_zip_with_bounds
                (λ y v, - y * ln (s_clip clip_lo clip_hi v))%R
                (- ln (1 - / 10 ^ 7)) (- ln (/ 10 ^ 7))
                (data y_true) (data y_pred) Hlen
                (λ y v Hy0, ce_term_bounds y v Hy0) Hy) as [Hlo Hhi].
  fold terms in Hlo, Hhi.
  assert (0 < INR (S N))%R as HNpos by (apply lt_0_INR; lia).
  assert (0 <= Rsum (data y_true))%R as Hsum.
  { clear -Hy. induction Hy as [|y l Hy0 _ IH]; [rewrite Rsum_nil; lra|].
    rewrite Rsum_cons. lra. }
  pose proof ln_clip_hi_neg as Hneg.
  split_and!.
  - done.
  - done.
  - apply Rmult_le_compat_r; [left; by apply Rinv_0_lt_compat|done].
  - apply Rmult_le_compat_r; [left; by apply Rinv_0_lt_compat|done].
  - apply Rle_trans with (Rsum (data y_true) * - ln (1 - / 10 ^ 7) / INR (S N))%R.
    + apply Rmult_le_pos; [nra|]. left. by apply Rinv_0_lt_compat.
    + apply Rmult_le_compat_r; [left; by apply Rinv_0_lt_compat|done].
  - intros Hpos.
    apply Rlt_le_trans with (Rsum (data y_true) * - ln (1 - / 10 ^ 7) / INR (S N))%R.
    + apply Rmult_lt_0_compat; [nra|]. by apply Rinv_0_lt_compat.
    + apply Rmult_le_compat_r; [left; by apply Rinv_0_lt_compat|done].
Qed.

(** X8 at a concrete input: labels [[1; 0]], predictions [[1/2; 1/4]]. *)
Lemma crossentropy_loss_bounds_witness :
  ∃ loss : R,
    forward_value2 CustomLoss.forward yp2 yt2 = Some (scalar_tensor loss)
    ∧ forward_value2 NonDiffCrossEntropy.forward yt2 yp2 = Some (scalar_tensor loss)
    ∧ (Rsum (data yt2) * - ln (1 - / 10 ^ 7) / INR 2 <= loss
       <= Rsum (data yt2) * - ln (/ 10 ^ 7) / INR 2)%R
    ∧ (0 <= loss)%R
    ∧ (0 < Rsum (data yt2) → 0 < loss)%R.
Proof.
  apply (crossentropy_loss_bounds yt2 yp2 1 []); try reflexivity.
  repeat constructor; simpl; lra.
Defined.

(** ** Composition *)

(** X9 — [MyReLU.forward] is idempotent: applied to its own output it
    returns an equal tensor, and no element of the output compares
    below 0.  This holds for every element type in which [0 < 0] is
    false, binary64 (with its NaN) among them. *)
Theorem MyReLU_forward_idempotent {A : Type} `{Scalar A}
    (h : heap A) (ctx ctx' : context A) (x : loc) ctx1 out h1 :
  s_lt (s_zero : A) s_zero = false →
  valid h x →
  MyReLU.forward ctx x h = inr ((ctx1, out), h1) →
  ∃ t ctx2 out2 h2,
    h1 !! out = Some t
    ∧ Forall (λ a, s_lt a s_zero = false) (data t)
    ∧ MyReLU.forward ctx' out h1 = inr ((ctx2, out2), h2)
    ∧ h2 !! out2 = Some t.
Proof.
  intros H0 [tx Hx] Hrun.
  rewrite (MyReLU_forward_run h ctx x tx Hx) in Hrun.
  injection Hrun as <- <- <-.
  set (t := tmap (λ a, s_max a s_zero) tx).
  assert ((h ++ [t]) !! length h = Some t) as Hout by (by rewrite lookup_new0).
  exists t. eexists _, _, _. split; [done|]. split.
  { unfold t, tmap. simpl. apply Forall_fmap, Forall_forall. intros a _. simpl.
    unfold s_max. destruct (s_lt a s_zero) eqn:Ha; done. }
  split; [by apply MyReLU_forward_run|].
  rewrite lookup_new0. simpl. f_equal. unfold t, tmap. simpl. f_equal.
  rewrite <- list_fmap_compose. apply list_fmap_ext. intros _ a _. simpl.
  unfold s_max. destruct (s_lt a s_zero) eqn:Ha; [by rewrite H0|by rewrite Ha].
Qed.

(** X9 at a concrete input, on binary64. *)
Lemma MyReLU_forward_idempotent_witness :
  ∃ t ctx2 out2 h2,
    [fa23; tmap (λ a, s_max a s_zero) fa23] !! 1 = Some t
    ∧ Forall (λ a, s_lt a s_zero = false) (data t)
    ∧ MyReLU.forward empty_context 1 [fa23; tmap (λ a, s_max a s_zero) fa23]
      = inr ((ctx2, out2), h2)
    ∧ h2 !! out2 = Some t.
Proof.
  apply (MyReLU_forward_idempotent (A := float) [fa23] empty_context empty_context 0
           (save_for_backward empty_context [0]) 1
           [fa23; tmap (λ a, s_max a s_zero) fa23]).
  - reflexivity.
  - by eexists.
  - reflexivity.
Defined.

Lemma expand_tmap_Rmult (k : R) (t : tensor R) s :
  expand (tmap (Rmult k) t) s = Rmult k <$> expand t s.
Proof.
  unfold expand, tmap. cbn [shape data]. rewrite <- list_fmap_compose.
  apply list_fmap_ext. intros _ i _. simpl.
  change (Rmult k <$> data t) with (map (Rmult k) (data t)).
  replace (0%R) with (k * 0)%R at 1 by lra. apply map_nth.
Qed.

Lemma zip_with_sub_sub (α β : R) (xs ys : list R) :
  zip_with Rminus (zip_with Rminus xs (Rmult α <$> ys)) (Rmult β <$> ys)
  = zip_with Rminus xs (Rmult (α + β) <$> ys).
Proof.
  revert ys. induction xs as [|x xs IH]; intros [|y ys]; simpl; try done.
  rewrite <- IH. f_equal. lra.
Qed.

(** X10 — over the reals, subtracting [other] twice is subtracting it
    once with the sum of the coefficients: when [MySub.forward(a, b, α)]
    returns [out], [MySub.forward(out, b, β)] returns what
    [MySub.forward(a, b, α + β)] returns, broadcasting included.  With
    [β = -α] the second call undoes the first. *)
Theorem MySub_forward_compose (h : heap R) (a b : loc) (ta tb : tensor R)
    (α β : R) out1 h1 :
  h !! a = Some ta → h !! b = Some tb →
  MySub.forward a b (Some α) h = inr (out1, h1) →
  ∃ out2 h2 out3 h3 t,
    MySub.forward out1 b (Some β) h1 = inr (out2, h2)
    ∧ MySub.forward a b (Some (α + β)%R) h = inr (out3, h3)
    ∧ h2 !! out2 = Some t ∧ h3 !! out3 = Some t.
Proof.
  intros Ha Hb Hrun.
  destruct (MySub_forward_inv h a b (Some α) out1 h1)
    as (ta' & tb' & r1 & Ha' & Hb' & Hr1); [by eexists|by eexists|done|].
  rewrite Ha in Ha'. rewrite Hb in Hb'. injection Ha' as <-. injection Hb' as <-.
  rewrite (MySub_forward_run h a b (Some α) ta tb r1 Ha Hb Hr1) in Hrun.
  injection Hrun as <- <-.
  pose proof (tzip_Some_shape _ _ _ _ Hr1) as Hs. cbn [tmap shape] in Hs.
  pose proof (wf_tzip _ _ _ _ Hr1) as Hwf.
  apply broadcast_shapes_expands in Hs as (_ & Hsb & _ & Hss).
  cbn [default] in *.
  set (t := Tensor (shape r1)
              (zip_with Rminus (expand ta (shape r1))
                 (Rmult (α + β) <$> expand tb (shape r1)))).
  assert (tzip s_sub r1 (tmap (s_mul β) tb) = Some t) as H2.
  { unfold tzip. cbn [tmap shape]. rewrite Hss. cbn [mbind option_bind].
    unfold t. do 2 f_equal.
    rewrite (expand_same r1 Hwf).
    change (s_mul β) with (Rmult β). rewrite expand_tmap_Rmult.
    unfold tzip in Hr1. cbn [tmap shape] in Hr1.
    destruct (broadcast_shapes (shape ta) (shape tb)) as [s|] eqn:Hs; [|done].
    cbn [mbind option_bind] in Hr1. injection Hr1 as <-. cbn [data shape].
    change (s_mul α) with (Rmult α). rewrite expand_tmap_Rmult.
    apply zip_with_sub_sub. }
  assert (tzip s_sub ta (tmap (s_mul (α + β)%R) tb) = Some t) as H3.
  { unfold tzip in Hr1 |- *. cbn [tmap shape] in Hr1 |- *.
    destruct (broadcast_shapes (shape ta) (shape tb)) as [s|] eqn:Hs; [|done].
    cbn [mbind option_bind] in Hr1 |- *. injection Hr1 as <-. cbn [shape].
    unfold t. cbn [shape]. do 2 f_equal.
    change (s_mul (α + β)%R) with (Rmult (α + β)). by rewrite expand_tmap_Rmult. }
  eexists _, _, _, _, t. split_and!.
  - eapply (MySub_forward_run _ _ _ (Some β) r1 tb t); [|by apply lookup_old|done].
    by rewrite lookup_new.
  - by eapply (MySub_forward_run _ _ _ (Some (α + β)%R) ta tb t).
  - rewrite length_app. simpl.
    replace (length h + 2 + 1) with (length (h ++ [tmap (s_mul α) tb; r1]) + 1)
      by (rewrite length_app; simpl; lia).
    by rewrite lookup_new.
  - by rewrite lookup_new.
Qed.

(** X10 at a concrete input: [a] of shape [[2; 3]], [b] of shape [[3]],
    coefficients 2 and 3. *)
Lemma MySub_forward_compose_witness :
  ∃ out1 h1 out2 h2 out3 h3 t,
    MySub.forward 0 1 (Some 2%R) [a23; b3] = inr (out1, h1)
    ∧ MySub.forward out1 1 (Some 3%R) h1 = inr (out2, h2)
    ∧ MySub.forward 0 1 (Some (2 + 3)%R) [a23; b3] = inr (out3, h3)
    ∧ h2 !! out2 = Some t ∧ h3 !! out3 = Some t.
Proof.
  epose proof (MySub_forward_compose [a23; b3] 0 1 a23 b3 2 3 _ _
                 eq_refl eq_refl eq_refl) as (out2 & h2 & out3 & h3 & t & H).
  by eexists _, _, out2, h2, out3, h3, t.
Defined.

(** ** What the backward passes read *)

(** X11 — [MatrixSum.backward] and [MySub.backward] read nothing but the
    shapes of the tensors [forward] saved: on two stores that hold the
    same upstream gradient and saved tensors of equal shapes, whatever
    their elements, each returns equal gradients or raises the same
    exception. *)
Theorem linear_backward_reads_shapes_only {A : Type} `{Scalar A}
    (h1 h2 : heap A) (ctx : context A) (g : loc) (tg : tensor A) :
  h1 !! g = Some tg → h2 !! g = Some tg →
  Forall (λ x, ∃ t1 t2, h1 !! x = Some t1 ∧ h2 !! x = Some t2
                        ∧ shape t1 = shape t2) (saved_tensors ctx) →
  backward_outcome (MatrixSum.backward ctx g h1)
  = backward_outcome (MatrixSum.backward ctx g h2)
  ∧ backward_outcome (MySub.backward ctx g h1)
    = backward_outcome (MySub.backward ctx g h2).
Proof.
  intros Hg1 Hg2 Hsaved.
  destruct (saved_tensors ctx) as [|x [|y [|z l]]] eqn:Hctx.
  - unfold MatrixSum.backward, MySub.backward. by rewrite Hctx.
  - apply Forall_cons in Hsaved as [(t1 & t2 & Hx1 & Hx2 & Hs) _]. split.
    + rewrite (MatrixSum_backward_outcome h1 ctx x g t1 tg) by done.
      rewrite (MatrixSum_backward_outcome h2 ctx x g t2 tg) by done.
      by rewrite Hs.
    + unfold MySub.backward. by rewrite Hctx.
  - apply Forall_cons in Hsaved as [(t1 & t2 & Hx1 & Hx2 & Hs) Hsaved].
    apply Forall_cons in Hsaved as [(u1 & u2 & Hy1 & Hy2 & Hu) _]. split.
    + unfold MatrixSum.backward. by rewrite Hctx.
    + destruct (constant ctx) as [alpha|] eqn:Hc.
      * rewrite (MySub_backward_outcome h1 ctx x y alpha g t1 u1 tg) by done.
        rewrite (MySub_backward_outcome h2 ctx x y alpha g t2 u2 tg) by done.
        by rewrite Hs, Hu.
      * unfold MySub.backward, get_constant. rewrite Hctx.
        unfold mbind, M_bind. by rewrite Hc.
  - unfold MatrixSum.backward, MySub.backward. by rewrite Hctx.
Qed.

(** X11 at a concrete input, on binary64: two inputs of shape [[2; 3]]
    with different elements. *)
Lemma linear_backward_reads_shapes_only_witness :
  backward_outcome (MatrixSum.backward (Ctx [0] None) 1 [fa23; fone])
  = backward_outcome (MatrixSum.backward (Ctx [0] None) 1 [fg23; fone])
  ∧ backward_outcome (MySub.backward (Ctx [0] None) 1 [fa23; fone])
    = backward_outcome (MySub.backward (Ctx [0] None) 1 [fg23; fone]).
Proof.
  apply (linear_backward_reads_shapes_only (A := float) [fa23; fone] [fg23; fone]
           (Ctx [0] None) 1 fone eq_refl eq_refl).
  repeat constructor. by exists fa23, fg23.
Defined.

(** ** Finite differences

    The notebooks check their functions with [gradcheck], which compares
    the gradient [backward] returns with central finite differences of
    [forward]. *)

Lemma dot_zip_alter {P} (φ : P → R → R) (h1 h2 : R → R)
    (g : list R) (ps : list P) (x : list R) (i : nat) (gi : R) (p : P) (xi : R) :
  g !! i = Some gi → ps !! i = Some p → x !! i = Some xi →
  (dot g (zip_with φ ps (alter h1 i x)) - dot g (zip_with φ ps (alter h2 i x))
   = gi * (φ p (h1 xi) - φ p (h2 xi)))%R.
Proof.
  revert g ps x. induction i as [|i IH]; intros [|g0 g] [|p0 ps] [|x0 x] Hg Hp Hx;
    try done; simpl in *.
  - injection Hg as ->. injection Hp as ->. injection Hx as ->.
    rewrite !dot_cons. lra.
  - rewrite !dot_cons. specialize (IH g ps x Hg Hp Hx).
    change (list_alter ?f i x) with (alter f i x). lra.
Qed.

Lemma Rsum_zip_alter {P} (φ : P → R → R) (h1 h2 : R → R)
    (ps : list P) (x : list R) (i : nat) (p : P) (xi : R) :
  ps !! i = Some p → x !! i = Some xi →
  (Rsum (zip_with φ ps (alter h1 i x)) - Rsum (zip_with φ ps (alter h2 i x))
   = φ p (h1 xi) - φ p (h2 xi))%R.
Proof.
  revert ps x. induction i as [|i IH]; intros [|p0 ps] [|x0 x] Hp Hx;
    try done; simpl in *.
  - injection Hp as ->. injection Hx as ->. rewrite !Rsum_cons. lra.
  - rewrite !Rsum_cons. specialize (IH ps x Hp Hx).
    change (list_alter ?f i x) with (alter f i x). lra.
Qed.

Lemma Rsum_alter (h1 h2 : R → R) (x : list R) (i : nat) (xi : R) :
  x !! i = Some xi →
  (Rsum (alter h1 i x) - Rsum (alter h2 i x) = h1 xi - h2 xi)%R.
Proof.
  revert x. induction i as [|i IH]; intros [|x0 x] Hx; try done; simpl in *.
  - injection Hx as ->. rewrite !Rsum_cons. lra.
  - rewrite !Rsum_cons. specialize (IH x Hx).
    change (list_alter ?f i x) with (alter f i x). lra.
Qed.

Lemma fmap_as_zip_with {X Y} (f : X → Y) (l k : list X) :
  length l = length k → f <$> k = zip_with (λ _ v, f v) l k.
Proof.
  revert k. induction l as [|a l IH]; intros [|b k] Hlen; simpl in *; try done.
  f_equal. apply IH. lia.
Qed.

Lemma relu_objective (g : tensor R) (s : list nat) (d : list R) :
  objective g (λ d, forward_value1 MyReLU.forward (Tensor s d)) d
  = dot (data g) ((λ v, s_max v s_zero) <$> d).
Proof. unfold objective. by rewrite MyReLU_forward_value. Qed.

Lemma MatrixSum_objective (c : R) (s : list nat) (d : list R) :
  objective (scalar_tensor c)
    (λ d, forward_value1 MatrixSum.forward (Tensor s d)) d
  = (c * Rsum d)%R.
Proof.
  unfold objective. rewrite MatrixSum_forward_value.
  unfold out_data, scalar_tensor, tsum, dot. cbn [from_option data zip_with].
  rewrite Rsum_cons, Rsum_nil. cbn [s_add s_zero R_scalar].
  change (foldl Rplus 0%R d) with (Rsum d). lra.
Qed.

(** X12 — over the reals, for an input and an upstream gradient of one
    shape and every step [eps > 0]: in a coordinate whose input is at
    least [eps] away from 0, the central finite difference of
    [MyReLU.forward] is exactly the element [MyReLU.backward] returns;
    within [eps] of 0 it is [g·(x + eps)/(2·eps)], which is neither the
    [g] that [backward] returns for [x ≥ 0] nor the 0 it returns for
    [x < 0]. *)
Theorem MyReLU_finite_difference (x g : tensor R) (i : nat) (xi gi eps : R) :
  wf x → wf g → shape g = shape x →
  data x !! i = Some xi → data g !! i = Some gi → (0 < eps)%R →
  ∃ G cd,
    gradients1 MyReLU.forward MyReLU.backward x g = Some [Some G]
    ∧ cd = central_difference
             (objective g (λ d, forward_value1 MyReLU.forward (Tensor (shape x) d)))
             (data x) i eps
    ∧ (eps <= Rabs xi → data G !! i = Some cd)%R
    ∧ (Rabs xi < eps → cd = gi * (xi + eps) / (2 * eps))%R.
Proof.
  intros Hx Hg Hs Hxi Hgi Heps.
  eexists _, _. split; [by apply MyReLU_gradients|]. split; [reflexivity|].
  unfold central_difference. rewrite !relu_objective.
  rewrite !(fmap_as_zip_with (λ v, s_max v s_zero) (data x))
    by (by rewrite length_alter).
  rewrite (dot_zip_alter (λ _ v, s_max v s_zero) _ _ (data g) (data x) (data x)
             i gi xi xi Hgi Hxi Hxi).
  cbn [data]. rewrite lookup_zip_with, Hgi, Hxi. cbn [mbind option_bind].
  unfold s_max. cbn [s_lt s_zero R_scalar]. unfold Rltb.
  split.
  - intros Habs. f_equal.
    unfold Rabs in Habs.
    destruct (Rcase_abs xi), (Rlt_dec xi 0), (Rlt_dec (xi + eps) 0),
      (Rlt_dec (xi - eps) 0); simpl; try lra;
      try (replace (xi + eps)%R with 0%R by lra); field; lra.
  - intros Habs. apply Rabs_def2 in Habs.
    destruct (Rlt_dec (xi + eps) 0), (Rlt_dec (xi - eps) 0); simpl; lra.
Qed.

(** X12 at a concrete input: the first coordinate of an input of shape
    [[2; 3]], step 1/2. *)
Lemma MyReLU_finite_difference_witness :
  ∃ G cd,
    gradients1 MyReLU.forward MyReLU.backward a23 g23 = Some [Some G]
    ∧ cd = central_difference
             (objective g23
                (λ d, forward_value1 MyReLU.forward (Tensor (shape a23) d)))
             (data a23) 0 (/ 2)
    ∧ (/ 2 <= Rabs 1 → data G !! 0%nat = Some cd)%R
    ∧ (Rabs 1 < / 2 → cd = 1 * (1 + / 2) / (2 * / 2))%R.
Proof.
  apply (MyReLU_finite_difference a23 g23 0 1 1 (/ 2)); try reflexivity. lra.
Defined.

(** X13 — over the reals, for [MatrixSum] and for [MySub] (in [a] and
    in [b], inputs and upstream gradient of one shape) the central
    finite difference is exactly the element [backward] returns, in
    every coordinate and for every step [eps ≠ 0]: these functions are
    linear. *)
Theorem linear_finite_difference (eps : R) (i : nat) :
  eps ≠ 0%R →
  (∀ (x : tensor R) (c : R), wf x → i < length (data x) →
     ∃ G, gradients1 MatrixSum.forward MatrixSum.backward x (scalar_tensor c)
          = Some [Some G]
        ∧ data G !! i
          = Some (central_difference
                    (objective (scalar_tensor c)
                       (λ d, forward_value1 MatrixSum.forward (Tensor (shape x) d)))
                    (data x) i eps))
  ∧ (∀ (a b g : tensor R) (alpha : R),
       wf a → wf b → wf g → shape b = shape a → shape g = shape a →
       i < length (data a) →
       ∃ Ga Gb,
         gradients2 (λ _ a b, MySub.apply a b (Some alpha)) MySub.backward a b g
         = Some [Some Ga; Some Gb; None]
         ∧ data Ga !! i
           = Some (central_difference
                     (objective g
                        (λ d, forward_value2 (λ _ a b, MySub.apply a b (Some alpha))
                                (Tensor (shape a) d) b))
                     (data a) i eps)
         ∧ data Gb !! i
           = Some (central_difference
                     (objective g
                        (λ d, forward_value2 (λ _ a b, MySub.apply a b (Some alpha))
                                a (Tensor (shape b) d)))
                     (data b) i eps)).
Proof.
  intros Heps. split.
  - intros x c Hx Hi.
    eexists. split; [apply MatrixSum_gradients|].
    destruct (lookup_lt_is_Some_2 (data x) i Hi) as [xi Hxi].
    unfold central_difference. rewrite !MatrixSum_objective.
    replace (c * Rsum (alter (λ v, v + eps) i (data x))
             - c * Rsum (alter (λ v, v - eps) i (data x)))%R
      with (c * (Rsum (alter (λ v, v + eps)%R i (data x))
                 - Rsum (alter (λ v, v - eps)%R i (data x))))%R by lra.
    rewrite (Rsum_alter _ _ _ _ _ Hxi).
    unfold tmap, ones. cbn [data shape]. rewrite fmap_replicate.
    rewrite lookup_replicate_2 by (by rewrite <- Hx).
    f_equal. cbn [s_mul s_one R_scalar]. field. done.
  - intros a b g alpha Ha Hb Hg Hsb Hsg Hi.
    eexists _, _. split; [by apply MySub_gradients|].
    assert (length (data b) = length (data a)) as Hlb.
    { unfold wf in *. by rewrite Ha, Hb, Hsb. }
    assert (length (data g) = length (data a)) as Hlg.
    { unfold wf in *. by rewrite Ha, Hg, Hsg. }
    destruct (lookup_lt_is_Some_2 (data a) i Hi) as [ai Hai].
    destruct (lookup_lt_is_Some_2 (data b) i ltac:(lia)) as [bi Hbi].
    destruct (lookup_lt_is_Some_2 (data g) i ltac:(lia)) as [gi Hgi].
    unfold central_difference, objective. split.
    + rewrite !(MySub_forward_value (Tensor (shape a) _) b alpha);
        [|unfold wf; cbn [data shape]; by rewrite length_alter|done|done
         |unfold wf; cbn [data shape]; by rewrite length_alter|done|done].
      cbn [out_data from_option data shape].
      rewrite <- !(zip_with_flip Rminus).
      rewrite (dot_zip_alter (flip Rminus) _ _ (data g) (Rmult alpha <$> data b)
                 (data a) i gi (alpha * bi)%R ai Hgi);
        [|by rewrite list_lookup_fmap, Hbi|done].
      rewrite Hgi. f_equal. unfold flip. field. done.
    + rewrite !(MySub_forward_value a (Tensor (shape b) _) alpha);
        [|done|unfold wf; cbn [data shape]; by rewrite length_alter|done
         |done|unfold wf; cbn [data shape]; by rewrite length_alter|done].
      cbn [out_data from_option data shape].
      rewrite !zip_with_fmap_r.
      rewrite (dot_zip_alter (λ av bv, av - alpha * bv)%R _ _ (data g) (data a)
                 (data b) i gi ai bi Hgi Hai Hbi).
      unfold tmap. cbn [data]. rewrite list_lookup_fmap, Hgi.
      cbn [fmap option_fmap option_map].
      f_equal. field. done.
Qed.

(** X13 at a concrete input: the second coordinate of an input of shape
    [[2]], step 1. *)
Lemma linear_finite_difference_witness :
  ∃ G, gradients1 MatrixSum.forward MatrixSum.backward x34 (scalar_tensor 1%R)
       = Some [Some G]
     ∧ data G !! 1
       = Some (central_difference
                 (objective (scalar_tensor 1%R)
                    (λ d, forward_value1 MatrixSum.forward (Tensor (shape x34) d)))
                 (data x34) 1 1).
Proof.
  destruct (linear_finite_difference 1 1) as [Hsum _]; [lra|].
  apply (Hsum x34 1%R); [reflexivity|simpl; lia].
Defined.

Lemma ce_term_flat (k y p eps : R) :
  (0 < eps)%R → (p + eps <= / 10 ^ 7 ∨ 1 - / 10 ^ 7 <= p - eps)%R →
  (k * (- y * ln (s_clip clip_lo clip_hi (p + eps)))
   - k * (- y * ln (s_clip clip_lo clip_hi (p - eps))) = 0)%R.
Proof.
  intros Heps [Hlo|Hhi].
  - rewrite !R_clip_low by lra. lra.
  - rewrite !R_clip_high by lra. lra.
Qed.

(** X14 — over the reals, for predictions none of which is 0 and a
    first dimension [N ≥ 1]: where an element of [y_pred] lies outside
    the clip interval by more than the step ([y_pred + eps ≤ 1e-7] or
    [1 - 1e-7 ≤ y_pred - eps]), both cross-entropy forwards are flat in
    that element — the central finite difference is 0 — while both
    backwards return [c·(-y_true/(y_pred·N))] there, which is not 0
    when [c] and [y_true] are not 0: the backward passes differentiate
    the loss without its clipping. *)
Theorem crossentropy_flat_outside_clip (y_true y_pred : tensor R) (n : nat)
    (s : list nat) (c : R) (i : nat) (ti pi eps : R) :
  let N := S n in
  wf y_true → wf y_pred → shape y_true = N :: s → shape y_pred = shape y_true →
  Forall (λ p, p ≠ 0%R) (data y_pred) →
  data y_true !! i = Some ti → data y_pred !! i = Some pi →
  (0 < eps)%R → (pi + eps <= / 10 ^ 7 ∨ 1 - / 10 ^ 7 <= pi - eps)%R →
  central_difference
    (objective (scalar_tensor c)
       (λ d, forward_value2 CustomLoss.forward (Tensor (shape y_pred) d) y_true))
    (data y_pred) i eps = 0%R
  ∧ central_difference
      (objective (scalar_tensor c)
         (λ d, forward_value2 NonDiffCrossEntropy.forward y_true
                 (Tensor (shape y_pred) d)))
      (data y_pred) i eps = 0%R
  ∧ ∃ G,
      gradients2 CustomLoss.forward CustomLoss.backward y_pred y_true
        (scalar_tensor c) = Some [Some G; None]
      ∧ gradients2 NonDiffCrossEntropy.forward NonDiffCrossEntropy.backward
          y_true y_pred (scalar_tensor c) = Some [None; Some G]
      ∧ data G !! i = Some (c * (- ti / (pi * INR N)))%R
      ∧ (c ≠ 0%R → ti ≠ 0%R → (c * (- ti / (pi * INR N)))%R ≠ 0%R).
Proof.
  intros N Ht Hp HN Hs Hnz Hti Hpi Heps Hout.
  assert (pi ≠ 0%R) as Hp0.
  { eapply Forall_lookup_1 in Hnz; [exact Hnz|exact Hpi]. }
  assert (∀ h, wf (Tensor (shape y_pred) (alter h i (data y_pred)))) as Hwf.
  { intros h. unfold wf. cbn [data shape]. by rewrite length_alter. }
  split_and!.
  - unfold central_difference, objective.
    rewrite !(CustomLoss_forward_value y_true (Tensor (shape y_pred) _) N s)
      by done.
    cbn [out_data from_option]. change (data (scalar_tensor c)) with [c].
    rewrite !ce_objective_sum. cbn [data].
    rewrite (Rsum_zip_alter _ _ _ _ _ i ti pi Hti Hpi).
    rewrite ce_term_flat by done. lra.
  - unfold central_difference, objective.
    rewrite !(NonDiffCrossEntropy_forward_value y_true (Tensor (shape y_pred) _) N s)
      by done.
    cbn [out_data from_option]. change (data (scalar_tensor c)) with [c].
    rewrite !ce_objective_sum. cbn [data].
    rewrite (Rsum_zip_alter _ _ _ _ _ i ti pi Hti Hpi).
    rewrite ce_term_flat by done. lra.
  - eexists. split_and!.
    + by apply (CustomLoss_gradients y_true y_pred N s c).
    + by apply (NonDiffCrossEntropy_gradients y_true y_pred N s c).
    + cbn [data]. by rewrite lookup_zip_with, Hti, Hpi.
    + intros Hc Hy.
      assert (INR N ≠ 0)%R by (by apply not_0_INR).
      unfold Rdiv. rewrite Rinv_mult.
      repeat apply Rmult_integral_contrapositive_currified;
        try done; try lra; by apply Rinv_neq_0_compat.
Qed.

(** X14 at a concrete input: labels [[1; 0]], predictions [[2; 1/4]],
    first coordinate, step 1/2. *)
Lemma crossentropy_flat_outside_clip_witness :
  central_difference
    (objective (scalar_tensor 1%R)
       (λ d, forward_value2 CustomLoss.forward (Tensor (shape yp_out) d) yt2))
    (data yp_out) 0 (/ 2) = 0%R.
Proof.
  pose proof eps_bounds.
  apply (crossentropy_flat_outside_clip yt2 yp_out 1 [] 1 0 1 2 (/ 2));
    try reflexivity; [repeat constructor; lra|lra|right; lra].
Defined.

(** ** The shapes through [CIFAR10_Model.forward] *)

Section layer_shapes.
Implicit Types (pre : list nat).

Lemma Conv2d_3_0 cin cout pre H W :
  length pre ≤ 1 →
  nn.Conv2d cin cout 3 0 (pre ++ [cin; H; W])
  = if (3 <=? H) && (3 <=? W) then inr (pre ++ [cout; H - 2; W - 2])
    else inl RuntimeError.
Proof.
  intros Hpre. destruct pre as [|N [|??]]; [| |simpl in Hpre; lia];
    unfold nn.Conv2d, nn.conv_out; cbn [app]; rewrite Nat.eqb_refl;
    replace (H + 2 * 0) with H by lia; replace (W + 2 * 0) with W by lia;
    destruct (3 <=? H) eqn:EH, (3 <=? W) eqn:EW; cbn [andb from_option]; try done;
    apply Nat.leb_le in EH, EW;
    by replace (H - 3 + 1) with (H - 2) by lia;
       replace (W - 3 + 1) with (W - 2) by lia.
Qed.

Lemma Conv2d_3_1 cin cout pre H W :
  length pre ≤ 1 →
  nn.Conv2d cin cout 3 1 (pre ++ [cin; H; W])
  = if (1 <=? H) && (1 <=? W) then inr (pre ++ [cout; H; W])
    else inl RuntimeError.
Proof.
  intros Hpre.
  assert (∀ n, (3 <=? n + 2 * 1) = (1 <=? n)) as Hleb.
  { intros n. destruct (1 <=? n) eqn:E.
    - apply Nat.leb_le in E. apply Nat.leb_le. lia.
    - apply Nat.leb_gt in E. apply Nat.leb_gt. lia. }
  destruct pre as [|N [|??]]; [| |simpl in Hpre; lia];
    unfold nn.Conv2d, nn.conv_out; cbn [app]; rewrite Nat.eqb_refl, !Hleb;
    destruct (1 <=? H) eqn:EH, (1 <=? W) eqn:EW; cbn [andb from_option]; try done;
    apply Nat.leb_le in EH, EW;
    by replace (H + 2 * 1 - 3 + 1) with H by lia;
       replace (W + 2 * 1 - 3 + 1) with W by lia.
Qed.

Lemma Conv2d_channels cin cout k p pre C H W :
  length pre ≤ 1 → C ≠ cin →
  nn.Conv2d cin cout k p (pre ++ [C; H; W]) = inl RuntimeError.
Proof.
  intros Hpre HC. apply Nat.eqb_neq in HC.
  destruct pre as [|N [|??]]; [| |simpl in Hpre; lia];
    unfold nn.Conv2d; cbn [app]; by rewrite HC.
Qed.

Lemma MaxPool2d_2 pre C H W :
  length pre ≤ 1 →
  nn.MaxPool2d 2 (pre ++ [C; H; W])
  = if (2 <=? H) && (2 <=? W) then inr (pre ++ [C; H / 2; W / 2])
    else inl RuntimeError.
Proof.
  intros Hpre.
  assert (∀ n, 2 ≤ n → (n - 2) / 2 + 1 = n / 2) as Hdiv.
  { intros n Hn. replace n with (n - 2 + 1 * 2) at 2 by lia.
    by rewrite Nat.div_add by lia. }
  destruct pre as [|N [|??]]; [| |simpl in Hpre; lia];
    unfold nn.MaxPool2d, nn.pool_out; cbn [app];
    destruct (2 <=? H) eqn:EH, (2 <=? W) eqn:EW; cbn [andb from_option]; try done;
    apply Nat.leb_le in EH, EW; by rewrite !Hdiv.
Qed.
End layer_shapes.

Ltac split_bool E :=
  first [ apply andb_true_iff in E as [?%Nat.leb_le ?%Nat.leb_le]
        | apply andb_false_iff in E as [?%Nat.leb_gt|?%Nat.leb_gt] ].

Lemma half_ge_2 n : 2 ≤ n / 2 ↔ 4 ≤ n.
Proof.
  split; intros Hn.
  - destruct (decide (4 ≤ n)) as [|Hlt]; [done|].
    assert (n / 2 < 2); [|lia]. apply Nat.Div0.div_lt_upper_bound; lia.
  - apply Nat.div_le_lower_bound; lia.
Qed.

Lemma quarter_small n : n < 6 → (n - 2) / 4 = 0.
Proof. intros Hn. apply Nat.div_small. lia. Qed.

(** What the two convolution blocks leave of a height and a width,
    before whatever [k] follows. *)
Lemma cnn_blocks_shape {X} (k : list nat → exn + X) (pre : list nat) (C H W : nat) :
  length pre ≤ 1 →
  (x ← CIFAR10_Model.cnn_block_1 (pre ++ [C; H; W]);
   x ← CIFAR10_Model.dropout_1 x;
   x ← checkpoint CIFAR10_Model.cnn_block_2 x;
   x ← CIFAR10_Model.dropout_2 x;
   k x)
  = if (C =? 3) && (6 <=? H) && (6 <=? W)
    then k (pre ++ [64; (H - 2) / 4; (W - 2) / 4])
    else inl RuntimeError.
Proof.
  intros Hpre.
  unfold CIFAR10_Model.cnn_block_1, CIFAR10_Model.cnn_block_2, checkpoint,
    CIFAR10_Model.dropout_1, CIFAR10_Model.dropout_2, nn.Sequential,
    nn.ReLU, nn.Dropout.
  destruct (C =? 3) eqn:EC;
    [apply Nat.eqb_eq in EC as ->
    |apply Nat.eqb_neq in EC; by rewrite Conv2d_channels].
  cbn [andb].
  rewrite Conv2d_3_0 by done.
  destruct ((3 <=? H) && (3 <=? W)) eqn:E1; split_bool E1;
    cbn [mbind exn_bind];
    [|by rewrite (proj2 (Nat.leb_gt 6 H)) by lia
     |rewrite (proj2 (Nat.leb_gt 6 W)) by lia; by rewrite andb_false_r].
  rewrite Conv2d_3_1 by done.
  rewrite (proj2 (Nat.leb_le 1 (H - 2))), (proj2 (Nat.leb_le 1 (W - 2))) by lia.
  cbn [andb mbind exn_bind].
  rewrite MaxPool2d_2 by done.
  destruct ((2 <=? H - 2) && (2 <=? W - 2)) eqn:E2; split_bool E2;
    cbn [mbind exn_bind];
    [|by rewrite (proj2 (Nat.leb_gt 6 H)) by lia
     |rewrite (proj2 (Nat.leb_gt 6 W)) by lia; by rewrite andb_false_r].
  rewrite Conv2d_3_1 by done.
  assert (1 ≤ (H - 2) / 2) by (apply Nat.div_le_lower_bound; lia).
  assert (1 ≤ (W - 2) / 2) by (apply Nat.div_le_lower_bound; lia).
  rewrite (proj2 (Nat.leb_le 1 ((H - 2) / 2))), (proj2 (Nat.leb_le 1 ((W - 2) / 2)))
    by done.
  cbn [andb mbind exn_bind].
  rewrite Conv2d_3_1 by done.
  rewrite (proj2 (Nat.leb_le 1 ((H - 2) / 2))), (proj2 (Nat.leb_le 1 ((W - 2) / 2)))
    by done.
  cbn [andb mbind exn_bind].
  rewrite MaxPool2d_2 by done.
  rewrite !Nat.Div0.div_div. change (2 * 2) with 4.
  destruct (6 <=? H) eqn:EH; [apply Nat.leb_le in EH|apply Nat.leb_gt in EH].
  - rewrite (proj2 (Nat.leb_le 2 ((H - 2) / 2)))
      by (apply half_ge_2; lia).
    destruct (6 <=? W) eqn:EW; [apply Nat.leb_le in EW|apply Nat.leb_gt in EW].
    + rewrite (proj2 (Nat.leb_le 2 ((W - 2) / 2))) by (apply half_ge_2; lia).
      done.
    + rewrite (proj2 (Nat.leb_gt 2 ((W - 2) / 2)))
        by (apply Nat.Div0.div_lt_upper_bound; lia).
      done.
  - rewrite (proj2 (Nat.leb_gt 2 ((H - 2) / 2)))
      by (apply Nat.Div0.div_lt_upper_bound; lia).
    done.
Qed.

(** X15 — on a batch of shape [(N, C, H, W)], [CIFAR10_Model.forward]
    returns logits of shape [(N, 10)] exactly when [C = 3] and
    [((H - 2) // 4) · ((W - 2) // 4) = 49], the 7 × 7 that
    [nn.Linear(64 * 7 * 7, 512)] is sized for: so for 32 × 32 images,
    and for every height and width from 30 to 33.  On every other batch
    a layer raises [RuntimeError]. *)
Theorem CIFAR10_Model_forward_batch (N C H W : nat) :
  CIFAR10_Model.forward [N; C; H; W]
  = if (C =? 3) && ((H - 2) / 4 * ((W - 2) / 4) =? 49)
    then inr [N; 10]
    else inl RuntimeError.
Proof.
  unfold CIFAR10_Model.forward.
  rewrite (cnn_blocks_shape _ [N] C H W) by (simpl; lia).
  destruct (C =? 3); [|done]. cbn [andb].
  destruct (6 <=? H) eqn:EH; [apply Nat.leb_le in EH|apply Nat.leb_gt in EH].
  2:{ by rewrite (quarter_small H EH). }
  destruct (6 <=? W) eqn:EW; [apply Nat.leb_le in EW|apply Nat.leb_gt in EW].
  2:{ by rewrite (quarter_small W EW), Nat.mul_0_r. }
  cbn [andb app].
  set (h := (H - 2) / 4). set (w := (W - 2) / 4).
  unfold CIFAR10_Model.flatten, flatten. cbn [length Nat.ltb Nat.leb take drop app].
  change (numel [64; h; w]) with (64 * (h * (w * 1))).
  unfold CIFAR10_Model.linearize, CIFAR10_Model.dropout_3, CIFAR10_Model.linear1,
    CIFAR10_Model.out, nn.Sequential, nn.Linear, nn.ReLU, nn.Dropout.
  cbn [mbind exn_bind mret exn_ret].
  change (reverse [N; 64 * (h * (w * 1))]) with [64 * (h * (w * 1)); N].
  cbn [mbind exn_bind].
  destruct (h * w =? 49) eqn:E; [apply Nat.eqb_eq in E|apply Nat.eqb_neq in E].
  - rewrite (proj2 (Nat.eqb_eq (64 * (h * (w * 1))) (64 * 7 * 7))) by lia.
    done.
  - rewrite (proj2 (Nat.eqb_neq (64 * (h * (w * 1))) (64 * 7 * 7))) by lia.
    done.
Qed.

(** X16 — a single image of shape [(C, H, W)] is not given a batch
    dimension: [flatten] keeps its 64 channels apart, so [forward]
    raises [RuntimeError] unless [C = 3] and
    [((H - 2) // 4) · ((W - 2) // 4) = 64 · 7 · 7], in which case it
    returns shape [(64, 10)].  In particular one 3 × 32 × 32 image
    raises.  A tensor that has neither three nor four dimensions raises
    as well. *)
Theorem CIFAR10_Model_forward_unbatched :
  (∀ C H W : nat,
     CIFAR10_Model.forward [C; H; W]
     = if (C =? 3) && ((H - 2) / 4 * ((W - 2) / 4) =? 64 * 7 * 7)
       then inr [64; 10]
       else inl RuntimeError)
  ∧ CIFAR10_Model.forward [3; 32; 32] = inl RuntimeError
  ∧ (∀ img : list nat, length img ≠ 3 → length img ≠ 4 →
       CIFAR10_Model.forward img = inl RuntimeError).
Proof.
  assert (∀ C H W : nat,
            CIFAR10_Model.forward [C; H; W]
            = if (C =? 3) && ((H - 2) / 4 * ((W - 2) / 4) =? 64 * 7 * 7)
              then inr [64; 10]
              else inl RuntimeError) as Hone.
  { intros C H W. unfold CIFAR10_Model.forward.
    rewrite (cnn_blocks_shape _ [] C H W) by (simpl; lia).
    destruct (C =? 3); [|done]. cbn [andb].
    destruct (6 <=? H) eqn:EH; [apply Nat.leb_le in EH|apply Nat.leb_gt in EH].
    2:{ by rewrite (quarter_small H EH). }
    destruct (6 <=? W) eqn:EW; [apply Nat.leb_le in EW|apply Nat.leb_gt in EW].
    2:{ by rewrite (quarter_small W EW), Nat.mul_0_r. }
    cbn [andb app].
    set (h := (H - 2) / 4). set (w := (W - 2) / 4).
    unfold CIFAR10_Model.flatten, flatten. cbn [length Nat.ltb Nat.leb take drop app].
    change (numel [h; w]) with (h * (w * 1)).
    unfold CIFAR10_Model.linearize, CIFAR10_Model.dropout_3, CIFAR10_Model.linear1,
      CIFAR10_Model.out, nn.Sequential, nn.Linear, nn.ReLU, nn.Dropout.
    cbn [mbind exn_bind mret exn_ret].
    change (reverse [64; h * (w * 1)]) with [h * (w * 1); 64].
    cbn [mbind exn_bind].
    rewrite Nat.mul_1_r.
    destruct (h * w =? 64 * 7 * 7) eqn:E; done. }
  split_and!.
  - exact Hone.
  - by rewrite Hone.
  - intros img H3 H4. by destruct img as [|C [|H [|W [|? [|??]]]]].
Qed.

(** ** The training loop *)

Section loop_facts.
Import training.
#[local] Open Scope string_scope.
Context {W E Img Lbl P L A B : Type} {SA : Scalar A} {SB : Scalar B}.
Context {RT : Runtime W E Img Lbl L A B}.
Implicit Types (model : nn_module W E Img P) (optimizer : optimizer_obj W E)
  (loss_fn : P → Lbl → W → E + L * W) (metrics_fn : P → Lbl → W → E + B * W)
  (dl : list (Img * Lbl)) (tr new : list (event L B)) (w : W)
  (s : W * list (event L B)) (results : list (L * B)).

Lemma T_bind_inv {X Y} (m : T W E L B X) (f : X → T W E L B Y) s r :
  (m ≫= f) s = inr r → ∃ a s', m s = inr (a, s') ∧ f a s' = inr r.
Proof.
  unfold mbind, T_bind. destruct (m s) as [e|[a s']]; [done|]. eauto.
Qed.

Lemma T_bind_run {X Y} (m : T W E L B X) (f : X → T W E L B Y) s a s' R :
  m s = inr (a, s') → f a s' = R → (m ≫= f) s = R.
Proof. intros Hm <-. unfold mbind, T_bind. by rewrite Hm. Qed.

Lemma call_inv {X} (op : W → E + X * W) (e : X → event L B) w tr r w' tr' :
  call op e (w, tr) = inr (r, (w', tr')) → tr' = tr ++ [e r].
Proof.
  unfold call. cbn [fst snd]. destruct (op w) as [err|[r' w'']]; [done|].
  by intros [= <- <- <-].
Qed.

Lemma call_run {X} (op : W → E + X * W) (e : X → event L B) w tr r w' :
  op w = inr (r, w') → call op e (w, tr) = inr (r, (w', tr ++ [e r])).
Proof. intros Hop. unfold call. cbn [fst snd]. by rewrite Hop. Qed.

(** The trace of [train]: the calls of every batch, in order, and the
    logs of every hundredth batch. *)
Lemma train_loop_trace model loss_fn metrics_fn optimizer (n epoch : nat)
    dl (start : nat) w tr w' tr' :
  for_each (enumerate_from start dl) () (λ '(batch, (X, y)) _,
    X ← call (img_to_device X) (λ _, ToDevice);
    y ← call (lbl_to_device y) (λ _, ToDevice);
    pred ← call (module_call model X) (λ _, ModelCall);
    loss ← call (loss_fn pred y) LossFn;
    accuracy ← call (metrics_fn pred y) MetricsFn;
    call (tensor_backward loss) (λ _, Backward);;
    call (optimizer_step optimizer) (λ _, OptimizerStep);;
    call (optimizer_zero_grad optimizer) (λ _, ZeroGrad);;
    if batch mod 100 =? 0 then
      let loss := loss_item loss in
      let current := batch in
      let step := batch / 100 * (epoch + 1) in
      log_metric "Loss" (format loss "2f") step;;
      log_metric "Accuracy" (format (tensor_item accuracy) " 2f") step;;
      print (String.concat ""
               ["loss: "; format loss "2f"; " accuracy: ";
                format (tensor_item accuracy) "2f";
                " ["; str current; " / "; str n; "]"])
    else mret ()) (w, tr) = inr ((), (w', tr')) →
  ∃ results, length results = length dl
    ∧ tr' = tr ++ train_events n epoch start results.
Proof.
  revert start w tr. induction dl as [|[X y] dl IH]; intros start w tr Hrun.
  - injection Hrun as <- <-. exists []. by rewrite app_nil_r.
  - cbn [enumerate_from for_each] in Hrun.
    apply T_bind_inv in Hrun as ([] & [w1 tr1] & Hbody & Hrun).
    apply T_bind_inv in Hbody as (X' & [w2 tr2] & H1 & Hbody).
    apply call_inv in H1 as ->.
    apply T_bind_inv in Hbody as (y' & [w3 tr3] & H2 & Hbody).
    apply call_inv in H2 as ->.
    apply T_bind_inv in Hbody as (p & [w4 tr4] & H3 & Hbody).
    apply call_inv in H3 as ->.
    apply T_bind_inv in Hbody as (l & [w5 tr5] & H4 & Hbody).
    apply call_inv in H4 as ->.
    apply T_bind_inv in Hbody as (a & [w6 tr6] & H5 & Hbody).
    apply call_inv in H5 as ->.
    apply T_bind_inv in Hbody as ([] & [w7 tr7] & H6 & Hbody).
    apply call_inv in H6 as ->.
    apply T_bind_inv in Hbody as ([] & [w8 tr8] & H7 & Hbody).
    apply call_inv in H7 as ->.
    apply T_bind_inv in Hbody as ([] & [w9 tr9] & H8 & Hbody).
    apply call_inv in H8 as ->.
    destruct (IH (S start) w1 tr1 Hrun) as (results & Hlen & ->).
    exists ((l, a) :: results). split; [simpl; by rewrite Hlen|].
    cbn [train_events]. unfold batch_events.
    destruct (start mod 100 =? 0).
    + cbn zeta in Hbody.
      apply T_bind_inv in Hbody as ([] & [w10 tr10] & H9 & Hbody).
      apply call_inv in H9 as ->.
      apply T_bind_inv in Hbody as ([] & [w11 tr11] & H10 & Hbody).
      apply call_inv in H10 as ->.
      injection Hbody as _ <-. by rewrite <- !app_assoc.
    + injection Hbody as _ <-. by rewrite <- !app_assoc.
Qed.

Lemma train_trace dl model loss_fn metrics_fn optimizer (epoch : nat) w tr w' tr' :
  train dl model loss_fn metrics_fn optimizer epoch (w, tr) = inr ((), (w', tr')) →
  ∃ results, length results = length dl
    ∧ tr' = tr ++ ModelTrain :: train_events (length dl) epoch 0 results.
Proof.
  intros Hrun. unfold train in Hrun.
  apply T_bind_inv in Hrun as ([] & [w1 tr1] & H1 & Hrun).
  apply call_inv in H1 as ->.
  apply train_loop_trace in Hrun as (results & Hlen & ->).
  exists results. split; [done|]. by rewrite <- app_assoc.
Qed.

Lemma metric_steps_app key tr1 tr2 :
  metric_steps (L := L) (B := B) key (tr1 ++ tr2)
  = metric_steps key tr1 ++ metric_steps key tr2.
Proof. apply omap_app. Qed.

Lemma metric_values_app key tr1 tr2 :
  metric_values (L := L) (B := B) key (tr1 ++ tr2)
  = metric_values key tr1 ++ metric_values key tr2.
Proof. apply omap_app. Qed.

Lemma updates_app tr1 tr2 :
  updates (L := L) (B := B) (tr1 ++ tr2) = updates tr1 ++ updates tr2.
Proof. apply filter_app. Qed.

Lemma losses_app tr1 tr2 :
  losses (L := L) (B := B) (tr1 ++ tr2) = losses tr1 ++ losses tr2.
Proof. apply omap_app. Qed.

Lemma train_events_steps key n epoch start results :
  key = "Loss" ∨ key = "Accuracy" →
  metric_steps key (train_events n epoch start results)
  = (λ b, b / 100 * (epoch + 1))
      <$> filter (λ b, b mod 100 = 0) (seq start (length results)).
Proof.
  intros Hkey. revert start.
  induction results as [|[l a] results IH]; intros start; [done|].
  cbn [train_events length seq]. rewrite metric_steps_app, IH.
  rewrite filter_cons. unfold batch_events.
  destruct (decide (start mod 100 = 0)) as [E0|E0].
  - rewrite (proj2 (Nat.eqb_eq _ _) E0). destruct Hkey as [-> | ->]; done.
  - rewrite (proj2 (Nat.eqb_neq _ _) E0). destruct Hkey as [-> | ->]; done.
Qed.

Lemma train_events_steps_other key n epoch start results :
  key ≠ "Loss" → key ≠ "Accuracy" →
  metric_steps key (train_events n epoch start results) = [].
Proof.
  intros H1 H2.
  apply not_eq_sym, String.eqb_neq in H1. apply not_eq_sym, String.eqb_neq in H2.
  revert start.
  induction results as [|[l a] results IH]; intros start; [done|].
  cbn [train_events]. rewrite metric_steps_app, IH, app_nil_r.
  unfold batch_events. destruct (start mod 100 =? 0); [|done].
  unfold metric_steps. cbn [app omap list_omap]. by rewrite H1, H2.
Qed.

Lemma train_events_updates n epoch start results :
  updates (train_events n epoch start results)
  = concat (replicate (length results) [Backward; OptimizerStep; ZeroGrad]).
Proof.
  revert start. induction results as [|[l a] results IH]; intros start; [done|].
  cbn [train_events length replicate concat]. rewrite updates_app, IH.
  unfold batch_events. by destruct (start mod 100 =? 0).
Qed.

Lemma train_events_losses n epoch start results :
  losses (train_events n epoch start results) = results.*1.
Proof.
  revert start. induction results as [|[l a] results IH]; intros start; [done|].
  cbn [train_events]. rewrite losses_app, IH.
  unfold batch_events. by destruct (start mod 100 =? 0).
Qed.

Lemma eval_events_steps key results : metric_steps key (eval_events results) = [].
Proof.
  induction results as [|[l a] results IH]; [done|].
  unfold eval_events in *. cbn [mbind list_bind].
  by rewrite metric_steps_app, IH.
Qed.

Lemma eval_events_values key results : metric_values key (eval_events results) = [].
Proof.
  induction results as [|[l a] results IH]; [done|].
  unfold eval_events in *. cbn [mbind list_bind].
  by rewrite metric_values_app, IH.
Qed.

Lemma eval_events_losses results : losses (eval_events results) = results.*1.
Proof.
  induction results as [|[l a] results IH]; [done|].
  unfold eval_events in *. cbn [mbind list_bind].
  rewrite losses_app, IH. done.
Qed.

Lemma eval_events_updates results : updates (eval_events results) = [].
Proof.
  induction results as [|[l a] results IH]; [done|].
  unfold eval_events in *. cbn [mbind list_bind].
  by rewrite updates_app, IH.
Qed.

(** The trace of [evaluate], which returns only on a dataloader that is
    not empty. *)
Lemma evaluate_loop_trace model loss_fn metrics_fn
    dl (el : A) (ea : option B) w tr el' ea' w' tr' :
  for_each dl (el, ea) (λ '(X, y) '(eval_loss, eval_accuracy),
      X ← call (img_to_device X) (λ _, ToDevice);
      y ← call (lbl_to_device y) (λ _, ToDevice);
      pred ← call (module_call model X) (λ _, ModelCall);
      loss ← call (loss_fn pred y) LossFn;
      let eval_loss := s_add eval_loss (loss_item loss) in
      accuracy ← call (metrics_fn pred y) MetricsFn;
      let eval_accuracy := add_accuracy eval_accuracy accuracy in
      mret (eval_loss, eval_accuracy)) (w, tr) = inr ((el', ea'), (w', tr')) →
  ∃ results, length results = length dl
    ∧ tr' = tr ++ eval_events results
    ∧ el' = foldl s_add el (loss_item <$> results.*1)
    ∧ ea' = foldl add_accuracy ea results.*2.
Proof.
  revert el ea w tr. induction dl as [|[X y] dl IH]; intros el ea w tr Hrun.
  - injection Hrun as <- <- <- <-. exists []. by rewrite app_nil_r.
  - cbn [for_each] in Hrun.
    apply T_bind_inv in Hrun as (acc & [w1 tr1] & Hbody & Hrun).
    apply T_bind_inv in Hbody as (X' & [w2 tr2] & H1 & Hbody).
    apply call_inv in H1 as ->.
    apply T_bind_inv in Hbody as (y' & [w3 tr3] & H2 & Hbody).
    apply call_inv in H2 as ->.
    apply T_bind_inv in Hbody as (p & [w4 tr4] & H3 & Hbody).
    apply call_inv in H3 as ->.
    apply T_bind_inv in Hbody as (l & [w5 tr5] & H4 & Hbody).
    apply call_inv in H4 as ->.
    apply T_bind_inv in Hbody as (a & [w6 tr6] & H5 & Hbody).
    apply call_inv in H5 as ->.
    injection Hbody as <- <- <-.
    apply IH in Hrun as (results & Hlen & -> & -> & ->).
    exists ((l, a) :: results). split; [simpl; by rewrite Hlen|].
    split; [|done]. unfold eval_events. cbn [mbind list_bind].
    by rewrite <- !app_assoc.
Qed.

Lemma evaluate_trace dl model loss_fn metrics_fn (epoch : nat) w tr w' tr' :
  evaluate dl model loss_fn metrics_fn epoch (w, tr) = inr ((), (w', tr')) →
  dl ≠ [] ∧
  ∃ results, length results = length dl
    ∧ tr' = tr ++ [ModelEval; NoGradEnter] ++ eval_events results
            ++ [NoGradExit;
                LogMetric "eval_loss"
                  (format (mean_loss results.*1 (length dl)) "2f") epoch;
                LogMetric "eval_accuracy"
                  (format (mean_accuracy results.*2 (length dl)) " 2f") epoch;
                PrintLine (String.concat ""
                  ["Eval metrics: "; newline; "Accuracy: ";
                   format (mean_accuracy results.*2 (length dl)) ".2f";
                   ", Avg loss: ";
                   format (mean_loss results.*1 (length dl)) "2f"; " "; newline])].
Proof.
  intros Hrun. unfold evaluate in Hrun.
  apply T_bind_inv in Hrun as ([] & [w1 tr1] & H1 & Hrun).
  apply call_inv in H1 as ->.
  apply T_bind_inv in Hrun as ([] & [w2 tr2] & H2 & Hrun).
  apply call_inv in H2 as ->.
  apply T_bind_inv in Hrun as ([el ea] & [w3 tr3] & H3 & Hrun).
  apply evaluate_loop_trace in H3 as (results & Hlen & -> & -> & ->).
  apply T_bind_inv in Hrun as ([] & [w4 tr4] & H4 & Hrun).
  apply call_inv in H4 as ->.
  destruct dl as [|b dl]; [done|]. split; [done|].
  cbn [length Nat.eqb] in Hrun. cbn zeta in Hrun.
  apply T_bind_inv in Hrun as ([] & [w5 tr5] & H5 & Hrun).
  apply call_inv in H5 as ->.
  apply T_bind_inv in Hrun as ([] & [w6 tr6] & H6 & Hrun).
  apply call_inv in H6 as ->.
  injection Hrun as _ <-.
  exists results. split; [done|].
  unfold mean_loss, mean_accuracy. cbn [length].
  by rewrite <- !app_assoc.
Qed.

Lemma no_zero_division_bind {X Y} (m : T W E L B X) (f : X → T W E L B Y) :
  no_zero_division m → (∀ a, no_zero_division (f a)) → no_zero_division (m ≫= f).
Proof.
  intros Hm Hf s. unfold mbind, T_bind.
  destruct (m s) as [e|[a s']] eqn:Hms; [|apply Hf].
  intros [= ->]. by apply (Hm s).
Qed.

Lemma no_zero_division_call {X} (op : W → E + X * W) (e : X → event L B) :
  no_zero_division (call op e).
Proof. intros s. unfold call. by destruct (op s.1) as [?|[??]]. Qed.

Lemma no_zero_division_emit (e : event L B) : no_zero_division (emit (W := W) (E := E) e).
Proof. by intros s. Qed.

Lemma no_zero_division_ret {X} (x : X) :
  no_zero_division (mret x : T W E L B X).
Proof. by intros s. Qed.

Lemma no_zero_division_for_each {I S} (l : list I) (s0 : S)
    (body : I → S → T W E L B S) :
  (∀ i (v : S), no_zero_division (body i v)) →
  no_zero_division (for_each l s0 body).
Proof.
  intros Hbody. revert s0. induction l as [|i l IH]; intros s0; cbn [for_each].
  - apply no_zero_division_ret.
  - apply no_zero_division_bind; [apply Hbody|apply IH].
Qed.
End loop_facts.

(** Every hundredth batch: the multiples of 100 below [n]. *)
Lemma every_hundredth (n : nat) :
  filter (λ b, b mod 100 = 0) (seq 0 n) = (λ k, 100 * k) <$> seq 0 ((n + 99) / 100).
Proof.
  induction n as [|n IH]; [done|].
  rewrite seq_S, filter_app, IH, Nat.add_0_l.
  pose proof (Nat.div_mod_eq n 100) as Hn.
  pose proof (Nat.mod_upper_bound n 100 ltac:(lia)) as Hr.
  set (q := n / 100) in *. set (r := n mod 100) in *.
  rewrite filter_cons, filter_nil. fold r.
  destruct (decide (r = 0)) as [E0|E0].
  - rewrite <- (Nat.div_unique (n + 99) 100 q 99) by lia.
    rewrite <- (Nat.div_unique (S n + 99) 100 (S q) 0) by lia.
    rewrite seq_S, fmap_app. cbn [Nat.add fmap list_fmap]. do 2 f_equal. lia.
  - rewrite <- (Nat.div_unique (n + 99) 100 (S q) (r - 1)) by lia.
    rewrite <- (Nat.div_unique (S n + 99) 100 (S q) r) by lia.
    by rewrite app_nil_r.
Qed.

Section loop_theorems.
Import training.
#[local] Open Scope string_scope.
Context {W E Img Lbl P L A B : Type} {SA : Scalar A} {SB : Scalar B}.
Context {RT : Runtime W E Img Lbl L A B}.
Implicit Types (model : nn_module W E Img P) (optimizer : optimizer_obj W E)
  (loss_fn : P → Lbl → W → E + L * W) (metrics_fn : P → Lbl → W → E + B * W)
  (dl : list (Img * Lbl)) (tr : list (event L B)) (w : W).

(** X17 — a returning [train] logs "Loss" and "Accuracy" once for every
    hundredth batch, [⌈n / 100⌉] times for a dataloader of [n] batches,
    and the [k]-th of them at step [k · (epoch + 1)]: the steps start
    at 0 in every epoch and are [epoch + 1] apart.  On an empty
    dataloader nothing is logged. *)
Theorem train_logging_schedule dl model loss_fn metrics_fn optimizer epoch w tr w' tr' :
  train dl model loss_fn metrics_fn optimizer epoch (w, tr) = inr ((), (w', tr')) →
  ∃ new, tr' = tr ++ new
    ∧ metric_steps "Loss" new
      = (λ k, k * (epoch + 1)) <$> seq 0 ((length dl + 99) / 100)
    ∧ metric_steps "Accuracy" new
      = (λ k, k * (epoch + 1)) <$> seq 0 ((length dl + 99) / 100).
Proof.
  intros Hrun. apply train_trace in Hrun as (results & Hlen & ->).
  eexists. split; [done|].
  change (ModelTrain :: ?l) with ([ModelTrain] ++ l).
  rewrite !metric_steps_app, !train_events_steps by auto.
  rewrite Hlen, every_hundredth, <- list_fmap_compose.
  change (metric_steps ?k [ModelTrain]) with (@nil nat). cbn [app].
  split; apply list_fmap_ext; intros _ k _; unfold compose;
    by rewrite (Nat.mul_comm 100), Nat.div_mul.
Qed.

(** X18 — a returning [train] has called [loss_fn] once per batch, and
    what it did to the parameters and their gradients is, for every
    batch in turn, [loss.backward()], [optimizer.step()],
    [optimizer.zero_grad()]: one step per batch, on the gradient of
    that batch alone. *)
Theorem train_updates dl model loss_fn metrics_fn optimizer epoch w tr w' tr' :
  train dl model loss_fn metrics_fn optimizer epoch (w, tr) = inr ((), (w', tr')) →
  ∃ new, tr' = tr ++ new
    ∧ length (losses new) = length dl
    ∧ updates new
      = concat (replicate (length dl) [Backward; OptimizerStep; ZeroGrad]).
Proof.
  intros Hrun. apply train_trace in Hrun as (results & Hlen & ->).
  eexists. split; [done|].
  change (ModelTrain :: ?l) with ([ModelTrain] ++ l).
  rewrite losses_app, updates_app, train_events_losses, train_events_updates.
  change (losses [ModelTrain]) with (@nil L).
  change (updates [ModelTrain]) with (@nil (event L B)). cbn [app].
  by rewrite length_fmap, Hlen.
Qed.

(** X19 — [evaluate] never returns on an empty dataloader: when its
    collaborators return, [eval_loss /= num_batches] raises
    [ZeroDivisionError].  On a dataloader that is not empty it never
    raises [ZeroDivisionError]. *)
Theorem evaluate_zero_division model loss_fn metrics_fn epoch
    (s : W * list (event L B)) :
  (∀ r, evaluate [] model loss_fn metrics_fn epoch s ≠ inr r)
  ∧ (∀ w1 w2 w3,
       module_eval model s.1 = inr ((), w1) →
       no_grad_enter w1 = inr ((), w2) → no_grad_exit w2 = inr ((), w3) →
       evaluate [] model loss_fn metrics_fn epoch s = inl ZeroDivisionError)
  ∧ (∀ dl, dl ≠ [] →
       evaluate dl model loss_fn metrics_fn epoch s ≠ inl ZeroDivisionError).
Proof.
  split_and!.
  - intros [[] [w' tr']] Hrun. destruct s as [w tr].
    by apply evaluate_trace in Hrun as [? _].
  - intros w1 w2 w3 H1 H2 H3. destruct s as [w tr]. unfold evaluate.
    eapply T_bind_run; [by apply call_run|].
    eapply T_bind_run; [by apply call_run|].
    eapply T_bind_run; [reflexivity|]. cbn beta iota.
    eapply T_bind_run; [by apply call_run|].
    done.
  - intros dl Hdl. destruct dl as [|b dl]; [done|]. unfold evaluate.
    apply no_zero_division_bind; [apply no_zero_division_call|intros _].
    apply no_zero_division_bind; [apply no_zero_division_call|intros _].
    apply no_zero_division_bind.
    { apply no_zero_division_for_each. intros [X y] [el ea].
      repeat (apply no_zero_division_bind;
              [apply no_zero_division_call|intros ?]).
      apply no_zero_division_ret. }
    intros [el ea].
    apply no_zero_division_bind; [apply no_zero_division_call|intros _].
    cbn [length Nat.eqb].
    repeat (apply no_zero_division_bind; [apply no_zero_division_call|intros ?]).
    apply no_zero_division_emit.
Qed.

(** X20 — a returning [evaluate] has called [loss_fn] once per batch
    and logged two points, both at step [epoch]: "eval_accuracy", and
    "eval_loss" with the sum of the losses (accumulated from 0 in batch
    order) divided by the number of batches, formatted with ["2f"].  It
    has made no call of [backward], [step] or [zero_grad]. *)
Theorem evaluate_logs_means dl model loss_fn metrics_fn epoch w tr w' tr' :
  evaluate dl model loss_fn metrics_fn epoch (w, tr) = inr ((), (w', tr')) →
  ∃ new, tr' = tr ++ new
    ∧ length (losses new) = length dl
    ∧ metric_steps "eval_loss" new = [epoch]
    ∧ metric_steps "eval_accuracy" new = [epoch]
    ∧ metric_values "eval_loss" new
      = [format (s_div (foldl s_add s_zero (loss_item <$> losses new))
                   (s_of_nat (length dl))) "2f"]
    ∧ updates new = [].
Proof.
  intros Hrun. apply evaluate_trace in Hrun as (_ & results & Hlen & ->).
  eexists. split; [done|].
  rewrite !losses_app, !metric_steps_app, !metric_values_app, !updates_app.
  rewrite eval_events_losses, !eval_events_steps, eval_events_values,
    eval_events_updates.
  change (losses [ModelEval; NoGradEnter]) with (@nil L).
  change (losses (NoGradExit :: ?l)) with (@nil L).
  rewrite app_nil_r. cbn [app]. rewrite length_fmap, Hlen.
  split_and!; done.
Qed.

Lemma epochs_loop_trace (k start : nat) (train_dl test_dl : list (Img * Lbl))
    model loss_fn metrics_fn optimizer w tr w' tr' :
  for_each (seq start k) () (λ t _,
    print (String.concat ""
             ["Epoch "; str (t + 1); newline; "----------------------------"]);;
    train train_dl model loss_fn metrics_fn optimizer t;;
    evaluate test_dl model loss_fn metrics_fn 0) (w, tr) = inr ((), (w', tr')) →
  ∃ new, tr' = tr ++ new
    ∧ metric_steps "eval_loss" new = replicate k 0
    ∧ metric_steps "eval_accuracy" new = replicate k 0
    ∧ metric_steps "Loss" new
      = seq start k ≫= λ t,
          (λ j, j * (t + 1)) <$> seq 0 ((length train_dl + 99) / 100).
Proof.
  revert start w tr. induction k as [|k IH]; intros start w tr Hrun.
  - injection Hrun as <- <-. exists []. by rewrite app_nil_r.
  - cbn [seq for_each] in Hrun.
    apply T_bind_inv in Hrun as ([] & [w1 tr1] & Hbody & Hrun).
    apply T_bind_inv in Hbody as ([] & [w2 tr2] & H1 & Hbody).
    injection H1 as <- <-.
    apply T_bind_inv in Hbody as ([] & [w3 tr3] & H2 & Hbody).
    apply train_trace in H2 as (results & Hlen & ->).
    apply evaluate_trace in Hbody as (_ & eresults & Helen & ->).
    apply IH in Hrun as (new & -> & He & Ha & Hl).
    eexists. split; [by rewrite <- !app_assoc|].
    change (ModelTrain :: ?l) with ([ModelTrain] ++ l).
    rewrite !metric_steps_app, He, Ha, Hl.
    rewrite !eval_events_steps.
    rewrite !(train_events_steps_other "eval_loss") by done.
    rewrite !(train_events_steps_other "eval_accuracy") by done.
    rewrite (train_events_steps "Loss") by auto.
    rewrite Hlen, every_hundredth, <- list_fmap_compose.
    split_and!; [done|done|].
    change (metric_steps "Loss" [PrintLine ?x]) with (@nil nat).
    change (metric_steps "Loss" [ModelTrain]) with (@nil nat).
    change (metric_steps "Loss" [ModelEval; NoGradEnter]) with (@nil nat).
    change (metric_steps "Loss" (NoGradExit :: ?l)) with (@nil nat).
    cbn [app seq mbind list_bind]. f_equal.
    apply list_fmap_ext; intros _ j _; unfold compose.
    by rewrite (Nat.mul_comm 100), Nat.div_mul.
Qed.

(** X21 — over the loop of the last cell, [for t in range(epochs)],
    which calls [evaluate] with [epoch = 0] every time: a returning run
    has logged all its [epochs] points of "eval_loss" and of
    "eval_accuracy" at step 0, and its "Loss" points at the steps
    [0, t + 1, 2·(t + 1), …] of every epoch [t] in turn, which start
    again at 0. *)
Theorem epochs_loop_steps (epochs : nat) (train_dl test_dl : list (Img * Lbl))
    model loss_fn metrics_fn optimizer w tr w' tr' :
  epochs_loop epochs train_dl test_dl model loss_fn metrics_fn optimizer (w, tr)
  = inr ((), (w', tr')) →
  ∃ new, tr' = tr ++ new
    ∧ metric_steps "eval_loss" new = replicate epochs 0
    ∧ metric_steps "eval_accuracy" new = replicate epochs 0
    ∧ metric_steps "Loss" new
      = seq 0 epochs ≫= λ t,
          (λ j, j * (t + 1)) <$> seq 0 ((length train_dl + 99) / 100).
Proof. apply epochs_loop_trace. Qed.
End loop_theorems.

(** The loop at a concrete input: the small world, a dataloader of two
    batches. *)
Section loop_witnesses.
Import training.
#[local] Open Scope string_scope.

(** X17 at a concrete input: epoch 1. *)
Lemma train_logging_schedule_witness :
  ∃ tr' new,
    train (RT := sample_runtime) sample_dataloader sample_model sample_loss_fn
      sample_metrics_fn sample_optimizer 1 ((), []) = inr ((), ((), tr'))
    ∧ tr' = [] ++ new
    ∧ metric_steps "Loss" new = (λ k, k * (1 + 1)) <$> seq 0 ((2 + 99) / 100)
    ∧ metric_steps "Accuracy" new = (λ k, k * (1 + 1)) <$> seq 0 ((2 + 99) / 100).
Proof.
  eassert (train (RT := sample_runtime) sample_dataloader sample_model
             sample_loss_fn sample_metrics_fn sample_optimizer 1 ((), [])
           = inr ((), ((), _))) as Hrun by (cbv; reflexivity).
  destruct (train_logging_schedule (RT := sample_runtime) _ _ _ _ _ _ _ _ _ _ Hrun)
    as (new & Hnew).
  eexists _, new. split; [exact Hrun|exact Hnew].
Defined.

(** X18 at a concrete input. *)
Lemma train_updates_witness :
  ∃ tr' new,
    train (RT := sample_runtime) sample_dataloader sample_model sample_loss_fn
      sample_metrics_fn sample_optimizer 1 ((), []) = inr ((), ((), tr'))
    ∧ tr' = [] ++ new
    ∧ length (losses new) = 2
    ∧ updates new = concat (replicate 2 [Backward; OptimizerStep; ZeroGrad]).
Proof.
  eassert (train (RT := sample_runtime) sample_dataloader sample_model
             sample_loss_fn sample_metrics_fn sample_optimizer 1 ((), [])
           = inr ((), ((), _))) as Hrun by (cbv; reflexivity).
  destruct (train_updates (RT := sample_runtime) _ _ _ _ _ _ _ _ _ _ Hrun)
    as (new & Hnew).
  eexists _, new. split; [exact Hrun|exact Hnew].
Defined.

(** X19 at a concrete input: the empty dataloader. *)
Lemma evaluate_zero_division_witness :
  evaluate (RT := sample_runtime) [] sample_model sample_loss_fn
    sample_metrics_fn 0 ((), []) = inl ZeroDivisionError.
Proof.
  destruct (evaluate_zero_division (RT := sample_runtime) sample_model
              sample_loss_fn sample_metrics_fn 0 ((), [])) as (_ & Hzero & _).
  by apply (Hzero () () ()).
Defined.

(** X20 at a concrete input: epoch 3. *)
Lemma evaluate_logs_means_witness :
  ∃ tr' new,
    evaluate (RT := sample_runtime) sample_dataloader sample_model sample_loss_fn
      sample_metrics_fn 3 ((), []) = inr ((), ((), tr'))
    ∧ tr' = [] ++ new
    ∧ length (losses new) = 2
    ∧ metric_steps "eval_loss" new = [3]
    ∧ metric_steps "eval_accuracy" new = [3]
    ∧ metric_values "eval_loss" new
      = [format (Runtime := sample_runtime)
           (s_div (foldl s_add s_zero (loss_item (Runtime := sample_runtime) <$> losses new))
              (s_of_nat 2)) "2f"]
    ∧ updates new = [].
Proof.
  eassert (evaluate (RT := sample_runtime) sample_dataloader sample_model
             sample_loss_fn sample_metrics_fn 3 ((), [])
           = inr ((), ((), _))) as Hrun by (cbv; reflexivity).
  destruct (evaluate_logs_means (RT := sample_runtime) _ _ _ _ _ _ _ _ _ Hrun)
    as (new & Hnew).
  eexists _, new. split; [exact Hrun|exact Hnew].
Defined.

(** X21 at a concrete input: three epochs. *)
Lemma epochs_loop_steps_witness :
  ∃ tr' new,
    epochs_loop (RT := sample_runtime) 3 sample_dataloader sample_dataloader
      sample_model sample_loss_fn sample_metrics_fn sample_optimizer ((), [])
    = inr ((), ((), tr'))
    ∧ tr' = [] ++ new
    ∧ metric_steps "eval_loss" new = replicate 3 0
    ∧ metric_steps "eval_accuracy" new = replicate 3 0
    ∧ metric_steps "Loss" new
      = seq 0 3 ≫= λ t, (λ j, j * (t + 1)) <$> seq 0 ((2 + 99) / 100).
Proof.
  eassert (epochs_loop (RT := sample_runtime) 3 sample_dataloader
             sample_dataloader sample_model sample_loss_fn sample_metrics_fn
             sample_optimizer ((), [])
           = inr ((), ((), _))) as Hrun by (cbv; reflexivity).
  destruct (epochs_loop_steps (RT := sample_runtime) _ _ _ _ _ _ _ _ _ _ _ Hrun)
    as (new & Hnew).
  eexists _, new. split; [exact Hrun|exact Hnew].
Defined.
End loop_witnesses.
